(** * gdwg::graph -- a shallow embedding of [gdwg_graph.h]

    The header defines a class template [graph<N, E>]: a [std::map] from node
    values to vectors of owned edges, a flattening iterator over that
    two-level structure, and the mutating and querying member functions.
    This development transcribes those member functions into Rocq functions
    over an association list kept in ascending key order, and states the
    properties of the container against that transcription. *)

From Stdlib Require Import List Bool Arith ZArith Lia.
Import ListNotations.

Set Implicit Arguments.

(** ** Requirements on the template parameters

    [N] and [E] are used with [operator==] and [operator<] only.  The laws
    say that [<] is a strict total order whose equivalence is [==], as for
    [int] and [std::string], the types of the test-suite. *)

Class Comparable (A : Type) := {
  equal : A -> A -> bool;
  less : A -> A -> bool;
  equal_spec : forall x y, equal x y = true <-> x = y;
  less_irrefl : forall x, less x x = false;
  less_trans : forall x y z, less x y = true -> less y z = true -> less x z = true;
  less_total : forall x y, less x y = false -> less y x = false -> x = y
}.

#[export] Instance Comparable_Z : Comparable Z.
Proof.
  refine {| equal := Z.eqb; less := Z.ltb |}.
  - intros x y. apply Z.eqb_eq.
  - intros x. apply Z.ltb_irrefl.
  - intros x y z H1 H2. apply Z.ltb_lt in H1, H2. apply Z.ltb_lt. lia.
  - intros x y H1 H2. apply Z.ltb_ge in H1, H2. lia.
Defined.

(** ** Outcomes of a member function

    Every exception of the header is a [std::runtime_error]; the two kinds
    below are told apart by the message.  [Undefined] stands for a call whose
    behaviour C++ leaves undefined (reading through the map's end iterator,
    stepping a singular vector iterator, erasing at an invalid position). *)

Inductive exception : Type :=
| NodeNotFound   (* the messages that start: Cannot call gdwg::graph<N, E>:: *)
| InvalidRange.  (* the message that starts: Invalid iterator range *)

Inductive outcome (A : Type) : Type :=
| Ok (a : A)
| Throw (e : exception)
| Undefined.

Arguments Ok {A} a.
Arguments Throw {A} e.
Arguments Undefined {A}.

Section Graph.

Context {N E : Type} {CN : Comparable N} {CE : Comparable E}.

(** ** Edges *)

(** The class hierarchy [edge] / [weighted_edge] / [unweighted_edge]. *)
Inductive edge : Type :=
| weighted_edge (from_ to_ : N) (weight_ : E)
| unweighted_edge (from_ to_ : N).

Definition get_nodes (e : edge) : N * N :=
  match e with
  | weighted_edge f t _ => (f, t)
  | unweighted_edge f t => (f, t)
  end.

Definition is_weighted (e : edge) : bool :=
  match e with
  | weighted_edge _ _ _ => true
  | unweighted_edge _ _ => false
  end.

Definition get_weight (e : edge) : option E :=
  match e with
  | weighted_edge _ _ w => Some w
  | unweighted_edge _ _ => None
  end.

(** Assignment to the protected fields [from_] and [to_], which [graph]
    reaches as a friend. *)
Definition set_from (n : N) (e : edge) : edge :=
  match e with
  | weighted_edge _ t w => weighted_edge n t w
  | unweighted_edge _ t => unweighted_edge n t
  end.

Definition set_to (n : N) (e : edge) : edge :=
  match e with
  | weighted_edge f _ w => weighted_edge f n w
  | unweighted_edge f _ => unweighted_edge f n
  end.

(** [operator==] of [std::optional<E>]. *)
Definition optional_equal (a b : option E) : bool :=
  match a, b with
  | Some x, Some y => equal x y
  | None, None => true
  | _, _ => false
  end.

(** [edge::operator==]. *)
Definition edge_equal (a b : edge) : bool :=
  (equal (fst (get_nodes a)) (fst (get_nodes b)) && equal (snd (get_nodes a)) (snd (get_nodes b)))
  && Bool.eqb (is_weighted a) (is_weighted b)
  && optional_equal (get_weight a) (get_weight b).

Definition edge_list : Type := list edge.

(** ** The adjacency store

    [std::map<N, edge_list>]: entries in strictly ascending key order. *)

Definition adjacency_list : Type := list (N * edge_list).

(** [map::find], as the mapped value or nothing. *)
Fixpoint map_find (k : N) (m : adjacency_list) : option edge_list :=
  match m with
  | [] => None
  | (n, l) :: rest => if equal n k then Some l else map_find k rest
  end.

(** [map::count]. *)
Definition map_count (k : N) (m : adjacency_list) : nat :=
  match map_find k m with Some _ => 1 | None => 0 end.

(** [map::emplace]: inserts at the key's place in the order unless the key
    is present. *)
Fixpoint map_emplace (k : N) (v : edge_list) (m : adjacency_list) : adjacency_list :=
  match m with
  | [] => [(k, v)]
  | (n, l) :: rest =>
      if less k n then (k, v) :: m
      else if less n k then (n, l) :: map_emplace k v rest
      else m
  end.

(** The side effect of [operator[]]: a missing key is inserted with an empty
    vector. *)
Definition map_touch (k : N) (m : adjacency_list) : adjacency_list :=
  map_emplace k [] m.

(** The vector a reference obtained from [operator[]] or [at] denotes. *)
Definition map_get (k : N) (m : adjacency_list) : edge_list :=
  match map_find k m with Some l => l | None => [] end.

(** A write through such a reference. *)
Fixpoint map_modify (k : N) (f : edge_list -> edge_list) (m : adjacency_list) : adjacency_list :=
  match m with
  | [] => []
  | (n, l) :: rest =>
      if equal n k then (n, f l) :: rest else (n, l) :: map_modify k f rest
  end.

(** [map::erase] by key. *)
Fixpoint map_erase (k : N) (m : adjacency_list) : adjacency_list :=
  match m with
  | [] => []
  | (n, l) :: rest => if equal n k then rest else (n, l) :: map_erase k rest
  end.

(** A loop [for (auto& [src, edges_list] : adjacency_list_)] that rewrites
    every vector. *)
Definition map_all (f : edge_list -> edge_list) (m : adjacency_list) : adjacency_list :=
  map (fun entry => (fst entry, f (snd entry))) m.

(** ** The ordering policy and the duplicate predicates *)

(** The comparator handed to [std::sort] in [sort_edges]. *)
Definition sort_compare (a b : edge) : bool :=
  if negb (equal (snd (get_nodes a)) (snd (get_nodes b))) then
    less (snd (get_nodes a)) (snd (get_nodes b))
  else if negb (Bool.eqb (is_weighted a) (is_weighted b)) then
    negb (is_weighted a) && is_weighted b
  else if is_weighted a then
    match get_weight a, get_weight b with
    | Some x, Some y => less x y
    | _, _ => false
    end
  else false.

(** [std::sort] with that comparator.  Elements the comparator does not
    order have the same destination and weight, and all edges of one vector
    have the same source, so every sorting algorithm yields the same
    vector; insertion sort stands for it. *)
Fixpoint sort_insert (x : edge) (l : edge_list) : edge_list :=
  match l with
  | [] => [x]
  | y :: rest => if sort_compare y x then y :: sort_insert x rest else x :: l
  end.

Definition sort_edges (edges : edge_list) : edge_list :=
  fold_right sort_insert [] edges.

(** The predicate of [find_edge]. *)
Definition find_edge_pred (dst : N) (weight : option E) (e : edge) : bool :=
  equal (snd (get_nodes e)) dst
  && ((is_weighted e && optional_equal (get_weight e) weight)
      || (negb (is_weighted e) && negb (match weight with Some _ => true | None => false end))).

Definition edge_exists (edges : edge_list) (dst : N) (weight : option E) : bool :=
  existsb (find_edge_pred dst weight) edges.

Definition create_edge (src dst : N) (weight : option E) : edge :=
  match weight with
  | Some w => weighted_edge src dst w
  | None => unweighted_edge src dst
  end.

(** The binary predicate handed to [std::unique] in [merge_replace_node]. *)
Definition unique_pred (a b : edge) : bool :=
  equal (snd (get_nodes a)) (snd (get_nodes b))
  && optional_equal (get_weight a) (get_weight b).

(** [std::unique] followed by [erase]: of every run of consecutive
    equivalent elements the first is kept. *)
Fixpoint unique_from (kept : edge) (l : edge_list) : edge_list :=
  match l with
  | [] => []
  | b :: rest => if unique_pred kept b then unique_from kept rest else b :: unique_from b rest
  end.

Definition unique_edges (l : edge_list) : edge_list :=
  match l with
  | [] => []
  | a :: rest => a :: unique_from a rest
  end.

(** [vector::erase] at a position. *)
Fixpoint vector_erase (k : nat) (l : edge_list) : edge_list :=
  match l, k with
  | [], _ => []
  | _ :: rest, 0 => rest
  | x :: rest, S k' => x :: vector_erase k' rest
  end.

(** ** The graph and its member functions *)

Definition graph : Type := adjacency_list.

(** Non-[const] member functions read and write [adjacency_list_]; an
    exception leaves the object as it is at the [throw]. *)
Definition M (A : Type) : Type := graph -> outcome A * graph.

Definition ret {A} (a : A) : M A := fun g => (Ok a, g).
Definition throw {A} (e : exception) : M A := fun g => (Throw e, g).
Definition undefined {A} : M A := fun g => (Undefined, g).
Definition bind {A B} (c : M A) (k : A -> M B) : M B :=
  fun g =>
    match c g with
    | (Ok a, g') => k a g'
    | (Throw e, g') => (Throw e, g')
    | (Undefined, g') => (Undefined, g')
    end.
Definition get : M graph := fun g => (Ok g, g).
Definition gets {A} (f : graph -> A) : M A := fun g => (Ok (f g), g).
Definition modify (f : graph -> graph) : M unit := fun g => (Ok tt, f g).
Definition lift {A} (o : outcome A) : M A := fun g => (o, g).

Notation "x <- c ;; k" := (bind c (fun x => k))
  (at level 61, c at next level, right associativity).
Notation "c ;; k" := (bind c (fun _ => k))
  (at level 61, right associativity).

Fixpoint for_each {A} (l : list A) (body : A -> M unit) : M unit :=
  match l with
  | [] => ret tt
  | x :: rest => body x ;; for_each rest body
  end.

(** *** Accessors *)

Definition is_node (value : N) (g : graph) : bool :=
  match map_find value g with Some _ => true | None => false end.

Definition empty (g : graph) : bool :=
  match g with [] => true | _ :: _ => false end.

Definition nodes (g : graph) : list N := map fst g.

(** The copies [edges] returns. *)
Definition copy_edge (e : edge) : edge :=
  if is_weighted e then
    match get_weight e with
    | Some w => weighted_edge (fst (get_nodes e)) (snd (get_nodes e)) w
    | None => e
    end
  else unweighted_edge (fst (get_nodes e)) (snd (get_nodes e)).

Definition edges (src dst : N) (g : graph) : outcome edge_list :=
  if negb (is_node src g) || negb (is_node dst g) then Throw NodeNotFound
  else Ok (map copy_edge (filter (fun e => equal (snd (get_nodes e)) dst) (map_get src g))).

Definition is_connected (src dst : N) (g : graph) : outcome bool :=
  if negb (is_node src g) || negb (is_node dst g) then Throw NodeNotFound
  else match edges src dst g with
       | Ok edges_between => Ok (negb (match edges_between with [] => true | _ => false end))
       | Throw e => Throw e
       | Undefined => Undefined
       end.

Definition connections (src : N) (g : graph) : outcome (list N) :=
  if negb (is_node src g) then Throw NodeNotFound
  else match map_find src g with
       | None => Ok []
       | Some edges_from_src => Ok (map (fun e => snd (get_nodes e)) edges_from_src)
       end.

(** *** Modifiers addressed by value *)

Definition insert_node (value : N) : M bool :=
  g <- get ;;
  if is_node value g then ret false
  else modify (map_emplace value []) ;; ret true.

Definition insert_edge (src dst : N) (weight : option E) : M bool :=
  g <- get ;;
  if negb (is_node src g) || negb (is_node dst g) then throw NodeNotFound
  else
    modify (map_touch src) ;;
    edges_from_src <- gets (map_get src) ;;
    if edge_exists edges_from_src dst weight then ret false
    else
      modify (map_modify src (fun l => l ++ [create_edge src dst weight])) ;;
      modify (map_modify src sort_edges) ;;
      ret true.

(** The lambda [replace_outgoing_edges].  It is called with [new_data]
    freshly inserted and different from [old_data], so the vector it walks
    is not the vector it appends to. *)
Definition replace_outgoing_edges (old_data new_data : N) : M unit :=
  g <- get ;;
  if 0 <? map_count old_data g then
    modify (map_touch old_data) ;;
    old_edges <- gets (map_get old_data) ;;
    for_each old_edges (fun e =>
      modify (map_touch new_data) ;;
      modify (map_modify new_data
                (fun l => l ++ [create_edge new_data (snd (get_nodes e)) (get_weight e)])))
  else ret tt.

(** The body of the lambda [replace_incoming_edges] for one edge. *)
Definition rename_endpoints (old_data new_data : N) (e : edge) : edge :=
  let e1 := if equal (fst (get_nodes e)) old_data then set_from new_data e else e in
  if equal (snd (get_nodes e1)) old_data then set_to new_data e1 else e1.

Definition replace_incoming_edges (old_data new_data : N) : M unit :=
  modify (map_all (map (rename_endpoints old_data new_data))).

Definition replace_node (old_data new_data : N) : M bool :=
  g <- get ;;
  if negb (is_node old_data g) then throw NodeNotFound
  else if is_node new_data g then ret false
  else
    modify (map_touch new_data) ;;
    modify (map_modify new_data (fun _ => [])) ;;
    replace_outgoing_edges old_data new_data ;;
    replace_incoming_edges old_data new_data ;;
    modify (map_erase old_data) ;;
    modify (map_touch new_data) ;;
    modify (map_modify new_data sort_edges) ;;
    ret true.

(** The body of the second loop of [merge_replace_node] for one edge. *)
Definition retarget (old_data new_data : N) (e : edge) : edge :=
  if equal (snd (get_nodes e)) old_data then set_to new_data e else e.

(** [old_edges] and [new_edges] are references into the one map.  When
    [old_data == new_data] they are the same vector; the first loop then
    appends nothing (see [merge_append_alias]), so walking the vector as it
    was on entry is what the loop does in that case too. *)
Definition merge_replace_node (old_data new_data : N) : M unit :=
  g <- get ;;
  if negb (is_node old_data g) || negb (is_node new_data g) then throw NodeNotFound
  else
    modify (map_touch old_data) ;;
    modify (map_touch new_data) ;;
    old_edges <- gets (map_get old_data) ;;
    for_each old_edges (fun e =>
      new_edges <- gets (map_get new_data) ;;
      if negb (edge_exists new_edges (snd (get_nodes e)) (get_weight e)) then
        modify (map_modify new_data
                  (fun l => l ++ [create_edge new_data (snd (get_nodes e)) (get_weight e)]))
      else ret tt) ;;
    modify (map_all (map (retarget old_data new_data))) ;;
    modify (map_modify new_data sort_edges) ;;
    modify (map_modify new_data unique_edges) ;;
    modify (map_erase old_data).

Definition erase_node (value : N) : M bool :=
  g <- get ;;
  if negb (is_node value g) then ret false
  else
    modify (map_all (filter (fun e => negb (equal (snd (get_nodes e)) value)))) ;;
    modify (map_erase value) ;;
    ret true.

(** The predicate handed to [std::remove_if] in [erase_edge]. *)
Definition erase_edge_pred (dst : N) (weight : option E) (e : edge) : bool :=
  equal (snd (get_nodes e)) dst
  && ((is_weighted e && optional_equal (get_weight e) weight) || negb (is_weighted e)).

(** [remove_if] keeps the elements that fail the predicate, in order, and
    returns the end of the kept prefix: that is [end()] exactly when nothing
    was removed. *)
Definition erase_edge (src dst : N) (weight : option E) : M bool :=
  g <- get ;;
  if negb (is_node src g) || negb (is_node dst g) then throw NodeNotFound
  else
    edges_from_src <- gets (map_get src) ;;
    let kept := filter (fun e => negb (erase_edge_pred dst weight e)) edges_from_src in
    if length kept =? length edges_from_src then ret false
    else modify (map_modify src (fun _ => kept)) ;; ret true.

Definition clear : M unit := modify (fun _ => []).

(** ** The flattening iterator

    A map iterator is the position of an entry in the ascending key order,
    a vector iterator the position of an element; [edge_it_] is [None] while
    it holds the value-initialised (singular) vector iterator.  [node_end_]
    is the position past the last entry.  The functions below take the graph
    the iterator points into. *)

Record iterator : Type := {
  node_it_ : nat;
  node_end_ : nat;
  edge_it_ : option nat
}.

Record value_type : Type := {
  from : N;
  to : N;
  weight : option E
}.

Definition vector_it_equal (a b : option nat) : bool :=
  match a, b with
  | Some x, Some y => x =? y
  | None, None => true
  | _, _ => false
  end.

(** [iterator::operator==]. *)
Definition iterator_equal (a b : iterator) : bool :=
  (node_it_ a =? node_it_ b)
  && ((node_it_ a =? node_end_ a) || vector_it_equal (edge_it_ a) (edge_it_ b)).

(** The loop
    [while (node_it_ != node_end_ and edge_it_ == node_it_->second.end())]
    shared by the constructor and [operator++], run on the entries from
    [node_it_] on: these are exhausted exactly when [node_it_ == node_end_]. *)
Fixpoint skip_exhausted (node_it : nat) (edge_it : option nat) (entries : adjacency_list)
  : nat * option nat :=
  match entries with
  | [] => (node_it, edge_it)
  | (_, l) :: rest =>
      if vector_it_equal edge_it (Some (length l)) then
        skip_exhausted (S node_it)
          (match rest with [] => edge_it | _ :: _ => Some 0 end) rest
      else (node_it, edge_it)
  end.

(** The constructor [iterator(node_it, node_end)]. *)
Definition make_iterator (g : graph) (node_it : nat) : iterator :=
  if node_it =? length g then
    {| node_it_ := node_it; node_end_ := length g; edge_it_ := None |}
  else
    let (n, e) := skip_exhausted node_it (Some 0) (skipn node_it g) in
    {| node_it_ := n; node_end_ := length g; edge_it_ := e |}.

Definition begin (g : graph) : iterator := make_iterator g 0.
Definition end_ (g : graph) : iterator := make_iterator g (length g).

(** [iterator::operator*]: defined on an iterator that points at an edge. *)
Definition deref (g : graph) (it : iterator) : outcome value_type :=
  match nth_error g (node_it_ it), edge_it_ it with
  | Some (n, l), Some k =>
      match nth_error l k with
      | Some e => Ok {| from := n; to := snd (get_nodes e); weight := get_weight e |}
      | None => Undefined
      end
  | _, _ => Undefined
  end.

(** [iterator::operator++]: defined on an iterator that points at an edge. *)
Definition incr (g : graph) (it : iterator) : outcome iterator :=
  match nth_error g (node_it_ it), edge_it_ it with
  | Some (_, l), Some k =>
      if k <? length l then
        let (n, e) := skip_exhausted (node_it_ it) (Some (S k)) (skipn (node_it_ it) g) in
        Ok {| node_it_ := n; node_end_ := node_end_ it; edge_it_ := e |}
      else Undefined
  | _, _ => Undefined
  end.

(** [iterator::index]: reads [node_it_->second], so [node_it_] must point at
    an entry. *)
Definition index (g : graph) (it : iterator) : outcome nat :=
  match nth_error g (node_it_ it), edge_it_ it with
  | Some _, Some k => Ok k
  | _, _ => Undefined
  end.

(** *** [find] *)

(** [std::find_if]: the position of the first element satisfying [p]. *)
Fixpoint find_if (p : edge -> bool) (l : edge_list) : option nat :=
  match l with
  | [] => None
  | e :: rest => if p e then Some 0 else option_map S (find_if p rest)
  end.

(** [map::find], as a position. *)
Fixpoint map_find_it (k : N) (m : adjacency_list) : option nat :=
  match m with
  | [] => None
  | (n, _) :: rest => if equal n k then Some 0 else option_map S (map_find_it k rest)
  end.

Definition find (src dst : N) (w : option E) (g : graph) : iterator :=
  if negb (is_node src g) || negb (is_node dst g) then end_ g
  else
    match map_find_it src g with
    | None => end_ g
    | Some node_it =>
        let edges_list := map_get src g in
        match find_if (fun e => equal (snd (get_nodes e)) dst && optional_equal (get_weight e) w)
                      edges_list with
        | None => end_ g
        | Some edge_it =>
            {| node_it_ := node_it_ (make_iterator g node_it);
               node_end_ := node_end_ (make_iterator g node_it);
               edge_it_ := Some edge_it |}
        end
    end.

(** *** [erase_edge] by iterator *)

(** The loop [while (index > 0 and new_it != end()) { ++new_it; --index; }]. *)
Fixpoint advance (g : graph) (index : nat) (new_it : iterator) : outcome iterator :=
  match index with
  | 0 => Ok new_it
  | S index' =>
      if negb (iterator_equal new_it (end_ g)) then
        match incr g new_it with
        | Ok it' => advance g index' it'
        | Throw e => Throw e
        | Undefined => Undefined
        end
      else Ok new_it
  end.

(** [erase_edge(iterator i)].  The source reads [i.index()] after the
    erasure, through an iterator the erasure has invalidated.  The model
    follows the buffer, which [vector::erase] leaves where it is, and takes
    the read to give the position [i] had. *)
Definition erase_edge_at (i : iterator) : M iterator :=
  g <- get ;;
  if iterator_equal i (end_ g) then ret (end_ g)
  else
    match nth_error g (node_it_ i), edge_it_ i with
    | Some (n, l), Some k =>
        if k <? length l then
          modify (map_modify n (vector_erase k)) ;;
          let next := k in
          g' <- get ;;
          index <- lift (index g' i) ;;
          if next =? length (map_get n g') then ret (end_ g')
          else lift (advance g' index (begin g'))
        else undefined
    | _, _ => undefined
    end.

Definition edge_count (g : graph) : nat :=
  fold_right (fun entry acc => length (snd entry) + acc) 0 g.

(** The loop of [erase_edge(iterator i, iterator s)].  Every round erases
    one edge, so [fuel] rounds are enough once [fuel] exceeds the number of
    edges; [None] is a run cut short by the fuel. *)
Fixpoint erase_range_loop (fuel : nat) (i s : iterator) (g : graph)
  : option (outcome unit * graph) :=
  match fuel with
  | 0 => None
  | S fuel' =>
      if negb (iterator_equal i (end_ g)) && negb (iterator_equal i s) then
        match erase_edge_at i g with
        | (Ok i1, g1) =>
            match incr g1 i1 with
            | Ok i2 => erase_range_loop fuel' i2 s g1
            | Throw e => Some (Throw e, g1)
            | Undefined => Some (Undefined, g1)
            end
        | (Throw e, g1) => Some (Throw e, g1)
        | (Undefined, g1) => Some (Undefined, g1)
        end
      else Some (Ok tt, g)
  end.

Definition erase_edge_range (i s : iterator) : M iterator :=
  g <- get ;;
  if iterator_equal i s && iterator_equal i (end_ g) then ret s
  else
    i_index <- lift (index g i) ;;
    s_index <- lift (index g s) ;;
    if s_index <? i_index then throw InvalidRange
    else
      (fun g0 =>
         match erase_range_loop (S (edge_count g0)) i s g0 with
         | Some (Ok _, g1) => (Ok s, g1)
         | Some (Throw e, g1) => (Throw e, g1)
         | Some (Undefined, g1) => (Undefined, g1)
         | None => (Undefined, g0)
         end).

(** *** [operator==] *)

Definition value_differs (a b : value_type) : bool :=
  negb (equal (from a) (from b)) || negb (equal (to a) (to b))
  || negb (optional_equal (weight a) (weight b)).

(** The loop of [operator==]; each round steps [it1] over one edge of the
    left graph. *)
Fixpoint equal_loop (fuel : nat) (g1 g2 : graph) (it1 it2 : iterator) : option (outcome bool) :=
  match fuel with
  | 0 => None
  | S fuel' =>
      if negb (iterator_equal it1 (end_ g1)) && negb (iterator_equal it2 (end_ g2)) then
        match deref g1 it1, deref g2 it2 with
        | Ok edge1, Ok edge2 =>
            if value_differs edge1 edge2 then Some (Ok false)
            else
              match incr g1 it1, incr g2 it2 with
              | Ok it1', Ok it2' => equal_loop fuel' g1 g2 it1' it2'
              | _, _ => Some Undefined
              end
        | _, _ => Some Undefined
        end
      else Some (Ok (iterator_equal it1 (end_ g1) && iterator_equal it2 (end_ g2)))
  end.

Definition graph_equal (g1 g2 : graph) : outcome bool :=
  if negb (length g1 =? length g2) then Ok false
  else
    match equal_loop (S (edge_count g1)) g1 g2 (begin g1) (begin g2) with
    | Some r => r
    | None => Undefined
    end.

(** ** Calls on a graph

    One constructor per member function that can modify the graph or raise;
    the four [const] queries that raise are run on the graph and leave it
    as it is. *)

Inductive call : Type :=
| InsertNode (value : N)
| InsertEdge (src dst : N) (w : option E)
| ReplaceNode (old_data new_data : N)
| MergeReplaceNode (old_data new_data : N)
| EraseNode (value : N)
| EraseEdge (src dst : N) (w : option E)
| EraseEdgeAt (i : iterator)
| EraseEdgeRange (i s : iterator)
| Clear
| IsConnected (src dst : N)
| Edges (src dst : N)
| Connections (src : N)
| Find (src dst : N) (w : option E).

Inductive result : Type :=
| RUnit
| RBool (b : bool)
| RIterator (it : iterator)
| REdges (l : edge_list)
| RNodes (l : list N).

Definition returning {A} (f : A -> result) (c : M A) : M result :=
  a <- c ;; ret (f a).

Definition exec (c : call) : M result :=
  match c with
  | InsertNode v => returning RBool (insert_node v)
  | InsertEdge src dst w => returning RBool (insert_edge src dst w)
  | ReplaceNode o n => returning RBool (replace_node o n)
  | MergeReplaceNode o n => returning (fun _ => RUnit) (merge_replace_node o n)
  | EraseNode v => returning RBool (erase_node v)
  | EraseEdge src dst w => returning RBool (erase_edge src dst w)
  | EraseEdgeAt i => returning RIterator (erase_edge_at i)
  | EraseEdgeRange i s => returning RIterator (erase_edge_range i s)
  | Clear => returning (fun _ => RUnit) clear
  | IsConnected src dst => returning RBool (g <- get ;; lift (is_connected src dst g))
  | Edges src dst => returning REdges (g <- get ;; lift (edges src dst g))
  | Connections src => returning RNodes (g <- get ;; lift (connections src g))
  | Find src dst w => returning RIterator (gets (find src dst w))
  end.

(** The state after a sequence of calls; a call that raises ends the
    sequence there. *)
Fixpoint run (cs : list call) (g : graph) : graph :=
  match cs with
  | [] => g
  | c :: rest =>
      match exec c g with
      | (Ok _, g') => run rest g'
      | (_, g') => g'
      end
  end.

(** Whether every call of a sequence returns. *)
Fixpoint all_return (cs : list call) (g : graph) : bool :=
  match cs with
  | [] => true
  | c :: rest =>
      match exec c g with
      | (Ok _, g') => all_return rest g'
      | (_, _) => false
      end
  end.

(** The graphs a program can hold: those built from the default-constructed
    graph by calls that return. *)
Inductive reachable : graph -> Prop :=
| reachable_empty : reachable []
| reachable_step c g r g' : reachable g -> exec c g = (Ok r, g') -> reachable g'.

(** ** The data model in the words of the specification *)

(** Canonical order of the outgoing edges of one node: destination
    ascending; for equal destinations unweighted before weighted; among
    weighted edges with equal destination, weight ascending. *)
Definition canonical_before (a b : edge) : bool :=
  match a, b with
  | unweighted_edge _ t1, unweighted_edge _ t2 => less t1 t2
  | unweighted_edge _ t1, weighted_edge _ t2 _ => less t1 t2 || equal t1 t2
  | weighted_edge _ t1 _, unweighted_edge _ t2 => less t1 t2
  | weighted_edge _ t1 w1, weighted_edge _ t2 w2 => less t1 t2 || (equal t1 t2 && less w1 w2)
  end.

(** A sequence is in canonical order when no element comes before one that
    canonically precedes it. *)
Fixpoint is_canonical (l : edge_list) : bool :=
  match l with
  | [] => true
  | a :: rest => forallb (fun b => negb (canonical_before b a)) rest && is_canonical rest
  end.

(** Same (destination, weight-signature), the weight-signature being the
    is-weighted flag with the weight value, if any. *)
Definition same_signature (a b : edge) : bool :=
  match a, b with
  | unweighted_edge _ t1, unweighted_edge _ t2 => equal t1 t2
  | weighted_edge _ t1 w1, weighted_edge _ t2 w2 => equal t1 t2 && equal w1 w2
  | _, _ => false
  end.

(** The entries of a [std::map] are in strictly ascending key order. *)
Fixpoint map_ok (m : adjacency_list) : bool :=
  match m with
  | [] => true
  | (n, _) :: rest => forallb (fun entry => less n (fst entry)) rest && map_ok rest
  end.

(** *** [merge_replace_node] in the words of the specification

    Every outgoing edge of old is added to new's outgoing list unless an
    edge with the same (destination, weight-signature) already exists there.
    Every edge anywhere in the graph whose destination equals old is
    rewritten to new.  New's outgoing list is then re-sorted and
    deduplicated by (destination, weight-signature), keeping the first
    occurrence in canonical order.  old is removed. *)

Definition spec_add_outgoing (new_data : N) (outgoing_of_old outgoing_of_new : edge_list)
  : edge_list :=
  fold_left
    (fun acc e =>
       let added := create_edge new_data (snd (get_nodes e)) (get_weight e) in
       if existsb (same_signature added) acc then acc else acc ++ [added])
    outgoing_of_old outgoing_of_new.

Definition spec_redirect (old_data new_data : N) (e : edge) : edge :=
  match e with
  | weighted_edge f t w => weighted_edge f (if equal t old_data then new_data else t) w
  | unweighted_edge f t => unweighted_edge f (if equal t old_data then new_data else t)
  end.

Fixpoint insert_by (before : edge -> edge -> bool) (x : edge) (l : edge_list) : edge_list :=
  match l with
  | [] => [x]
  | y :: rest => if before y x then y :: insert_by before x rest else x :: l
  end.

Definition canonical_sort (l : edge_list) : edge_list :=
  fold_right (insert_by canonical_before) [] l.

Fixpoint dedup_first (seen l : edge_list) : edge_list :=
  match l with
  | [] => []
  | e :: rest =>
      if existsb (same_signature e) seen then dedup_first seen rest
      else e :: dedup_first (e :: seen) rest
  end.

Definition merge_replace_node_spec (old_data new_data : N) (g : graph) : graph :=
  let outgoing_of_old := map_get old_data g in
  filter (fun entry => negb (equal (fst entry) old_data))
    (map (fun entry =>
            (fst entry,
             if equal (fst entry) new_data then
               dedup_first []
                 (canonical_sort
                    (map (spec_redirect old_data new_data)
                       (spec_add_outgoing new_data outgoing_of_old (snd entry))))
             else map (spec_redirect old_data new_data) (snd entry)))
       g).

(** The key of an edge, what the comparator and the duplicate predicates
    look at, and the order of keys. *)

Definition key (e : edge) : N * option E := (snd (get_nodes e), get_weight e).

Definition key_less (a b : N * option E) : bool :=
  if negb (equal (fst a) (fst b)) then less (fst a) (fst b)
  else match snd a, snd b with
       | None, Some _ => true
       | Some x, Some y => less x y
       | _, _ => false
       end.

(** The place of an iterator in the flattened sequence: the edges of the
    entries before [node_it_], then the edges before [edge_it_]. *)
Definition flat_position (g : graph) (it : iterator) : nat :=
  edge_count (firstn (node_it_ it) g)
  + match nth_error g (node_it_ it), edge_it_ it with
    | Some _, Some k => k
    | _, _ => 0
    end.

(** The flattened sequence itself. *)
Definition flatten (g : graph) : list value_type :=
  flat_map (fun entry =>
              map (fun e => {| from := fst entry; to := snd (get_nodes e); weight := get_weight e |})
                  (snd entry)) g.

(** The edges from an iterator on, the measure of the loop of
    [operator==]: first for the entries from [node_it_] on, then for the
    graph. *)
Definition remaining_in (entries : adjacency_list) (edge_it : option nat) : nat :=
  match entries, edge_it with
  | (_, l) :: rest, Some k => (length l - k) + edge_count rest
  | _, _ => 0
  end.

Definition remaining (g : graph) (it : iterator) : nat :=
  remaining_in (skipn (node_it_ it) g) (edge_it_ it).

(** Predicates on computations used in the proofs: a computation that
    never raises, and one that keeps the map well formed. *)
Definition never_throws {A} (c : M A) : Prop :=
  forall g e g', c g <> (Throw e, g').

Definition keeps_map_ok {A} (c : M A) : Prop :=
  forall g r g', map_ok g = true -> c g = (r, g') -> map_ok g' = true.

End Graph.

Arguments edge : clear implicits.
Arguments edge_list : clear implicits.
Arguments adjacency_list : clear implicits.
Arguments graph : clear implicits.
Arguments value_type : clear implicits.
Arguments call : clear implicits.
Arguments result : clear implicits.
Arguments M : clear implicits.

Notation "x <- c ;; k" := (bind c (fun x => k))
  (at level 61, c at next level, right associativity).
Notation "c ;; k" := (bind c (fun _ => k))
  (at level 61, right associativity).

(** ** Further members and notions *)

Section GraphMore.

Context {N E : Type} {CN : Comparable N} {CE : Comparable E}.

(** The constructor [graph(InputIt first, InputIt last)], which the
    initializer-list constructor delegates to: [insert_node] on every value
    of the range, starting from the empty map. *)
Definition graph_from_range (values : list N) : graph N E :=
  snd (for_each values (fun value => insert_node value ;; ret tt) []).

(** The copy constructor: for every entry of [other] a vector of re-created
    edges is built and assigned with [adjacency_list_[node] = ...]. *)
Definition copy_graph (other : graph N E) : graph N E :=
  fold_left
    (fun g entry =>
       map_modify (fst entry) (fun _ => map copy_edge (snd entry)) (map_touch (fst entry) g))
    other [].

(** A strictly ascending sequence of node values. *)
Fixpoint ascending (l : list N) : bool :=
  match l with
  | [] => true
  | a :: rest => forallb (less a) rest && ascending rest
  end.

(** No two edges of the sequence have the same (destination,
    weight-signature). *)
Fixpoint distinct_signatures (l : edge_list N E) : bool :=
  match l with
  | [] => true
  | a :: rest => negb (existsb (same_signature a) rest) && distinct_signatures rest
  end.

(** A vector in canonical order and free of duplicates, and a graph all
    of whose vectors are. *)
Definition ordered (l : edge_list N E) : bool := is_canonical l && distinct_signatures l.

Definition well_ordered (g : graph N E) : bool :=
  forallb (fun entry => ordered (snd entry)) g.

(** Every edge is stored in the vector of its source. *)
Definition sources_ok (g : graph N E) : bool :=
  forallb (fun entry => forallb (fun e => equal (fst (get_nodes e)) (fst entry)) (snd entry)) g.

(** An iterator that points at an edge of the graph. *)
Definition points_at_edge (g : graph N E) (it : iterator) : bool :=
  match nth_error g (node_it_ it), edge_it_ it with
  | Some (_, l), Some k => k <? length l
  | _, _ => false
  end.

(** An iterator of the graph that is at [end()] or points at an edge: what
    [begin()], [end()], [find] and [operator++] produce. *)
Definition well_placed (g : graph N E) (it : iterator) : bool :=
  (node_end_ it =? length g) && ((node_it_ it =? length g) || points_at_edge g it).

(** The records of the edges of one entry from position [k] on, and the
    flattened sequence from an iterator on. *)
Definition records (n : N) (l : edge_list N E) : list (value_type N E) :=
  map (fun e => {| from := n; to := snd (get_nodes e); weight := get_weight e |}) l.

Definition rest_in (entries : adjacency_list N E) (edge_it : option nat) : list (value_type N E) :=
  match entries, edge_it with
  | (n, l) :: rest, Some k => records n (skipn k l) ++ flatten rest
  | _, _ => []
  end.

Definition rest_from (g : graph N E) (it : iterator) : list (value_type N E) :=
  rest_in (skipn (node_it_ it) g) (edge_it_ it).

(** Equality of two records as [operator==] tests it. *)
Definition value_equal (a b : value_type N E) : bool := negb (value_differs a b).

Fixpoint values_equal (l1 l2 : list (value_type N E)) : bool :=
  match l1, l2 with
  | [], [] => true
  | a :: r1, b :: r2 => value_equal a b && values_equal r1 r2
  | _, _ => false
  end.

(** The loop [for (auto it = g.begin(); it != g.end(); ++it)] collecting
    [*it]; [None] is a run cut short by the fuel. *)
Fixpoint iterate_loop (fuel : nat) (g : graph N E) (it : iterator)
  : option (outcome (list (value_type N E))) :=
  match fuel with
  | 0 => None
  | S fuel' =>
      if negb (iterator_equal it (end_ g)) then
        match deref g it, incr g it with
        | Ok v, Ok it' =>
            match iterate_loop fuel' g it' with
            | Some (Ok vs) => Some (Ok (v :: vs))
            | other => other
            end
        | _, _ => Some Undefined
        end
      else Some (Ok [])
  end.

Definition iterate (g : graph N E) : outcome (list (value_type N E)) :=
  match iterate_loop (S (edge_count g)) g (begin g) with
  | Some r => r
  | None => Undefined
  end.

(** The loop of [iterator::operator--], on the position [node_it] and the
    vector iterator: it steps back over the entries while the iterator is at
    [node_end_] or at the beginning of its vector, and yields the position
    [--edge_it_] is then applied to.  Stepping back from the first entry is
    undefined. *)
Fixpoint step_back (g : graph N E) (node_end node_it : nat) (edge_it : option nat)
  : outcome (nat * nat) :=
  if (node_it =? node_end) || vector_it_equal edge_it (Some 0) then
    match node_it with
    | 0 => Undefined
    | S node_it' =>
        match nth_error g node_it' with
        | Some (_, l) => step_back g node_end node_it' (Some (length l))
        | None => Undefined
        end
    end
  else
    match edge_it with
    | Some k => Ok (node_it, k)
    | None => Undefined
    end.

(** [iterator::operator--]. *)
Definition decr (g : graph N E) (it : iterator) : outcome iterator :=
  match step_back g (node_end_ it) (node_it_ it) (edge_it_ it) with
  | Ok (n, k) => Ok {| node_it_ := n; node_end_ := node_end_ it; edge_it_ := Some (pred k) |}
  | Throw e => Throw e
  | Undefined => Undefined
  end.

End GraphMore.

(** ** Graphs of the scenarios, over [graph<int, int>] *)

Module Scenario.

Open Scope Z_scope.

Definition build (cs : list (call Z Z)) : graph Z Z := run cs [].

(** Two graphs of two edgeless nodes each. *)
Definition isolated_12 : graph Z Z := build [InsertNode 1; InsertNode 2].
Definition isolated_13 : graph Z Z := build [InsertNode 1; InsertNode 3].

(** Node 1 with edges to 2 and to 3. *)
Definition fan (w2 w3 : Z) : graph Z Z :=
  build [InsertNode 1; InsertNode 2; InsertNode 3;
         InsertEdge 1 2 (Some w2); InsertEdge 1 3 (Some w3)].

(** One node with four weighted self-loops. *)
Definition loops : graph Z Z :=
  build [InsertNode 1; InsertEdge 1 1 (Some 1); InsertEdge 1 1 (Some 2);
         InsertEdge 1 1 (Some 3); InsertEdge 1 1 (Some 4)].

(** Two nodes, one unweighted edge each way. *)
Definition pair : graph Z Z :=
  build [InsertNode 1; InsertNode 2; InsertEdge 1 2 None; InsertEdge 2 1 None].

(** A self-loop on 1, and two weighted edges from 2 to 1. *)
Definition later_node : graph Z Z :=
  build [InsertNode 1; InsertNode 2; InsertEdge 1 1 None;
         InsertEdge 2 1 (Some 1); InsertEdge 2 1 (Some 2)].

(** Two nodes with two outgoing edges each. *)
Definition square : graph Z Z :=
  build [InsertNode 1; InsertNode 2; InsertEdge 1 1 None; InsertEdge 1 2 None;
         InsertEdge 2 1 None; InsertEdge 2 2 None].

(** An unweighted and a weighted edge from 1 to 2. *)
Definition mixed : graph Z Z :=
  build [InsertNode 1; InsertNode 2; InsertEdge 1 2 None; InsertEdge 1 2 (Some 5)].

(** Nodes A, B, C as 1, 2, 3 with edges (A,B,1), (A,C,2), (B,C,3). *)
Definition triangle : graph Z Z :=
  build [InsertNode 1; InsertNode 2; InsertNode 3;
         InsertEdge 1 2 (Some 1); InsertEdge 1 3 (Some 2); InsertEdge 2 3 (Some 3)].

(** The calls that leave node 1 with an edge to 3 after 3 has ceased to be
    a node. *)
Definition dangling_calls : list (call Z Z) :=
  [InsertNode 1; InsertNode 2; InsertNode 3;
   InsertEdge 1 2 (Some 5); InsertEdge 1 3 (Some 5); MergeReplaceNode 3 3].

Definition dangling : graph Z Z := build dangling_calls.

End Scenario.

(** * Properties *)

Unset Implicit Arguments.

Section Facts.

Context {N E : Type} {CN : Comparable N} {CE : Comparable E}.

Abbreviation edge := (edge N E).
Abbreviation edge_list := (edge_list N E).
Abbreviation graph := (graph N E).

(** ** Consequences of the comparison laws *)

Lemma equal_refl {A} {C : Comparable A} (x : A) : equal x x = true.
Proof. apply equal_spec. reflexivity. Qed.

Lemma equal_false {A} {C : Comparable A} (x y : A) : equal x y = false <-> x <> y.
Proof.
  split.
  - intros H Heq. apply equal_spec in Heq. congruence.
  - intros H. destruct (equal x y) eqn:Hxy; [|reflexivity].
    apply equal_spec in Hxy. contradiction.
Qed.

Lemma equal_sym {A} {C : Comparable A} (x y : A) : equal x y = equal y x.
Proof.
  destruct (equal x y) eqn:Hxy; symmetry.
  - apply equal_spec in Hxy. subst. apply equal_refl.
  - apply equal_false in Hxy. apply equal_false. congruence.
Qed.

Lemma less_asym {A} {C : Comparable A} (x y : A) : less x y = true -> less y x = false.
Proof.
  intros H. destruct (less y x) eqn:Hyx; [|reflexivity].
  rewrite <- (less_irrefl x). symmetry. eapply less_trans; eauto.
Qed.

Lemma less_not_equal {A} {C : Comparable A} (x y : A) : less x y = true -> equal x y = false.
Proof.
  intros H. apply equal_false. intros ->. rewrite less_irrefl in H. discriminate.
Qed.

(** Decide an [equal] test and replace equals by equals. *)
Ltac case_equal x y :=
  let H := fresh "Heq" in
  destruct (equal x y) eqn:H;
  [apply equal_spec in H; try subst | pose proof (proj1 (equal_false _ _) H)].

Lemma sort_compare_key (a b : edge) : sort_compare a b = key_less (key a) (key b).
Proof. destruct a, b; reflexivity. Qed.

Lemma canonical_before_key (a b : edge) : canonical_before a b = key_less (key a) (key b).
Proof.
  destruct a as [f1 t1 w1|f1 t1], b as [f2 t2 w2|f2 t2]; unfold key_less; simpl;
    case_equal t1 t2; simpl; rewrite ?less_irrefl, ?orb_false_r; try reflexivity.
Qed.

Lemma canonical_before_sort_compare (a b : edge) : canonical_before a b = sort_compare a b.
Proof. rewrite canonical_before_key, sort_compare_key. reflexivity. Qed.

Lemma optional_equal_spec (a b : option E) : optional_equal a b = true <-> a = b.
Proof.
  destruct a, b; simpl; try (split; congruence).
  rewrite equal_spec. split; congruence.
Qed.

Lemma unique_pred_key (a b : edge) : unique_pred a b = true <-> key a = key b.
Proof.
  unfold unique_pred, key. rewrite andb_true_iff, equal_spec, optional_equal_spec.
  split; [intros [-> ->]; reflexivity | intros H; inversion H; auto].
Qed.

Lemma same_signature_key (a b : edge) : same_signature a b = true <-> key a = key b.
Proof.
  destruct a, b; unfold key; simpl;
    rewrite ?andb_true_iff, ?equal_spec; split; intros H;
    try discriminate; try (inversion H; subst; auto; fail);
    try (destruct H as [-> ->]; reflexivity); try (subst; reflexivity).
Qed.

Lemma key_less_irrefl (a : N * option E) : key_less a a = false.
Proof.
  unfold key_less. rewrite equal_refl. simpl.
  destruct (snd a); [apply less_irrefl | reflexivity].
Qed.

Lemma key_less_trans (a b c : N * option E) :
  key_less a b = true -> key_less b c = true -> key_less a c = true.
Proof.
  destruct a as [ta wa], b as [tb wb], c as [tc wc]. unfold key_less. simpl.
  case_equal ta tb; case_equal tb tc; simpl.
  - destruct wa, wb, wc; try congruence. apply less_trans.
  - intros _ H2. exact H2.
  - intros H1 _. apply equal_false in H. rewrite H. simpl. exact H1.
  - intros H1 H2. pose proof (less_trans _ _ _ H1 H2) as H3.
    rewrite (less_not_equal _ _ H3). simpl. exact H3.
Qed.

Lemma key_less_total (a b : N * option E) :
  key_less a b = false -> key_less b a = false -> a = b.
Proof.
  destruct a as [ta wa], b as [tb wb]. unfold key_less. simpl.
  rewrite (equal_sym tb ta).
  case_equal ta tb; simpl.
  - destruct wa, wb; try congruence.
    intros H1 H2. rewrite (less_total _ _ H1 H2). reflexivity.
  - intros H1 H2. exfalso. apply H. apply less_total; assumption.
Qed.

Lemma key_less_asym (a b : N * option E) : key_less a b = true -> key_less b a = false.
Proof.
  intros H. destruct (key_less b a) eqn:Hba; [|reflexivity].
  rewrite <- (key_less_irrefl a). symmetry. eapply key_less_trans; eauto.
Qed.

(** Not-greater is transitive. *)
Lemma key_not_less_trans (a b c : N * option E) :
  key_less b a = false -> key_less c b = false -> key_less c a = false.
Proof.
  intros H1 H2. destruct (key_less c a) eqn:Hca; [|reflexivity].
  destruct (key_less a b) eqn:Hab.
  - rewrite (key_less_trans _ _ _ Hca Hab) in H2. discriminate.
  - rewrite (key_less_total _ _ Hab H1) in Hca. congruence.
Qed.

(** ** [sort_edges] establishes the canonical order *)

Lemma sort_edges_canonical_sort (l : edge_list) : sort_edges l = canonical_sort l.
Proof.
  unfold sort_edges, canonical_sort. induction l as [|x l IH]; simpl; [reflexivity|].
  rewrite IH. generalize (fold_right (insert_by canonical_before) [] l). intros l'.
  induction l' as [|y l' IH']; simpl; [reflexivity|].
  rewrite canonical_before_sort_compare, IH'. reflexivity.
Qed.

Lemma forallb_sort_insert (p : edge -> bool) (x : edge) (l : edge_list) :
  forallb p (sort_insert x l) = p x && forallb p l.
Proof.
  induction l as [|y l IH]; simpl; [reflexivity|].
  destruct (sort_compare y x); simpl; [|reflexivity].
  rewrite IH. destruct (p x), (p y); reflexivity.
Qed.

Lemma is_canonical_cons (a : edge) (l : edge_list) :
  is_canonical (a :: l) = true <->
  (forall b, In b l -> key_less (key b) (key a) = false) /\ is_canonical l = true.
Proof.
  simpl. rewrite andb_true_iff, forallb_forall.
  split; intros [H1 H2]; split; auto; intros b Hb; specialize (H1 b Hb).
  - rewrite canonical_before_key in H1. destruct (key_less (key b) (key a)); [discriminate|reflexivity].
  - rewrite canonical_before_key, H1. reflexivity.
Qed.

Lemma In_sort_insert (x y : edge) (l : edge_list) :
  In y (sort_insert x l) <-> y = x \/ In y l.
Proof.
  induction l as [|z l IH]; simpl.
  - intuition congruence.
  - destruct (sort_compare z x); simpl; rewrite ?IH; intuition congruence.
Qed.

Lemma sort_insert_canonical (x : edge) (l : edge_list) :
  is_canonical l = true -> is_canonical (sort_insert x l) = true.
Proof.
  induction l as [|y l IH]; intros Hl.
  - reflexivity.
  - simpl sort_insert. destruct (sort_compare y x) eqn:Hyx.
    + apply is_canonical_cons in Hl. destruct Hl as [Hy Hl].
      apply is_canonical_cons. split; [|auto].
      intros b Hb. apply In_sort_insert in Hb. destruct Hb as [-> | Hb]; [|auto].
      rewrite sort_compare_key in Hyx. apply key_less_asym. exact Hyx.
    + apply is_canonical_cons. split; [|exact Hl].
      rewrite sort_compare_key in Hyx.
      intros b [<- | Hb]; [exact Hyx|].
      apply is_canonical_cons in Hl. destruct Hl as [Hy _].
      eapply key_not_less_trans; [exact Hyx | apply Hy; exact Hb].
Qed.

Lemma sort_edges_canonical (l : edge_list) : is_canonical (sort_edges l) = true.
Proof.
  induction l as [|x l IH]; simpl; [reflexivity|].
  apply sort_insert_canonical. exact IH.
Qed.

(** ** On a canonical sequence [std::unique] removes every duplicate *)

Lemma existsb_same_signature_false (e : edge) (seen : edge_list) :
  (forall s, In s seen -> key s <> key e) -> existsb (same_signature e) seen = false.
Proof.
  intros H. induction seen as [|s seen IH]; simpl; [reflexivity|].
  rewrite IH by (intros; apply H; right; assumption).
  destruct (same_signature e s) eqn:Hs; [|reflexivity].
  apply same_signature_key in Hs. exfalso. eapply H; [left; reflexivity|]. congruence.
Qed.

Lemma existsb_same_signature_true (e s : edge) (seen : edge_list) :
  In s seen -> key s = key e -> existsb (same_signature e) seen = true.
Proof.
  intros Hin Hk. apply existsb_exists. exists s. split; [exact Hin|].
  apply same_signature_key. congruence.
Qed.

Lemma unique_from_dedup_first (l : edge_list) :
  forall (kept : edge) (seen : edge_list),
    is_canonical (kept :: l) = true ->
    In kept seen ->
    (forall s, In s seen -> key_less (key kept) (key s) = false) ->
    unique_from kept l = dedup_first seen l.
Proof.
  induction l as [|b l IH]; intros kept seen Hc Hin Hseen; [reflexivity|].
  apply is_canonical_cons in Hc. destruct Hc as [Hkept Hl].
  simpl. destruct (unique_pred kept b) eqn:Hp.
  - apply unique_pred_key in Hp.
    rewrite (existsb_same_signature_true b kept seen Hin Hp).
    apply IH; auto.
    apply is_canonical_cons. split; [|apply is_canonical_cons in Hl; tauto].
    intros c Hc. apply Hkept. right. exact Hc.
  - assert (Hlt : key_less (key kept) (key b) = true).
    { destruct (key_less (key kept) (key b)) eqn:Hkb; [reflexivity|].
      assert (Heq : key kept = key b)
        by (apply key_less_total; [exact Hkb | apply Hkept; left; reflexivity]).
      apply unique_pred_key in Heq. congruence. }
    rewrite existsb_same_signature_false.
    + f_equal. apply IH; [exact Hl | left; reflexivity |].
      intros s [<- | Hs]; [apply key_less_irrefl|].
      destruct (key_less (key b) (key s)) eqn:Hbs; [|reflexivity].
      specialize (Hseen s Hs).
      rewrite (key_less_trans _ _ _ Hlt Hbs) in Hseen. discriminate.
    + intros s Hs Heq. specialize (Hseen s Hs). rewrite Heq in Hseen. congruence.
Qed.

Lemma unique_edges_dedup_first (l : edge_list) :
  is_canonical l = true -> unique_edges l = dedup_first [] l.
Proof.
  destruct l as [|a l]; intros Hc; [reflexivity|].
  simpl. f_equal. apply unique_from_dedup_first; [exact Hc | left; reflexivity |].
  intros s [<- | []]. apply key_less_irrefl.
Qed.

(** ** The adjacency store *)

Lemma map_ok_cons (n : N) (l : edge_list) (rest : graph) :
  map_ok ((n, l) :: rest) = true <->
  (forall entry, In entry rest -> less n (fst entry) = true) /\ map_ok rest = true.
Proof. simpl. rewrite andb_true_iff, forallb_forall. reflexivity. Qed.

Lemma map_ok_map (F : N * edge_list -> N * edge_list) (m : graph) :
  (forall entry, fst (F entry) = fst entry) -> map_ok (map F m) = map_ok m.
Proof.
  intros HF. induction m as [|[n l] m IH]; [reflexivity|].
  simpl. destruct (F (n, l)) as [n' l'] eqn:HFn.
  assert (n' = n) by (specialize (HF (n, l)); rewrite HFn in HF; exact HF). subst n'.
  rewrite IH. f_equal. clear IH HFn.
  induction m as [|entry m IHm]; simpl; [reflexivity|].
  rewrite HF, IHm. reflexivity.
Qed.

Lemma map_fixes {A} (F : A -> A) (l : list A) :
  (forall x, In x l -> F x = x) -> map F l = l.
Proof.
  induction l as [|x l IH]; intros H; simpl; [reflexivity|].
  rewrite H by (left; reflexivity). f_equal. apply IH. intros; apply H; right; assumption.
Qed.

Lemma map_modify_map (k : N) (f : edge_list -> edge_list) (m : graph) :
  map_ok m = true ->
  map_modify k f m =
  map (fun entry => (fst entry, if equal (fst entry) k then f (snd entry) else snd entry)) m.
Proof.
  induction m as [|[n l] m IH]; intros Hok; [reflexivity|].
  apply map_ok_cons in Hok. destruct Hok as [Hn Hok]. simpl.
  case_equal n k.
  - f_equal. symmetry. apply map_fixes.
    intros [n' l'] Hin. simpl.
    specialize (Hn _ Hin). simpl in Hn. apply less_not_equal in Hn.
    rewrite equal_sym, Hn. reflexivity.
  - f_equal. apply IH. exact Hok.
Qed.

Lemma map_erase_filter (k : N) (m : graph) :
  map_ok m = true ->
  map_erase k m = filter (fun entry => negb (equal (fst entry) k)) m.
Proof.
  induction m as [|[n l] m IH]; intros Hok; [reflexivity|].
  apply map_ok_cons in Hok. destruct Hok as [Hn Hok]. simpl.
  case_equal n k; simpl.
  - symmetry. apply forallb_filter_id. apply forallb_forall.
    intros [n' l'] Hin. simpl.
    specialize (Hn _ Hin). simpl in Hn. apply less_not_equal in Hn.
    rewrite equal_sym, Hn. reflexivity.
  - f_equal. apply IH. exact Hok.
Qed.

Lemma map_find_In (k : N) (l : edge_list) (m : graph) :
  map_find k m = Some l -> In (k, l) m.
Proof.
  induction m as [|[n l'] m IH]; simpl; [discriminate|].
  case_equal n k.
  - intros [= ->]. left. reflexivity.
  - intros Hf. right. apply IH. exact Hf.
Qed.

Lemma map_touch_node (k : N) (m : graph) :
  map_ok m = true -> is_node k m = true -> map_touch k m = m.
Proof.
  unfold map_touch, is_node.
  induction m as [|[n l] m IH]; intros Hok Hnode; [discriminate|].
  apply map_ok_cons in Hok. destruct Hok as [Hn Hok]. simpl in *.
  case_equal n k.
  - rewrite less_irrefl. reflexivity.
  - destruct (map_find k m) as [lk|] eqn:Hf; [|discriminate].
    pose proof (Hn _ (map_find_In _ _ _ Hf)) as Hlt. simpl in Hlt.
    rewrite (less_asym _ _ Hlt), Hlt. f_equal. apply IH; [exact Hok | reflexivity].
Qed.

Lemma map_modify_get (k : N) (f f' : edge_list -> edge_list) (m : graph) :
  f (map_get k m) = f' (map_get k m) -> map_modify k f m = map_modify k f' m.
Proof.
  unfold map_get. induction m as [|[n l] m IH]; simpl; [reflexivity|].
  destruct (equal n k); intros Hf; [rewrite Hf; reflexivity|].
  f_equal. apply IH. exact Hf.
Qed.

Lemma map_modify_id (k : N) (m : graph) : map_modify k (fun l => l) m = m.
Proof.
  induction m as [|[n l] m IH]; simpl; [reflexivity|].
  destruct (equal n k); [reflexivity|]. f_equal. exact IH.
Qed.

Lemma map_modify_compose (k : N) (f1 f2 : edge_list -> edge_list) (m : graph) :
  map_modify k f2 (map_modify k f1 m) = map_modify k (fun l => f2 (f1 l)) m.
Proof.
  induction m as [|[n l] m IH]; simpl; [reflexivity|].
  destruct (equal n k) eqn:Hnk; simpl; rewrite Hnk; [reflexivity|].
  f_equal. exact IH.
Qed.

Lemma map_find_filter_key (k : N) (m : graph) :
  map_find k (filter (fun entry => negb (equal (fst entry) k)) m) = None.
Proof.
  induction m as [|[n l] m IH]; simpl; [reflexivity|].
  destruct (equal n k) eqn:Hnk; simpl; [exact IH|].
  rewrite Hnk. exact IH.
Qed.

(** ** Running the state monad *)

Lemma bind_get {A} (k : graph -> M N E A) (g : graph) : bind get k g = k g g.
Proof. reflexivity. Qed.

Lemma bind_gets {A B} (f : graph -> A) (k : A -> M N E B) (g : graph) :
  bind (gets f) k g = k (f g) g.
Proof. reflexivity. Qed.

Lemma bind_modify {A} (f : graph -> graph) (k : unit -> M N E A) (g : graph) :
  bind (modify f) k g = k tt (f g).
Proof. reflexivity. Qed.

Lemma bind_ret {A B} (a : A) (k : A -> M N E B) (g : graph) : bind (ret a) k g = k a g.
Proof. reflexivity. Qed.

Lemma bind_ok {A B} (c : M N E A) (k : A -> M N E B) (g g' : graph) (a : A) :
  c g = (Ok a, g') -> bind c k g = k a g'.
Proof. intros H. unfold bind. rewrite H. reflexivity. Qed.

(** ** [merge_replace_node] and its specification *)

Lemma find_edge_pred_same_signature (src dst : N) (w : option E) (x : edge) :
  find_edge_pred dst w x = same_signature (create_edge src dst w) x.
Proof.
  destruct x as [f t wx|f t], w as [w0|]; unfold find_edge_pred; simpl;
    rewrite (equal_sym t dst), ?(equal_sym wx w0), ?orb_false_r, ?andb_true_r, ?andb_false_r;
    reflexivity.
Qed.

Lemma edge_exists_same_signature (src dst : N) (w : option E) (l : edge_list) :
  edge_exists l dst w = existsb (same_signature (create_edge src dst w)) l.
Proof.
  unfold edge_exists. induction l as [|x l IH]; simpl; [reflexivity|].
  rewrite IH, (find_edge_pred_same_signature src). reflexivity.
Qed.

Lemma retarget_spec_redirect (old_data new_data : N) (e : edge) :
  retarget old_data new_data e = spec_redirect old_data new_data e.
Proof. destruct e as [f t w|f t]; unfold retarget; simpl; destruct (equal t old_data); reflexivity. Qed.

(** The first loop of [merge_replace_node], as one write to new's vector. *)
Lemma merge_append_loop (new_data : N) (old_edges : edge_list) :
  forall g : graph,
    for_each old_edges (fun e =>
      new_edges <- gets (map_get new_data) ;;
      if negb (edge_exists new_edges (snd (get_nodes e)) (get_weight e)) then
        modify (map_modify new_data
                  (fun l => l ++ [create_edge new_data (snd (get_nodes e)) (get_weight e)]))
      else ret tt) g
    = (Ok tt, map_modify new_data (spec_add_outgoing new_data old_edges) g).
Proof.
  induction old_edges as [|e old_edges IH]; intros g.
  - simpl. unfold ret. rewrite map_modify_id. reflexivity.
  - simpl for_each. unfold bind at 1. unfold bind at 1. unfold gets at 1.
    rewrite (edge_exists_same_signature new_data).
    set (added := create_edge new_data (snd (get_nodes e)) (get_weight e)).
    set (step := fun l : edge_list => if existsb (same_signature added) l then l else l ++ [added]).
    assert (Hstep : forall b g',
      (if negb b then modify (map_modify new_data (fun l => l ++ [added])) else ret tt) g'
      = (Ok tt, if b then g' else map_modify new_data (fun l => l ++ [added]) g')).
    { intros [] g'; reflexivity. }
    rewrite Hstep, IH.
    f_equal.
    transitivity (map_modify new_data (spec_add_outgoing new_data old_edges)
                    (map_modify new_data step g)).
    + f_equal. destruct (existsb (same_signature added) (map_get new_data g)) eqn:Hex.
      * rewrite <- (map_modify_id new_data g) at 1. apply map_modify_get.
        unfold step. rewrite Hex. reflexivity.
      * apply map_modify_get. unfold step. rewrite Hex. reflexivity.
    + rewrite map_modify_compose. reflexivity.
Qed.

(** When [old_data == new_data] the first loop appends nothing: every edge
    of the vector exists in the vector. *)
Lemma merge_append_alias (new_data : N) (l : edge_list) :
  (forall e, In e l -> fst (get_nodes e) = new_data) ->
  spec_add_outgoing new_data l l = l.
Proof.
  intros Hsrc. unfold spec_add_outgoing.
  assert (H : forall olds acc, (forall e, In e olds -> In e acc) ->
            (forall e, In e olds -> fst (get_nodes e) = new_data) ->
            fold_left (fun acc e =>
              let added := create_edge new_data (snd (get_nodes e)) (get_weight e) in
              if existsb (same_signature added) acc then acc else acc ++ [added]) olds acc = acc).
  { induction olds as [|e olds IH]; intros acc Hsub Hs; [reflexivity|].
    simpl. rewrite (existsb_same_signature_true _ e).
    - apply IH; intros; [apply Hsub | apply Hs]; right; assumption.
    - apply Hsub. left. reflexivity.
    - destruct e; reflexivity. }
  apply H; auto.
Qed.

Lemma merge_replace_node_refines (old_data new_data : N) (g : graph) :
  map_ok g = true ->
  is_node old_data g = true ->
  is_node new_data g = true ->
  merge_replace_node old_data new_data g = (Ok tt, merge_replace_node_spec old_data new_data g).
Proof.
  intros Hok Hold Hnew.
  unfold merge_replace_node.
  rewrite bind_get, Hold, Hnew. cbn [negb orb].
  rewrite bind_modify, (map_touch_node _ _ Hok Hold).
  rewrite bind_modify, (map_touch_node _ _ Hok Hnew).
  rewrite bind_gets.
  rewrite (bind_ok _ _ _ _ _ (merge_append_loop new_data (map_get old_data g) g)).
  rewrite !bind_modify. unfold modify. f_equal.
  unfold merge_replace_node_spec, map_all.
  set (A := spec_add_outgoing new_data (map_get old_data g)).
  set (F1 := fun entry : N * edge_list =>
               (fst entry, if equal (fst entry) new_data then A (snd entry) else snd entry)).
  set (F2 := fun entry : N * edge_list => (fst entry, map (retarget old_data new_data) (snd entry))).
  set (F3 := fun entry : N * edge_list =>
               (fst entry, if equal (fst entry) new_data then sort_edges (snd entry) else snd entry)).
  set (F4 := fun entry : N * edge_list =>
               (fst entry, if equal (fst entry) new_data then unique_edges (snd entry) else snd entry)).
  rewrite (map_modify_map new_data A g Hok). fold F1.
  fold F2.
  assert (Hok2 : map_ok (map F2 (map F1 g)) = true)
    by (rewrite !map_ok_map by reflexivity; exact Hok).
  rewrite (map_modify_map new_data sort_edges _ Hok2). fold F3.
  assert (Hok3 : map_ok (map F3 (map F2 (map F1 g))) = true)
    by (rewrite map_ok_map by reflexivity; exact Hok2).
  rewrite (map_modify_map new_data unique_edges _ Hok3). fold F4.
  assert (Hok4 : map_ok (map F4 (map F3 (map F2 (map F1 g)))) = true)
    by (rewrite map_ok_map by reflexivity; exact Hok3).
  rewrite (map_erase_filter old_data _ Hok4).
  f_equal. rewrite !map_map. apply map_ext. intros [n l].
  unfold F1, F2, F3, F4. simpl. f_equal.
  destruct (equal n new_data).
  - rewrite unique_edges_dedup_first by apply sort_edges_canonical.
    rewrite sort_edges_canonical_sort.
    do 2 f_equal. apply map_ext. apply retarget_spec_redirect.
  - apply map_ext. apply retarget_spec_redirect.
Qed.

(** ** Every member function keeps the map well formed *)

Lemma map_ok_keys (m m' : graph) : map fst m = map fst m' -> map_ok m = map_ok m'.
Proof.
  revert m'. induction m as [|[n l] m IH]; intros [|[n' l'] m'] H; try discriminate; [reflexivity|].
  simpl in H. injection H as -> Hm. simpl. rewrite (IH _ Hm). f_equal.
  clear IH. revert m' Hm. induction m as [|x m IHm]; intros [|x' m'] Hm; try discriminate;
    [reflexivity|].
  simpl in Hm. injection Hm as Hx Hm. simpl. rewrite Hx, (IHm _ Hm). reflexivity.
Qed.

Lemma map_modify_keys (k : N) (f : edge_list -> edge_list) (m : graph) :
  map fst (map_modify k f m) = map fst m.
Proof.
  induction m as [|[n l] m IH]; simpl; [reflexivity|].
  destruct (equal n k); simpl; [reflexivity|]. rewrite IH. reflexivity.
Qed.

Lemma map_modify_ok (k : N) (f : edge_list -> edge_list) (m : graph) :
  map_ok m = true -> map_ok (map_modify k f m) = true.
Proof. intros H. rewrite (map_ok_keys _ m); [exact H | apply map_modify_keys]. Qed.

Lemma map_all_ok (f : edge_list -> edge_list) (m : graph) :
  map_ok m = true -> map_ok (map_all f m) = true.
Proof. intros H. unfold map_all. rewrite map_ok_map; [exact H | reflexivity]. Qed.

Lemma In_map_emplace (k : N) (v : edge_list) (m : graph) (x : N * edge_list) :
  In x (map_emplace k v m) -> x = (k, v) \/ In x m.
Proof.
  induction m as [|[n l] m IH]; simpl.
  - intros [<- | []]. left. reflexivity.
  - destruct (less k n); [|destruct (less n k)]; simpl; intuition.
Qed.

Lemma map_emplace_ok (k : N) (v : edge_list) (m : graph) :
  map_ok m = true -> map_ok (map_emplace k v m) = true.
Proof.
  induction m as [|[n l] m IH]; intros Hok; [reflexivity|].
  pose proof Hok as Hok'. apply map_ok_cons in Hok'. destruct Hok' as [Hn Hm].
  simpl map_emplace. destruct (less k n) eqn:Hkn; [|destruct (less n k) eqn:Hnk].
  - apply map_ok_cons. split; [|exact Hok].
    intros entry [<- | Hin]; [exact Hkn|].
    eapply less_trans; [exact Hkn | apply Hn; exact Hin].
  - apply map_ok_cons. split; [|apply IH; exact Hm].
    intros entry Hin. apply In_map_emplace in Hin. destruct Hin as [-> | Hin]; [exact Hnk|].
    apply Hn. exact Hin.
  - exact Hok.
Qed.

Lemma In_map_erase (k : N) (m : graph) (x : N * edge_list) :
  In x (map_erase k m) -> In x m.
Proof.
  induction m as [|[n l] m IH]; simpl; [tauto|].
  destruct (equal n k); simpl; intuition.
Qed.

Lemma map_erase_ok (k : N) (m : graph) : map_ok m = true -> map_ok (map_erase k m) = true.
Proof.
  induction m as [|[n l] m IH]; intros Hok; [reflexivity|].
  apply map_ok_cons in Hok. destruct Hok as [Hn Hm]. simpl.
  destruct (equal n k); [exact Hm|].
  apply map_ok_cons. split; [|apply IH; exact Hm].
  intros entry Hin. apply Hn. eapply In_map_erase. exact Hin.
Qed.

Lemma keeps_ret {A} (a : A) : keeps_map_ok (N:=N) (E:=E) (ret a).
Proof. intros g r g' Hok [= _ <-]. exact Hok. Qed.

Lemma keeps_throw {A} (e : exception) : keeps_map_ok (N:=N) (E:=E) (A:=A) (throw e).
Proof. intros g r g' Hok [= _ <-]. exact Hok. Qed.

Lemma keeps_undefined {A} : keeps_map_ok (N:=N) (E:=E) (A:=A) undefined.
Proof. intros g r g' Hok [= _ <-]. exact Hok. Qed.

Lemma keeps_lift {A} (o : outcome A) : keeps_map_ok (N:=N) (E:=E) (lift o).
Proof. intros g r g' Hok [= _ <-]. exact Hok. Qed.

Lemma keeps_gets {A} (f : graph -> A) : keeps_map_ok (gets f).
Proof. intros g r g' Hok [= _ <-]. exact Hok. Qed.

Lemma keeps_modify (f : graph -> graph) :
  (forall g, map_ok g = true -> map_ok (f g) = true) -> keeps_map_ok (modify f).
Proof. intros Hf g r g' Hok [= _ <-]. apply Hf. exact Hok. Qed.

Lemma keeps_bind {A B} (c : M N E A) (k : A -> M N E B) :
  keeps_map_ok c -> (forall a, keeps_map_ok (k a)) -> keeps_map_ok (bind c k).
Proof.
  intros Hc Hk g r g' Hok. unfold bind.
  destruct (c g) as [[a|e|] g1] eqn:Hcg; pose proof (Hc _ _ _ Hok Hcg) as Hok1.
  - apply Hk. exact Hok1.
  - intros [= _ <-]. exact Hok1.
  - intros [= _ <-]. exact Hok1.
Qed.

Lemma keeps_bind_get {A} (k : graph -> M N E A) :
  (forall g, keeps_map_ok (k g)) -> keeps_map_ok (bind get k).
Proof. intros Hk g r g' Hok. rewrite bind_get. apply Hk. exact Hok. Qed.

Lemma keeps_for_each {A} (l : list A) (body : A -> M N E unit) :
  (forall x, keeps_map_ok (body x)) -> keeps_map_ok (for_each l body).
Proof.
  intros Hb. induction l as [|x l IH]; simpl.
  - apply keeps_ret.
  - apply keeps_bind; [apply Hb | intros _; exact IH].
Qed.

(** Peel the monadic structure of a member function down to its writes. *)
Ltac keeps_step :=
  lazymatch goal with
  | |- keeps_map_ok (ret _) => apply keeps_ret
  | |- keeps_map_ok (throw _) => apply keeps_throw
  | |- keeps_map_ok undefined => apply keeps_undefined
  | |- keeps_map_ok (lift _) => apply keeps_lift
  | |- keeps_map_ok (gets _) => apply keeps_gets
  | |- keeps_map_ok (bind get _) => apply keeps_bind_get; intros ?
  | |- keeps_map_ok (bind _ _) => apply keeps_bind; [|intros ?]
  | |- keeps_map_ok (for_each _ _) => apply keeps_for_each; intros ?
  | |- keeps_map_ok (modify _) => apply keeps_modify; intros ? ?
  | |- keeps_map_ok (if ?b then _ else _) => destruct b
  | |- keeps_map_ok (match ?x with _ => _ end) => destruct x
  | |- keeps_map_ok (let _ := _ in _) => cbv zeta
  end.

Ltac keeps :=
  repeat keeps_step;
  try first
    [ apply map_emplace_ok; assumption
    | apply map_modify_ok; assumption
    | apply map_all_ok; assumption
    | apply map_erase_ok; assumption
    | reflexivity ].

Lemma insert_node_ok (v : N) : keeps_map_ok (insert_node (E:=E) v).
Proof. unfold insert_node. keeps. Qed.

Lemma insert_edge_ok (src dst : N) (w : option E) : keeps_map_ok (insert_edge src dst w).
Proof. unfold insert_edge, map_touch. keeps. Qed.

Lemma replace_node_ok (o n : N) : keeps_map_ok (replace_node (E:=E) o n).
Proof.
  unfold replace_node, replace_outgoing_edges, replace_incoming_edges, map_touch. keeps.
Qed.

Lemma merge_replace_node_ok (o n : N) : keeps_map_ok (merge_replace_node (E:=E) o n).
Proof. unfold merge_replace_node, map_touch. keeps. Qed.

Lemma erase_node_ok (v : N) : keeps_map_ok (erase_node (E:=E) v).
Proof. unfold erase_node. keeps. Qed.

Lemma erase_edge_ok (src dst : N) (w : option E) : keeps_map_ok (erase_edge src dst w).
Proof. unfold erase_edge. keeps. Qed.

Lemma erase_edge_at_ok (i : iterator) : keeps_map_ok (erase_edge_at (N:=N) (E:=E) i).
Proof. unfold erase_edge_at. keeps. Qed.

Lemma erase_range_loop_ok (fuel : nat) :
  forall (i s : iterator) (g : graph) r g',
    map_ok g = true -> erase_range_loop fuel i s g = Some (r, g') -> map_ok g' = true.
Proof.
  induction fuel as [|fuel IH]; intros i s g r g' Hok; simpl; [discriminate|].
  destruct (negb (iterator_equal i (end_ g)) && negb (iterator_equal i s)).
  - destruct (erase_edge_at i g) as [[i1|e|] g1] eqn:He;
      pose proof (erase_edge_at_ok i _ _ _ Hok He) as Hok1.
    + destruct (incr g1 i1) as [i2|e|].
      * apply IH. exact Hok1.
      * intros [= _ <-]. exact Hok1.
      * intros [= _ <-]. exact Hok1.
    + intros [= _ <-]. exact Hok1.
    + intros [= _ <-]. exact Hok1.
  - intros [= _ <-]. exact Hok.
Qed.

Lemma erase_edge_range_ok (i s : iterator) : keeps_map_ok (erase_edge_range (N:=N) (E:=E) i s).
Proof.
  unfold erase_edge_range. keeps.
  intros g0 r g' Hok.
  destruct (erase_range_loop (S (edge_count g0)) i s g0) as [[[u|e|] g1]|] eqn:Hl;
    intros [= _ <-]; try exact Hok; eapply erase_range_loop_ok; eauto.
Qed.

Lemma exec_ok (c : call N E) : keeps_map_ok (exec c).
Proof.
  destruct c; unfold exec, returning, clear; keeps;
    first [ apply insert_node_ok | apply insert_edge_ok | apply replace_node_ok
          | apply merge_replace_node_ok | apply erase_node_ok | apply erase_edge_ok
          | apply erase_edge_at_ok | apply erase_edge_range_ok ].
Qed.

Lemma reachable_map_ok (g : graph) : reachable g -> map_ok g = true.
Proof.
  induction 1 as [|c g r g' _ IH Hexec]; [reflexivity|].
  eapply exec_ok; eauto.
Qed.

(** ** Where a member function can raise *)

Lemma never_ret {A} (a : A) : never_throws (N:=N) (E:=E) (ret a).
Proof. intros g e g'. discriminate. Qed.

Lemma never_undefined {A} : never_throws (N:=N) (E:=E) (A:=A) undefined.
Proof. intros g e g'. discriminate. Qed.

Lemma never_gets {A} (f : graph -> A) : never_throws (gets f).
Proof. intros g e g'. discriminate. Qed.

Lemma never_modify (f : graph -> graph) : never_throws (modify f).
Proof. intros g e g'. discriminate. Qed.

Lemma never_lift {A} (o : outcome A) :
  (forall e, o <> Throw e) -> never_throws (N:=N) (E:=E) (lift o).
Proof. intros Ho g e g' [= H _]. exact (Ho e H). Qed.

Lemma never_bind {A B} (c : M N E A) (k : A -> M N E B) :
  never_throws c -> (forall a, never_throws (k a)) -> never_throws (bind c k).
Proof.
  intros Hc Hk g e g'. unfold bind.
  destruct (c g) as [[a|e1|] g1] eqn:Hcg.
  - apply Hk.
  - exfalso. exact (Hc _ _ _ Hcg).
  - discriminate.
Qed.

Lemma never_bind_get {A} (k : graph -> M N E A) :
  (forall g, never_throws (k g)) -> never_throws (bind get k).
Proof. intros Hk g e g'. rewrite bind_get. apply Hk. Qed.

Lemma never_for_each {A} (l : list A) (body : A -> M N E unit) :
  (forall x, never_throws (body x)) -> never_throws (for_each l body).
Proof.
  intros Hb. induction l as [|x l IH]; simpl.
  - apply never_ret.
  - apply never_bind; [apply Hb | intros _; exact IH].
Qed.

Lemma index_no_throw (g : graph) (it : iterator) (e : exception) : index g it <> Throw e.
Proof. unfold index. destruct (nth_error g (node_it_ it)), (edge_it_ it); discriminate. Qed.

Lemma incr_no_throw (g : graph) (it : iterator) (e : exception) : incr g it <> Throw e.
Proof.
  unfold incr. destruct (nth_error g (node_it_ it)) as [[n l]|]; [|discriminate].
  destruct (edge_it_ it) as [k|]; [|discriminate].
  destruct (k <? length l); [|discriminate].
  destruct (skip_exhausted _ _ _). discriminate.
Qed.

Lemma advance_no_throw (g : graph) (index : nat) :
  forall (it : iterator) (e : exception), advance g index it <> Throw e.
Proof.
  induction index as [|index IH]; intros it e; simpl; [discriminate|].
  destruct (negb (iterator_equal it (end_ g))); [|discriminate].
  destruct (incr g it) as [it'|e'|] eqn:Hi; [apply IH | | discriminate].
  exfalso. exact (incr_no_throw _ _ _ Hi).
Qed.

Ltac never_step :=
  lazymatch goal with
  | |- never_throws (ret _) => apply never_ret
  | |- never_throws undefined => apply never_undefined
  | |- never_throws (gets _) => apply never_gets
  | |- never_throws (modify _) => apply never_modify
  | |- never_throws (lift _) => apply never_lift; intros ?
  | |- never_throws (bind get _) => apply never_bind_get; intros ?
  | |- never_throws (bind _ _) => apply never_bind; [|intros ?]
  | |- never_throws (for_each _ _) => apply never_for_each; intros ?
  | |- never_throws (if ?b then _ else _) => destruct b
  | |- never_throws (match ?x with _ => _ end) => destruct x
  | |- never_throws (let _ := _ in _) => cbv zeta
  end.

Ltac never :=
  repeat never_step;
  try first [ apply index_no_throw | apply advance_no_throw | apply incr_no_throw ].

Lemma insert_node_never_throws (v : N) : never_throws (insert_node (E:=E) v).
Proof. unfold insert_node. never. Qed.

Lemma erase_node_never_throws (v : N) : never_throws (erase_node (E:=E) v).
Proof. unfold erase_node. never. Qed.

Lemma erase_edge_at_never_throws (i : iterator) : never_throws (erase_edge_at (N:=N) (E:=E) i).
Proof. unfold erase_edge_at. never. Qed.

Lemma erase_range_loop_no_throw (fuel : nat) :
  forall (i s : iterator) (g : graph) e g', erase_range_loop fuel i s g <> Some (Throw e, g').
Proof.
  induction fuel as [|fuel IH]; intros i s g e g'; simpl; [discriminate|].
  destruct (negb (iterator_equal i (end_ g)) && negb (iterator_equal i s)); [|discriminate].
  destruct (erase_edge_at i g) as [[i1|e1|] g1] eqn:He.
  - destruct (incr g1 i1) as [i2|e2|] eqn:Hi; [apply IH | | discriminate].
    exfalso. exact (incr_no_throw _ _ _ Hi).
  - exfalso. exact (erase_edge_at_never_throws _ _ _ _ He).
  - discriminate.
Qed.

(** A member function that tests its arguments first and raises before it
    touches the graph. *)
Lemma guarded_throw {A} (guard : graph -> bool) (x : exception) (body : M N E A)
      (g g' : graph) (e : exception) :
  never_throws body ->
  (g0 <- get ;; if guard g0 then throw x else body) g = (Throw e, g') -> g' = g.
Proof.
  intros Hbody. rewrite bind_get. destruct (guard g).
  - intros [= _ <-]. reflexivity.
  - intros H. exfalso. exact (Hbody _ _ _ H).
Qed.

Lemma insert_edge_throw (src dst : N) (w : option E) (g g' : graph) (e : exception) :
  insert_edge src dst w g = (Throw e, g') -> g' = g.
Proof.
  unfold insert_edge.
  apply (guarded_throw (fun g0 => negb (is_node src g0) || negb (is_node dst g0))). never.
Qed.

Lemma replace_node_throw (o n : N) (g g' : graph) (e : exception) :
  replace_node (E:=E) o n g = (Throw e, g') -> g' = g.
Proof.
  unfold replace_node.
  apply (guarded_throw (fun g0 => negb (is_node o g0))).
  unfold replace_outgoing_edges, replace_incoming_edges. never.
Qed.

Lemma merge_replace_node_throw (o n : N) (g g' : graph) (e : exception) :
  merge_replace_node (E:=E) o n g = (Throw e, g') -> g' = g.
Proof.
  unfold merge_replace_node.
  apply (guarded_throw (fun g0 => negb (is_node o g0) || negb (is_node n g0))). never.
Qed.

Lemma erase_edge_throw (src dst : N) (w : option E) (g g' : graph) (e : exception) :
  erase_edge src dst w g = (Throw e, g') -> g' = g.
Proof.
  unfold erase_edge.
  apply (guarded_throw (fun g0 => negb (is_node src g0) || negb (is_node dst g0))). never.
Qed.

Lemma erase_edge_range_throw (i s : iterator) (g g' : graph) (e : exception) :
  erase_edge_range (N:=N) (E:=E) i s g = (Throw e, g') -> g' = g.
Proof.
  unfold erase_edge_range. rewrite bind_get.
  destruct (iterator_equal i s && iterator_equal i (end_ g)); [discriminate|].
  unfold bind, lift.
  destruct (index g i) as [ii|e1|]; [|intros [= _ <-]; reflexivity | discriminate].
  destruct (index g s) as [si|e1|]; [|intros [= _ <-]; reflexivity | discriminate].
  destruct (si <? ii); [intros [= _ <-]; reflexivity|].
  destruct (erase_range_loop (S (edge_count g)) i s g) as [[[u|e1|] g1]|] eqn:Hl;
    try discriminate.
  exfalso. exact (erase_range_loop_no_throw _ _ _ _ _ _ Hl).
Qed.

Lemma returning_throw {A} (f : A -> result N E) (c : M N E A) (g g' : graph) (e : exception) :
  returning f c g = (Throw e, g') -> c g = (Throw e, g').
Proof.
  unfold returning, bind. destruct (c g) as [[a|e1|] g1]; [discriminate | | discriminate].
  intros [= -> ->]. reflexivity.
Qed.

Lemma query_state {A} (q : graph -> outcome A) (g g' : graph) (r : outcome A) :
  (g0 <- get ;; lift (q g0)) g = (r, g') -> g' = g.
Proof. rewrite bind_get. intros [= _ <-]. reflexivity. Qed.

(** ** The loop of the two-iterator [erase_edge] ends within its fuel *)

Lemma nth_error_map_find (g : graph) :
  forall (p : nat) (n : N) (l : edge_list),
    map_ok g = true -> nth_error g p = Some (n, l) -> map_find n g = Some l.
Proof.
  induction g as [|[n0 l0] g IH]; intros p n l Hok Hnth; [destruct p; discriminate|].
  apply map_ok_cons in Hok. destruct Hok as [Hn0 Hok].
  destruct p as [|p]; simpl in *.
  - injection Hnth as -> ->. rewrite equal_refl. reflexivity.
  - pose proof (Hn0 _ (nth_error_In _ _ Hnth)) as Hlt. simpl in Hlt.
    rewrite (less_not_equal _ _ Hlt). eapply IH; eauto.
Qed.

Lemma edge_count_map_modify (n : N) (f : edge_list -> edge_list) (g : graph) (l : edge_list) :
  map_find n g = Some l ->
  edge_count (map_modify n f g) + length l = edge_count g + length (f l).
Proof.
  induction g as [|[n0 l0] g IH]; simpl; [discriminate|].
  destruct (equal n0 n).
  - intros [= ->]. simpl. lia.
  - intros Hf. simpl. specialize (IH Hf). lia.
Qed.

Lemma length_vector_erase (l : edge_list) :
  forall k, k < length l -> S (length (vector_erase k l)) = length l.
Proof.
  induction l as [|x l IH]; intros k Hk; simpl in *; [lia|].
  destruct k as [|k]; simpl; [reflexivity|]. rewrite IH by lia. reflexivity.
Qed.

(** A call of [erase_edge(iterator)] that returns either found [i] at
    [end()] or erased the element [i] pointed at. *)
Lemma erase_edge_at_state (i i1 : iterator) (g g1 : graph) :
  erase_edge_at i g = (Ok i1, g1) ->
  iterator_equal i (end_ g) = false ->
  exists n l k,
    nth_error g (node_it_ i) = Some (n, l) /\ edge_it_ i = Some k /\ k < length l
    /\ g1 = map_modify n (vector_erase k) g.
Proof.
  unfold erase_edge_at. rewrite bind_get. intros H Hend. rewrite Hend in H.
  destruct (nth_error g (node_it_ i)) as [[n l]|] eqn:Hn; [|discriminate].
  destruct (edge_it_ i) as [k|] eqn:Hk; [|discriminate].
  destruct (k <? length l) eqn:Hlt; [|discriminate].
  exists n, l, k. apply Nat.ltb_lt in Hlt. repeat split; auto.
  rewrite bind_modify, bind_get in H. unfold bind, lift in H.
  destruct (index (map_modify n (vector_erase k) g) i) as [ix|e|]; try discriminate.
  destruct (k =? length (map_get n (map_modify n (vector_erase k) g))).
  - injection H as _ <-. reflexivity.
  - destruct (advance _ ix _); injection H as _ <-; reflexivity.
Qed.

Lemma erase_edge_at_count (i i1 : iterator) (g g1 : graph) :
  map_ok g = true ->
  erase_edge_at i g = (Ok i1, g1) ->
  iterator_equal i (end_ g) = false ->
  S (edge_count g1) = edge_count g.
Proof.
  intros Hok H Hend.
  destruct (erase_edge_at_state _ _ _ _ H Hend) as (n & l & k & Hn & _ & Hk & ->).
  pose proof (edge_count_map_modify n (vector_erase k) g l (nth_error_map_find _ _ _ _ Hok Hn)).
  pose proof (length_vector_erase l k Hk). lia.
Qed.

Lemma erase_range_loop_enough (fuel : nat) :
  forall (i s : iterator) (g : graph),
    map_ok g = true -> edge_count g < fuel -> erase_range_loop fuel i s g <> None.
Proof.
  induction fuel as [|fuel IH]; intros i s g Hok Hfuel; [lia|].
  simpl. destruct (iterator_equal i (end_ g)) eqn:Hend; simpl; [discriminate|].
  destruct (negb (iterator_equal i s)); [|discriminate].
  destruct (erase_edge_at i g) as [[i1|e|] g1] eqn:He; try discriminate.
  destruct (incr g1 i1) as [i2|e|]; try discriminate.
  apply IH.
  - eapply erase_edge_at_ok; eauto.
  - pose proof (erase_edge_at_count _ _ _ _ Hok He Hend). lia.
Qed.

(** ** What [merge_replace_node_spec] leaves at each node *)

Lemma merge_replace_node_spec_find (old_data new_data n : N) (g : graph) :
  map_find n (merge_replace_node_spec old_data new_data g) =
  if equal n old_data then None
  else option_map
         (fun l =>
            if equal n new_data then
              dedup_first []
                (canonical_sort
                   (map (spec_redirect old_data new_data)
                      (spec_add_outgoing new_data (map_get old_data g) l)))
            else map (spec_redirect old_data new_data) l)
         (map_find n g).
Proof.
  unfold merge_replace_node_spec. generalize (map_get old_data g). intros olds.
  induction g as [|[k l] g IH]; simpl.
  - destruct (equal n old_data); reflexivity.
  - case_equal k old_data; simpl.
    + rewrite IH. case_equal n old_data; [reflexivity|].
      assert (Hk : equal old_data n = false) by (apply equal_false; congruence).
      rewrite Hk. reflexivity.
    + case_equal k n; simpl.
      * apply equal_false in H. rewrite H. reflexivity.
      * exact IH.
Qed.

Lemma merge_replace_node_spec_old (old_data new_data : N) (g : graph) :
  is_node old_data (merge_replace_node_spec old_data new_data g) = false.
Proof.
  unfold is_node. rewrite merge_replace_node_spec_find, equal_refl. reflexivity.
Qed.

(** ** The loop of [operator==] ends within its fuel *)

Lemma skip_exhausted_remaining (entries : graph) :
  forall (g : graph) (p : nat) (e : option nat),
    skipn p g = entries ->
    remaining_in (skipn (fst (skip_exhausted p e entries)) g) (snd (skip_exhausted p e entries))
    <= remaining_in entries e.
Proof.
  induction entries as [|[n l] rest IH]; intros g p e Hs; simpl.
  - rewrite Hs. simpl. lia.
  - destruct (vector_it_equal e (Some (length l))) eqn:He.
    + assert (Hrest : skipn (S p) g = rest).
      { clear -Hs. revert g Hs. induction p as [|p IHp]; intros [|x g] Hs; simpl in *;
          try discriminate.
        - injection Hs as _ ->. reflexivity.
        - apply IHp. exact Hs. }
      etransitivity; [apply IH; exact Hrest|].
      destruct e as [k|]; [|discriminate]. simpl in He. apply Nat.eqb_eq in He. subst k.
      destruct rest as [|[n' l'] rest']; simpl; lia.
    + simpl. rewrite Hs. simpl. lia.
Qed.

Lemma incr_remaining (g : graph) (it it' : iterator) :
  incr g it = Ok it' -> remaining g it' < remaining g it.
Proof.
  unfold incr, remaining.
  destruct (nth_error g (node_it_ it)) as [[n l]|] eqn:Hn; [|discriminate].
  destruct (edge_it_ it) as [k|]; [|discriminate].
  destruct (k <? length l) eqn:Hk; [|discriminate]. apply Nat.ltb_lt in Hk.
  pose proof (skip_exhausted_remaining (skipn (node_it_ it) g) g (node_it_ it) (Some (S k))
                eq_refl) as Hle.
  destruct (skip_exhausted (node_it_ it) (Some (S k)) (skipn (node_it_ it) g)) as [p' e'].
  intros [= <-]. simpl in *.
  assert (Hs : exists rest, skipn (node_it_ it) g = (n, l) :: rest).
  { clear -Hn. revert g Hn. induction (node_it_ it) as [|p IHp]; intros [|x g] Hn; simpl in *;
      try discriminate.
    - injection Hn as ->. eexists. reflexivity.
    - apply IHp. exact Hn. }
  destruct Hs as [rest Hs]. rewrite Hs in *. simpl in *. lia.
Qed.

Lemma begin_remaining (g : graph) : remaining g (begin g) <= edge_count g.
Proof.
  unfold begin, make_iterator, remaining.
  destruct (0 =? length g) eqn:H0; simpl.
  - destruct g; simpl; [lia | discriminate].
  - pose proof (skip_exhausted_remaining g g 0 (Some 0) eq_refl) as Hle.
    destruct (skip_exhausted 0 (Some 0) g) as [p' e']. simpl in *.
    etransitivity; [exact Hle|]. destruct g as [|[n l] rest]; simpl; lia.
Qed.

Lemma equal_loop_enough (fuel : nat) (g1 g2 : graph) :
  forall it1 it2 : iterator,
    remaining g1 it1 < fuel -> equal_loop fuel g1 g2 it1 it2 <> None.
Proof.
  induction fuel as [|fuel IH]; intros it1 it2 Hfuel; [lia|].
  simpl.
  destruct (negb (iterator_equal it1 (end_ g1)) && negb (iterator_equal it2 (end_ g2)));
    [|discriminate].
  destruct (deref g1 it1) as [edge1| |]; try discriminate.
  destruct (deref g2 it2) as [edge2| |]; try discriminate.
  destruct (value_differs edge1 edge2); [discriminate|].
  destruct (incr g1 it1) as [it1'| |] eqn:Hi; try discriminate.
  destruct (incr g2 it2) as [it2'| |]; try discriminate.
  apply IH. pose proof (incr_remaining _ _ _ Hi). lia.
Qed.

(** [operator==] as its loop, for any fuel that is enough. *)
Lemma graph_equal_loop (g1 g2 : graph) :
  length g1 = length g2 ->
  equal_loop (S (edge_count g1)) g1 g2 (begin g1) (begin g2) = Some (graph_equal g1 g2).
Proof.
  intros Hlen. unfold graph_equal. rewrite Hlen, Nat.eqb_refl. simpl negb. cbv iota.
  destruct (equal_loop (S (edge_count g1)) g1 g2 (begin g1) (begin g2)) eqn:Hl; [reflexivity|].
  exfalso. revert Hl. apply equal_loop_enough. pose proof (begin_remaining g1). lia.
Qed.

(** ** Sequences of calls *)

Lemma reachable_run (cs : list (call N E)) :
  forall g : graph, reachable g -> all_return cs g = true -> reachable (run cs g).
Proof.
  induction cs as [|c cs IH]; intros g Hg Hall; simpl in *; [exact Hg|].
  destruct (exec c g) as [[r|e|] g'] eqn:Hc; try discriminate.
  apply IH; [|exact Hall]. eapply reachable_step; eauto.
Qed.

End Facts.

(** * The claims *)

Import Scenario.

Open Scope Z_scope.

(** C1.  [operator==] compares the number of nodes and the two flattened
    edge sequences, and nothing else: the graphs with the edgeless nodes 1, 2
    and 1, 3 have different node sets and compare equal. *)
Theorem graph_equal_ignores_edgeless_nodes :
  nodes isolated_12 = [1; 2]
  /\ nodes isolated_13 = [1; 3]
  /\ flatten isolated_12 = [] /\ flatten isolated_13 = []
  /\ graph_equal isolated_12 isolated_13 = Ok true.
Proof. repeat split. Qed.

(** C2.  [replace_node] and [merge_replace_node] sort the vector of the new
    node only.  A vector of another node whose destinations they rewrite is
    left as it stands: after [replace_node(3, 0)] node 1 lists its edge to 2
    before its edge to 0, and after [merge_replace_node(2, 3)] it lists
    weight 1 before weight 0 for the one destination 3.  Neither vector is
    in canonical order. *)
Theorem rewritten_destinations_left_unsorted :
  (is_canonical (map_get 1 (fan 5 5)) = true
   /\ exec (ReplaceNode 3 0) (fan 5 5)
      = (Ok (RBool true),
         [(0, []); (1, [weighted_edge 1 2 5; weighted_edge 1 0 5]); (2, [])])
   /\ is_canonical [weighted_edge 1 2 5; weighted_edge 1 0 5] = false)
  /\
  (is_canonical (map_get 1 (fan 1 0)) = true
   /\ exec (MergeReplaceNode 2 3) (fan 1 0)
      = (Ok RUnit, [(1, [weighted_edge 1 3 1; weighted_edge 1 3 0]); (3, [])])
   /\ is_canonical [weighted_edge 1 3 1; weighted_edge 1 3 0] = false).
Proof. repeat split. Qed.

(** C3.  The loop of the two-iterator [erase_edge] steps [i] once more
    after every erasure, so it erases every other edge of the range: on one
    node with the self-loops of weight 1, 2, 3, 4, erasing from position 0
    to position 3 leaves the edges of weight 2 and 4, where the range holds
    the edges of weight 1, 2, 3. *)
Theorem erase_edge_range_skips_every_other_edge :
  let i := begin loops in
  let s := find 1 1 (Some 4) loops in
  flat_position loops i = 0%nat
  /\ flat_position loops s = 3%nat
  /\ flatten loops
     = [ {| from := 1; to := 1; weight := Some 1 |}; {| from := 1; to := 1; weight := Some 2 |};
         {| from := 1; to := 1; weight := Some 3 |}; {| from := 1; to := 1; weight := Some 4 |} ]
  /\ exists g',
       erase_edge_range i s loops = (Ok s, g')
       /\ flatten g'
          = [ {| from := 1; to := 1; weight := Some 2 |};
              {| from := 1; to := 1; weight := Some 4 |} ].
Proof.
  repeat split. eexists. split; reflexivity.
Qed.

(** C4.  [erase_edge(iterator)] returns [end()] whenever the erased edge was
    the last of its vector, also when a later node has edges; and it counts
    the position to return from [begin()] by the position inside the
    vector.  With the edges 1 -> 2 and 2 -> 1, erasing at [begin()] returns
    [end()] while the edge 2 -> 1 follows.  With 1 -> 1, 2 -> 1 of weight 1
    and 2 -> 1 of weight 2, erasing the edge of weight 1 returns the
    iterator at 1 -> 1, not at the edge of weight 2. *)
Theorem erase_edge_at_returns_wrong_position :
  (exists g',
     erase_edge_at (begin pair) pair = (Ok (end_ g'), g')
     /\ flatten g' = [ {| from := 2; to := 1; weight := None |} ]
     /\ iterator_equal (begin g') (end_ g') = false)
  /\
  (exists it g',
     erase_edge_at (find 2 1 (Some 1) later_node) later_node = (Ok it, g')
     /\ flatten g' = [ {| from := 1; to := 1; weight := None |};
                       {| from := 2; to := 1; weight := Some 2 |} ]
     /\ deref g' it = Ok {| from := 1; to := 1; weight := None |}).
Proof.
  split.
  - exists [(1, []); (2, [unweighted_edge 2 1])]. repeat split.
  - exists {| node_it_ := 0; node_end_ := 2; edge_it_ := Some 0%nat |},
           [(1, [unweighted_edge 1 1]); (2, [weighted_edge 2 1 2])].
    repeat split.
Qed.

(** C5.  The predicate of [erase_edge] by value accepts every unweighted
    edge to [dst], whatever weight was asked for: erasing (1, 2, 5) from a
    node with an unweighted edge and an edge of weight 5 to 2 removes both,
    and erasing (1, 2, 7) where only the unweighted edge exists removes it
    and returns [true]. *)
Theorem erase_edge_removes_unweighted_too :
  map_get 1 mixed = [unweighted_edge 1 2; weighted_edge 1 2 5]
  /\ erase_edge 1 2 (Some 5) mixed = (Ok true, [(1, []); (2, [])])
  /\ map_get 1 pair = [unweighted_edge 1 2]
  /\ erase_edge 1 2 (Some 7) pair = (Ok true, [(1, []); (2, [unweighted_edge 2 1])]).
Proof. repeat split. Qed.

(** C6.  On a graph that holds both nodes, [merge_replace_node] returns and
    leaves the graph the specification describes: old's outgoing edges
    added to new's list unless the same (destination, weight-signature) is
    there, every destination old rewritten to new, new's list sorted into
    canonical order and deduplicated keeping first occurrences, old removed.
    old is then no node, and every other node holds the list just
    described.  On the nodes A, B, C (1, 2, 3) with the edges (A,B,1),
    (A,C,2), (B,C,3) the call leaves B and C, and B's list is (B,B,1),
    (B,C,2), (B,C,3). *)
Theorem merge_replace_node_correct
        {N E : Type} {CN : Comparable N} {CE : Comparable E}
        (old_data new_data : N) (g : graph N E) :
  map_ok g = true ->
  is_node old_data g = true ->
  is_node new_data g = true ->
  merge_replace_node old_data new_data g
    = (Ok tt, merge_replace_node_spec old_data new_data g)
  /\ is_node old_data (merge_replace_node_spec old_data new_data g) = false
  /\ (forall n,
        map_find n (merge_replace_node_spec old_data new_data g) =
        if equal n old_data then None
        else option_map
               (fun l =>
                  if equal n new_data then
                    dedup_first []
                      (canonical_sort
                         (map (spec_redirect old_data new_data)
                            (spec_add_outgoing new_data (map_get old_data g) l)))
                  else map (spec_redirect old_data new_data) l)
               (map_find n g))
  /\ merge_replace_node 1 2 triangle
     = (Ok tt,
        [(2, [weighted_edge 2 2 1; weighted_edge 2 3 2; weighted_edge 2 3 3]); (3, [])]).
Proof.
  intros Hok Hold Hnew. split; [|split; [|split]].
  - apply merge_replace_node_refines; assumption.
  - apply merge_replace_node_spec_old.
  - intros n. apply merge_replace_node_spec_find.
  - reflexivity.
Qed.

Lemma merge_replace_node_correct_witness :
  map_ok triangle = true
  /\ is_node 1 triangle = true
  /\ is_node 2 triangle = true
  /\ merge_replace_node 1 2 triangle = (Ok tt, merge_replace_node_spec 1 2 triangle)
  /\ nodes (merge_replace_node_spec 1 2 triangle) = [2; 3]
  /\ map_find 2 (merge_replace_node_spec 1 2 triangle)
     = Some [weighted_edge 2 2 1; weighted_edge 2 3 2; weighted_edge 2 3 3].
Proof.
  split; [reflexivity|]. split; [reflexivity|]. split; [reflexivity|].
  split; [|split; reflexivity].
  apply (merge_replace_node_correct 1 2 triangle); reflexivity.
Defined.

(** C7.  The two-iterator [erase_edge] compares [i.index()] with
    [s.index()], the positions inside the two vectors, not the places in
    the flattened order.  With two edges at node 1 and two at node 2: from
    the second edge of node 1 to the first edge of node 2 the start comes
    first and the call raises; from the first edge of node 2 to the second
    edge of node 1 the start comes last and the call returns, having erased
    an edge. *)
Theorem erase_edge_range_compares_vector_positions :
  let a := find 1 2 None square in
  let b := find 2 1 None square in
  flat_position square a = 1%nat
  /\ flat_position square b = 2%nat
  /\ erase_edge_range a b square = (Throw InvalidRange, square)
  /\ erase_edge_range b a square
     = (Ok a, [(1, [unweighted_edge 1 1; unweighted_edge 1 2]); (2, [unweighted_edge 2 2])]).
Proof. repeat split. Qed.

(** C8.  There is a graph a program can build, none of whose nodes holds
    two edges that compare equal, on which [replace_node] returns [true]
    and leaves a node with two edges that compare equal.  Node 1 has an edge
    of weight 5 to 2 and one to 3, where 3 is no node any more;
    [replace_node(2, 3)] rewrites the first into a second copy of the other,
    which was there before, and removes no duplicate. *)
Theorem replace_node_keeps_duplicates :
  exists (g g' : graph Z Z) (old_data new_data src : Z) (a0 a b : edge Z Z),
    reachable g
    /\ (forall (n : Z) (i j : nat) (x y : edge Z Z),
          i <> j ->
          nth_error (map_get n g) i = Some x ->
          nth_error (map_get n g) j = Some y ->
          edge_equal x y = false)
    /\ replace_node old_data new_data g = (Ok true, g')
    /\ map_get src g = [a0; b]
    /\ snd (get_nodes a0) = old_data
    /\ a = rename_endpoints old_data new_data a0
    /\ map_get src g' = [a; b]
    /\ edge_equal a b = true.
Proof.
  exists dangling, [(1, [weighted_edge 1 3 5; weighted_edge 1 3 5]); (3, [])],
         2, 3, 1, (weighted_edge 1 2 5), (weighted_edge 1 3 5), (weighted_edge 1 3 5).
  split; [apply (reachable_run dangling_calls []); [constructor | reflexivity]|].
  split; [|repeat split].
  intros n i j x y Hij Hx Hy.
  assert (Hd : dangling = [(1, [weighted_edge 1 2 5; weighted_edge 1 3 5]); (2, [])])
    by reflexivity.
  rewrite Hd in Hx, Hy. unfold map_get in Hx, Hy. cbn [map_find] in Hx, Hy.
  destruct (equal 1 n); [|destruct (equal 2 n)].
  - destruct i as [|[|i]], j as [|[|j]]; simpl in Hx, Hy;
      try congruence; try (destruct i; discriminate); try (destruct j; discriminate);
      injection Hx as <-; injection Hy as <-; reflexivity.
  - destruct i; discriminate.
  - destruct i; discriminate.
Qed.

(** C9.  A call that raises leaves the graph as it was: every member
    function that raises does so before its first write. *)
Theorem raising_call_leaves_graph_unchanged
        {N E : Type} {CN : Comparable N} {CE : Comparable E}
        (c : call N E) (g g' : graph N E) (e : exception) :
  exec c g = (Throw e, g') -> g' = g.
Proof.
  destruct c; unfold exec; intros H; apply returning_throw in H.
  - exfalso. exact (insert_node_never_throws _ _ _ _ H).
  - eapply insert_edge_throw; eauto.
  - eapply replace_node_throw; eauto.
  - eapply merge_replace_node_throw; eauto.
  - exfalso. exact (erase_node_never_throws _ _ _ _ H).
  - eapply erase_edge_throw; eauto.
  - exfalso. exact (erase_edge_at_never_throws _ _ _ _ H).
  - eapply erase_edge_range_throw; eauto.
  - discriminate.
  - eapply query_state; eauto.
  - eapply query_state; eauto.
  - eapply query_state; eauto.
  - discriminate.
Qed.

Lemma raising_call_leaves_graph_unchanged_witness :
  exec (MergeReplaceNode 1 4) triangle = (Throw NodeNotFound, triangle)
  /\ triangle = triangle.
Proof.
  split; [reflexivity|].
  apply (raising_call_leaves_graph_unchanged (MergeReplaceNode 1 4) triangle triangle NodeNotFound).
  reflexivity.
Defined.

(** C10.  [find] with a source or a destination that is no node returns
    [end()]: it raises nothing and the graph is as before. *)
Theorem find_absent_node_returns_end
        {N E : Type} {CN : Comparable N} {CE : Comparable E}
        (src dst : N) (w : option E) (g : graph N E) :
  is_node src g = false \/ is_node dst g = false ->
  find src dst w g = end_ g
  /\ exec (Find src dst w) g = (Ok (RIterator (end_ g)), g).
Proof.
  intros H.
  assert (Hf : find src dst w g = end_ g).
  { unfold find. destruct H as [H | H]; rewrite H; simpl; [|rewrite orb_true_r]; reflexivity. }
  split; [exact Hf|].
  unfold exec, returning. rewrite bind_gets, Hf. reflexivity.
Qed.

Lemma find_absent_node_returns_end_witness :
  (is_node 1 triangle = false \/ is_node 4 triangle = false)
  /\ find 1 4 (Some 1) triangle = end_ triangle
  /\ exec (Find 1 4 (Some 1)) triangle = (Ok (RIterator (end_ triangle)), triangle).
Proof.
  split; [right; reflexivity|].
  apply (find_absent_node_returns_end 1 4 (Some 1) triangle). right. reflexivity.
Defined.

(** * Further properties of the container *)

Close Scope Z_scope.

Section MoreFacts.

Context {N E : Type} {CN : Comparable N} {CE : Comparable E}.

Abbreviation edge := (edge N E).
Abbreviation edge_list := (edge_list N E).
Abbreviation graph := (graph N E).
Abbreviation value_type := (value_type N E).

Ltac by_equal x y :=
  let H := fresh "Heq" in
  destruct (equal x y) eqn:H;
  [apply equal_spec in H; try subst | pose proof (proj1 (equal_false _ _) H)].

(** ** Lookups after a write to the map *)

Lemma map_find_none_above (k : N) (m : graph) :
  (forall entry, In entry m -> less k (fst entry) = true) -> map_find k m = None.
Proof.
  induction m as [|[n l] m IH]; intros H; simpl; [reflexivity|].
  pose proof (H (n, l) (or_introl eq_refl)) as Hn. simpl in Hn.
  rewrite equal_sym, (less_not_equal _ _ Hn). apply IH. intros; apply H; right; assumption.
Qed.

Lemma map_find_emplace (k n : N) (v : edge_list) (m : graph) :
  map_ok m = true ->
  map_find n (map_emplace k v m) =
  if equal n k then Some (match map_find k m with Some l => l | None => v end)
  else map_find n m.
Proof.
  induction m as [|[n0 l0] m IH]; intros Hok; simpl.
  - rewrite (equal_sym k n). destruct (equal n k); reflexivity.
  - pose proof Hok as Hok'. apply map_ok_cons in Hok'. destruct Hok' as [Hn0 Hm].
    destruct (less k n0) eqn:Hlt; [|destruct (less n0 k) eqn:Hgt]; simpl.
    + rewrite (equal_sym n0 k), (less_not_equal _ _ Hlt).
      rewrite (map_find_none_above k m)
        by (intros entry Hin; eapply less_trans; [exact Hlt | apply Hn0; exact Hin]).
      rewrite (equal_sym k n). by_equal n k; [reflexivity|].
      reflexivity.
    + rewrite (less_not_equal _ _ Hgt). by_equal n0 n.
      * assert (Hnk : equal n k = false) by (apply less_not_equal; exact Hgt).
        rewrite Hnk. reflexivity.
      * apply IH. exact Hm.
    + assert (n0 = k) by (apply less_total; assumption). subst n0.
      rewrite equal_refl. by_equal k n.
      * rewrite equal_refl. reflexivity.
      * assert (Hnk : equal n k = false) by (apply equal_false; congruence).
        rewrite Hnk. reflexivity.
Qed.

Lemma map_find_modify (k n : N) (f : edge_list -> edge_list) (m : graph) :
  map_find n (map_modify k f m) =
  if equal n k then option_map f (map_find n m) else map_find n m.
Proof.
  induction m as [|[n0 l0] m IH]; simpl.
  - destruct (equal n k); reflexivity.
  - by_equal n0 k; simpl.
    + by_equal k n; [rewrite equal_refl; reflexivity|].
      assert (Hnk : equal n k = false) by (apply equal_false; congruence).
      rewrite Hnk. reflexivity.
    + by_equal n0 n; [|exact IH].
      apply equal_false in H. rewrite H. reflexivity.
Qed.

Lemma map_find_all (n : N) (f : edge_list -> edge_list) (m : graph) :
  map_find n (map_all f m) = option_map f (map_find n m).
Proof.
  induction m as [|[n0 l0] m IH]; simpl; [reflexivity|].
  destruct (equal n0 n); [reflexivity | exact IH].
Qed.

Lemma map_find_erase (k n : N) (m : graph) :
  map_ok m = true ->
  map_find n (map_erase k m) = if equal n k then None else map_find n m.
Proof.
  intros Hok. rewrite (map_erase_filter k m Hok). clear Hok.
  induction m as [|[n0 l0] m IH]; simpl.
  - destruct (equal n k); reflexivity.
  - by_equal n0 k; simpl.
    + rewrite IH. by_equal n k; [reflexivity|].
      assert (Hkn : equal k n = false) by (apply equal_false; congruence).
      rewrite Hkn. reflexivity.
    + by_equal n0 n; [|exact IH].
      apply equal_false in H. rewrite H. reflexivity.
Qed.

Lemma is_node_In_nodes (v : N) (g : graph) : is_node v g = true <-> In v (nodes g).
Proof.
  unfold is_node, nodes. induction g as [|[n l] g IH]; simpl.
  - split; [discriminate | tauto].
  - by_equal n v.
    + split; auto.
    + rewrite IH. split; [auto | intros [? | ?]; [contradiction | assumption]].
Qed.

Lemma map_ok_ascending (g : graph) : map_ok g = ascending (nodes g).
Proof.
  unfold nodes. induction g as [|[n l] g IH]; simpl; [reflexivity|].
  rewrite IH. f_equal. clear IH. induction g as [|x g IHg]; simpl; [reflexivity|].
  rewrite IHg. reflexivity.
Qed.

(** ** Nodes *)

Lemma insert_node_state (v : N) (g : graph) :
  insert_node v g
  = (Ok (negb (is_node v g)), if is_node v g then g else map_emplace v [] g).
Proof. unfold insert_node. rewrite bind_get. destruct (is_node v g); reflexivity. Qed.

(** X1.  In every graph a program can build, [nodes()] is strictly
    ascending, and [is_node] holds of exactly the values [nodes()] lists. *)
Theorem nodes_ascending_and_exact (g : graph) :
  reachable g ->
  ascending (nodes g) = true /\ (forall v, is_node v g = true <-> In v (nodes g)).
Proof.
  intros Hr. split.
  - rewrite <- map_ok_ascending. apply reachable_map_ok. exact Hr.
  - intros v. apply is_node_In_nodes.
Qed.

Lemma insert_node_lookup (v : N) (g : graph) :
  map_ok g = true ->
  exists g',
    insert_node v g = (Ok (negb (is_node v g)), g')
    /\ is_node v g' = true
    /\ (forall n, map_find n g' = if equal n v then Some (map_get v g) else map_find n g)
    /\ (is_node v g = true -> g' = g).
Proof.
  intros Hok. rewrite insert_node_state. eexists. split; [reflexivity|].
  assert (Hfind : forall n,
            map_find n (if is_node v g then g else map_emplace v [] g)
            = if equal n v then Some (map_get v g) else map_find n g).
  { intros n. unfold is_node, map_get. destruct (map_find v g) as [l|] eqn:Hv.
    - by_equal n v; [exact Hv | reflexivity].
    - rewrite (map_find_emplace v n [] g Hok), Hv. reflexivity. }
  split; [|split].
  - unfold is_node at 1. rewrite Hfind, equal_refl. reflexivity.
  - exact Hfind.
  - intros Hv. rewrite Hv. reflexivity.
Qed.

(** X2.  [insert_node] returns [true] exactly when the value was no node.
    Afterwards the value is a node; a node that existed keeps its edges (the
    graph is unchanged), a new node has none, and every other node is as
    before. *)
Theorem insert_node_result (v : N) (g : graph) :
  map_ok g = true ->
  exists g',
    insert_node v g = (Ok (negb (is_node v g)), g')
    /\ is_node v g' = true
    /\ (forall n, map_find n g' = if equal n v then Some (map_get v g) else map_find n g)
    /\ (is_node v g = true -> g' = g).
Proof. intros. apply insert_node_lookup; assumption. Qed.

Lemma for_each_insert_node (values : list N) :
  forall g : graph,
    map_ok g = true ->
    (forall entry, In entry g -> snd entry = []) ->
    let g' := snd (for_each values (fun value => insert_node (E:=E) value ;; ret tt) g) in
    map_ok g' = true
    /\ (forall entry, In entry g' -> snd entry = [])
    /\ (forall v, is_node v g' = true <-> is_node v g = true \/ In v values).
Proof.
  induction values as [|v values IH]; intros g Hok Hempty; simpl.
  - repeat split; auto. intros [? | []]; assumption.
  - set (g1 := if is_node v g then g else map_emplace v [] g).
    assert (Hstep : ((insert_node v ;; ret tt) ;;
                     for_each values (fun value => insert_node (E:=E) value ;; ret tt)) g
                    = for_each values (fun value => insert_node (E:=E) value ;; ret tt) g1).
    { unfold bind at 1. unfold bind at 1. rewrite insert_node_state. reflexivity. }
    rewrite Hstep. clear Hstep.
    assert (Hok1 : map_ok g1 = true)
      by (unfold g1; destruct (is_node v g); [exact Hok | apply map_emplace_ok; exact Hok]).
    assert (Hempty1 : forall entry, In entry g1 -> snd entry = []).
    { unfold g1. destruct (is_node v g); [exact Hempty|].
      intros entry Hin. apply In_map_emplace in Hin. destruct Hin as [-> | Hin]; auto. }
    destruct (IH g1 Hok1 Hempty1) as (H1 & H2 & H3).
    split; [exact H1|]. split; [exact H2|].
    intros n. rewrite H3.
    assert (Hn : is_node n g1 = true <-> is_node n g = true \/ v = n).
    { destruct (insert_node_lookup v g Hok) as (g' & Hs & _ & Hfind & _).
      rewrite insert_node_state in Hs. injection Hs as Hg'. fold g1 in Hg'. subst g'.
      unfold is_node at 1. rewrite Hfind. by_equal n v.
      - split; auto.
      - fold (is_node n g). split; [auto | intros [? | ?]; [assumption | congruence]]. }
    rewrite Hn. tauto.
Qed.

(** X3.  The range constructor (and with it the initializer-list
    constructor) builds a graph whose nodes are exactly the values of the
    range, each once and in ascending order, and which has no edge. *)
Theorem graph_from_range_nodes (values : list N) :
  ascending (nodes (graph_from_range (E:=E) values)) = true
  /\ (forall v, In v (nodes (graph_from_range (E:=E) values)) <-> In v values)
  /\ flatten (graph_from_range (E:=E) values) = []
  /\ edge_count (graph_from_range (E:=E) values) = 0.
Proof.
  unfold graph_from_range.
  destruct (for_each_insert_node values [] eq_refl) as (H1 & H2 & H3);
    [intros entry []|].
  set (g := snd (for_each values (fun value => insert_node (E:=E) value ;; ret tt) [])) in *.
  split; [rewrite <- map_ok_ascending; exact H1|].
  split.
  - intros v. rewrite <- is_node_In_nodes, H3. simpl.
    split; [intros [? | ?]; [discriminate | assumption] | auto].
  - clearbody g. clear H1 H3. induction g as [|[n l] g IH]; [split; reflexivity|].
    pose proof (H2 (n, l) (or_introl eq_refl)) as Hl. simpl in Hl. subst l.
    unfold flatten in *. simpl. apply IH. intros; apply H2; right; assumption.
Qed.

(** ** [insert_edge] and [find] *)

Lemma map_get_modify (k : N) (f : edge_list -> edge_list) (m : graph) :
  is_node k m = true -> map_get k (map_modify k f m) = f (map_get k m).
Proof.
  unfold is_node, map_get. rewrite map_find_modify, equal_refl.
  destruct (map_find k m); [reflexivity | discriminate].
Qed.

Lemma is_node_modify (k n : N) (f : edge_list -> edge_list) (m : graph) :
  is_node n (map_modify k f m) = is_node n m.
Proof.
  unfold is_node. rewrite map_find_modify.
  destruct (equal n k); [|reflexivity]. destruct (map_find n m); reflexivity.
Qed.

Lemma existsb_sort_insert (p : edge -> bool) (x : edge) (l : edge_list) :
  existsb p (sort_insert x l) = p x || existsb p l.
Proof.
  induction l as [|y l IH]; simpl; [reflexivity|].
  destruct (sort_compare y x); simpl; [|reflexivity].
  rewrite IH. destruct (p x), (p y); reflexivity.
Qed.

Lemma existsb_sort_edges (p : edge -> bool) (l : edge_list) :
  existsb p (sort_edges l) = existsb p l.
Proof.
  induction l as [|x l IH]; simpl; [reflexivity|].
  rewrite existsb_sort_insert, IH. reflexivity.
Qed.

Lemma optional_equal_refl (w : option E) : optional_equal w w = true.
Proof. apply optional_equal_spec. reflexivity. Qed.

Lemma find_edge_pred_create (src dst : N) (w : option E) :
  find_edge_pred dst w (create_edge src dst w) = true.
Proof.
  destruct w as [w0|]; unfold find_edge_pred; simpl; rewrite equal_refl; simpl;
    rewrite ?equal_refl; reflexivity.
Qed.

(** [insert_edge] on two nodes, as one write to the vector of [src]. *)
Lemma insert_edge_state (src dst : N) (w : option E) (g : graph) :
  map_ok g = true ->
  is_node src g = true ->
  is_node dst g = true ->
  insert_edge src dst w g =
  if edge_exists (map_get src g) dst w then (Ok false, g)
  else (Ok true, map_modify src (fun l => sort_edges (l ++ [create_edge src dst w])) g).
Proof.
  intros Hok Hs Hd. unfold insert_edge.
  rewrite bind_get, Hs, Hd. cbn [negb orb].
  rewrite bind_modify, (map_touch_node _ _ Hok Hs), bind_gets.
  destruct (edge_exists (map_get src g) dst w); [reflexivity|].
  rewrite !bind_modify. unfold ret. rewrite map_modify_compose. reflexivity.
Qed.

Lemma insert_edge_repeat (src dst : N) (w : option E) (g : graph) :
  map_ok g = true ->
  is_node src g = true ->
  is_node dst g = true ->
  exists g1,
    insert_edge src dst w g = (Ok (negb (edge_exists (map_get src g) dst w)), g1)
    /\ edge_exists (map_get src g1) dst w = true
    /\ insert_edge src dst w g1 = (Ok false, g1).
Proof.
  intros Hok Hs Hd. rewrite (insert_edge_state src dst w g Hok Hs Hd).
  destruct (edge_exists (map_get src g) dst w) eqn:Hex; eexists; split; try reflexivity.
  - split; [exact Hex|]. rewrite (insert_edge_state src dst w g Hok Hs Hd), Hex. reflexivity.
  - assert (Hex1 : edge_exists
                     (map_get src
                        (map_modify src (fun l => sort_edges (l ++ [create_edge src dst w])) g))
                     dst w = true).
    { rewrite (map_get_modify _ _ _ Hs). unfold edge_exists.
      rewrite existsb_sort_edges, existsb_app. simpl.
      rewrite find_edge_pred_create, orb_true_r. reflexivity. }
    split; [exact Hex1|].
    rewrite insert_edge_state, Hex1; try reflexivity.
    + apply map_modify_ok. exact Hok.
    + rewrite is_node_modify. exact Hs.
    + rewrite is_node_modify. exact Hd.
Qed.

(** X4.  [insert_edge] on two nodes returns [true] exactly when [src] had
    no edge to [dst] with that weight-signature; the same call made again
    returns [false] and changes nothing. *)
Theorem insert_edge_twice (src dst : N) (w : option E) (g : graph) :
  map_ok g = true ->
  is_node src g = true ->
  is_node dst g = true ->
  exists g1,
    insert_edge src dst w g = (Ok (negb (edge_exists (map_get src g) dst w)), g1)
    /\ edge_exists (map_get src g1) dst w = true
    /\ insert_edge src dst w g1 = (Ok false, g1).
Proof. intros. apply insert_edge_repeat; assumption. Qed.

Lemma nth_error_skipn {A} (l : list A) :
  forall (p : nat) (x : A), nth_error l p = Some x -> exists rest, skipn p l = x :: rest.
Proof.
  induction l as [|y l IH]; intros [|p] x H; simpl in *; try discriminate.
  - injection H as ->. eexists. reflexivity.
  - apply IH. exact H.
Qed.

Lemma map_find_it_nth (k : N) (l : edge_list) (g : graph) :
  map_find k g = Some l ->
  exists p, map_find_it k g = Some p /\ nth_error g p = Some (k, l).
Proof.
  induction g as [|[n l0] g IH]; simpl; [discriminate|].
  by_equal n k.
  - intros [= ->]. exists 0. split; reflexivity.
  - intros Hf. destruct (IH Hf) as (p & Hp & Hn). exists (S p). rewrite Hp. split; [reflexivity|].
    exact Hn.
Qed.

Lemma find_if_existsb (p : edge -> bool) (l : edge_list) :
  match find_if p l with
  | Some k => exists e, nth_error l k = Some e /\ p e = true
  | None => existsb p l = false
  end.
Proof.
  induction l as [|x l IH]; simpl; [reflexivity|].
  destruct (p x) eqn:Hp.
  - exists x. split; [reflexivity | exact Hp].
  - destruct (find_if p l) as [k|]; simpl; exact IH.
Qed.

Lemma end_fields (g : graph) :
  end_ g = {| node_it_ := length g; node_end_ := length g; edge_it_ := None |}.
Proof. unfold end_, make_iterator. rewrite Nat.eqb_refl. reflexivity. Qed.

Lemma make_iterator_at (g : graph) (p : nat) (n : N) (l : edge_list) :
  nth_error g p = Some (n, l) ->
  l <> [] ->
  make_iterator g p = {| node_it_ := p; node_end_ := length g; edge_it_ := Some 0 |}.
Proof.
  intros Hn Hl. unfold make_iterator.
  assert (Hp : p < length g) by (apply nth_error_Some; congruence).
  destruct (p =? length g) eqn:Hpe; [apply Nat.eqb_eq in Hpe; lia|].
  destruct (nth_error_skipn g p _ Hn) as [rest ->]. simpl.
  destruct l as [|e l]; [contradiction|]. reflexivity.
Qed.

Lemma find_points (src dst : N) (w : option E) (g : graph) :
  is_node src g = true ->
  is_node dst g = true ->
  if existsb (fun e => equal (snd (get_nodes e)) dst && optional_equal (get_weight e) w)
             (map_get src g)
  then deref g (find src dst w g) = Ok {| from := src; to := dst; weight := w |}
       /\ iterator_equal (find src dst w g) (end_ g) = false
  else find src dst w g = end_ g.
Proof.
  intros Hs Hd. unfold find. rewrite Hs, Hd. cbn [negb orb].
  unfold is_node in Hs. unfold map_get.
  destruct (map_find src g) as [l|] eqn:Hf; [|discriminate].
  destruct (map_find_it_nth src l g Hf) as (p & Hp & Hn). rewrite Hp.
  pose proof (find_if_existsb
                (fun e => equal (snd (get_nodes e)) dst && optional_equal (get_weight e) w) l)
    as Hfi.
  destruct (find_if _ l) as [k|].
  - destruct Hfi as (e & Hk & He). apply andb_true_iff in He. destruct He as [Hto Hw].
    apply equal_spec in Hto. apply optional_equal_spec in Hw.
    assert (Hex : existsb (fun e => equal (snd (get_nodes e)) dst
                                    && optional_equal (get_weight e) w) l = true).
    { apply existsb_exists. exists e. split; [eapply nth_error_In; eauto|].
      rewrite Hto, Hw, equal_refl, optional_equal_refl. reflexivity. }
    rewrite Hex.
    assert (Hl : l <> []) by (intros ->; destruct k; discriminate).
    rewrite (make_iterator_at g p src l Hn Hl). simpl.
    split.
    + unfold deref. simpl. rewrite Hn, Hk, Hto, Hw. reflexivity.
    + rewrite end_fields. unfold iterator_equal. simpl.
      assert (Hlt : p < length g) by (apply nth_error_Some; congruence).
      destruct (p =? length g) eqn:Hpe; [apply Nat.eqb_eq in Hpe; lia | reflexivity].
  - rewrite Hfi. reflexivity.
Qed.

(** X5.  [find] on two nodes returns an iterator that points at an edge
    from [src] to [dst] with the given weight when [src] has one, and
    [end()] when it has none. *)
Theorem find_result (src dst : N) (w : option E) (g : graph) :
  is_node src g = true ->
  is_node dst g = true ->
  if existsb (fun e => equal (snd (get_nodes e)) dst && optional_equal (get_weight e) w)
             (map_get src g)
  then deref g (find src dst w g) = Ok {| from := src; to := dst; weight := w |}
       /\ iterator_equal (find src dst w g) (end_ g) = false
  else find src dst w g = end_ g.
Proof. intros. apply find_points; assumption. Qed.

Lemma existsb_pointwise {A} (p q : A -> bool) (l : list A) :
  (forall x, p x = q x) -> existsb p l = existsb q l.
Proof.
  intros H. induction l as [|x l IH]; simpl; [reflexivity|]. rewrite H, IH. reflexivity.
Qed.

Lemma find_edge_pred_find (dst : N) (w : option E) (e : edge) :
  find_edge_pred dst w e = equal (snd (get_nodes e)) dst && optional_equal (get_weight e) w.
Proof.
  unfold find_edge_pred. destruct e as [f t x|f t], w as [y|]; simpl;
    rewrite ?orb_false_r, ?andb_true_r, ?andb_false_r; reflexivity.
Qed.

Lemma copy_edge_id (e : edge) : copy_edge e = e.
Proof. destruct e; reflexivity. Qed.

(** X6.  After [insert_edge(src, dst, w)] has returned, whatever it
    returned, [find(src, dst, w)] points at an edge from [src] to [dst] with
    weight [w], and [is_connected(src, dst)] is [true]. *)
Theorem insert_edge_then_find (src dst : N) (w : option E) (g g1 : graph) (b : bool) :
  map_ok g = true ->
  insert_edge src dst w g = (Ok b, g1) ->
  deref g1 (find src dst w g1) = Ok {| from := src; to := dst; weight := w |}
  /\ iterator_equal (find src dst w g1) (end_ g1) = false
  /\ is_connected src dst g1 = Ok true.
Proof.
  intros Hok Hins.
  assert (Hnodes : is_node src g = true /\ is_node dst g = true).
  { unfold insert_edge in Hins. rewrite bind_get in Hins.
    destruct (is_node src g), (is_node dst g); try discriminate. split; reflexivity. }
  destruct Hnodes as [Hs Hd].
  destruct (insert_edge_repeat src dst w g Hok Hs Hd) as (g1' & H1 & Hex & _).
  rewrite Hins in H1. injection H1 as _ <-.
  assert (Hs1 : is_node src g1 = true /\ is_node dst g1 = true).
  { rewrite (insert_edge_state src dst w g Hok Hs Hd) in Hins.
    destruct (edge_exists (map_get src g) dst w); injection Hins as _ <-;
      rewrite ?is_node_modify; split; assumption. }
  destruct Hs1 as [Hs1 Hd1].
  assert (Hex' : existsb (fun e => equal (snd (get_nodes e)) dst
                                   && optional_equal (get_weight e) w) (map_get src g1) = true).
  { unfold edge_exists in Hex. rewrite <- Hex. apply existsb_pointwise.
    intros e. symmetry. apply find_edge_pred_find. }
  pose proof (find_points src dst w g1 Hs1 Hd1) as Hfind. rewrite Hex' in Hfind.
  destruct Hfind as [Hderef Hne]. split; [exact Hderef|]. split; [exact Hne|].
  unfold is_connected, edges. rewrite Hs1, Hd1. cbn [negb orb].
  apply existsb_exists in Hex'. destruct Hex' as (e & Hin & He).
  apply andb_true_iff in He. destruct He as [Hto _].
  assert (Hf : In e (filter (fun e => equal (snd (get_nodes e)) dst) (map_get src g1)))
    by (apply filter_In; split; assumption).
  destruct (filter (fun e => equal (snd (get_nodes e)) dst) (map_get src g1)); [destruct Hf|].
  reflexivity.
Qed.

(** ** The operations that keep every vector canonical and free of
    duplicates *)

Lemma same_signature_sym (a b : edge) : same_signature a b = same_signature b a.
Proof.
  destruct a as [f1 t1 w1|f1 t1], b as [f2 t2 w2|f2 t2]; simpl;
    rewrite ?(equal_sym t1 t2), ?(equal_sym w1 w2); reflexivity.
Qed.

Lemma ordered_cons (a : edge) (l : edge_list) :
  ordered (a :: l) = true <->
  forallb (fun b => negb (canonical_before b a)) l = true
  /\ existsb (same_signature a) l = false
  /\ ordered l = true.
Proof.
  unfold ordered. simpl. rewrite !andb_true_iff, negb_true_iff. tauto.
Qed.

Lemma ordered_cons_incl (a : edge) (l l' : edge_list) :
  ordered (a :: l) = true ->
  (forall x, In x l' -> In x l) ->
  ordered l' = true ->
  ordered (a :: l') = true.
Proof.
  intros Ha Hincl Hl'. apply ordered_cons in Ha. destruct Ha as (Hc & Hd & _).
  apply ordered_cons. split; [|split; [|exact Hl']].
  - rewrite forallb_forall in *. intros x Hx. apply Hc, Hincl, Hx.
  - destruct (existsb (same_signature a) l') eqn:Hex; [|reflexivity].
    apply existsb_exists in Hex. destruct Hex as (x & Hx & Hs).
    rewrite <- Hd. symmetry. apply existsb_exists. exists x. split; [apply Hincl, Hx | exact Hs].
Qed.

Lemma ordered_tail (a : edge) (l : edge_list) : ordered (a :: l) = true -> ordered l = true.
Proof. intros H. apply ordered_cons in H. tauto. Qed.

Lemma ordered_filter (p : edge -> bool) (l : edge_list) :
  ordered l = true -> ordered (filter p l) = true.
Proof.
  induction l as [|a l IH]; intros H; [reflexivity|].
  pose proof (IH (ordered_tail _ _ H)) as Hl. simpl.
  destruct (p a); [|exact Hl].
  apply (ordered_cons_incl a l); [exact H | | exact Hl].
  intros x Hx. apply filter_In in Hx. tauto.
Qed.

Lemma In_vector_erase (l : edge_list) :
  forall (k : nat) (x : edge), In x (vector_erase k l) -> In x l.
Proof.
  induction l as [|a l IH]; intros [|k] x H; simpl in *; auto.
  destruct H as [-> | H]; [left; reflexivity | right; eapply IH; exact H].
Qed.

Lemma ordered_vector_erase (l : edge_list) :
  forall k, ordered l = true -> ordered (vector_erase k l) = true.
Proof.
  induction l as [|a l IH]; intros [|k] H; simpl; try reflexivity.
  - apply (ordered_tail _ _ H).
  - apply (ordered_cons_incl a l); [exact H | apply In_vector_erase |].
    apply IH. apply (ordered_tail _ _ H).
Qed.

Lemma distinct_sort_insert (x : edge) (l : edge_list) :
  distinct_signatures (sort_insert x l)
  = negb (existsb (same_signature x) l) && distinct_signatures l.
Proof.
  induction l as [|y l IH]; simpl; [reflexivity|].
  destruct (sort_compare y x); simpl; [|reflexivity].
  rewrite IH, existsb_sort_insert, (same_signature_sym y x).
  destruct (same_signature x y), (existsb (same_signature x) l),
    (existsb (same_signature y) l), (distinct_signatures l); reflexivity.
Qed.

Lemma distinct_sort_edges (l : edge_list) :
  distinct_signatures (sort_edges l) = distinct_signatures l.
Proof.
  induction l as [|x l IH]; simpl; [reflexivity|].
  rewrite distinct_sort_insert, existsb_sort_edges, IH. reflexivity.
Qed.

Lemma distinct_app_one (l : edge_list) (e : edge) :
  distinct_signatures (l ++ [e])
  = distinct_signatures l && negb (existsb (same_signature e) l).
Proof.
  induction l as [|a l IH]; simpl; [reflexivity|].
  rewrite IH, existsb_app. simpl. rewrite orb_false_r, (same_signature_sym e a).
  destruct (same_signature a e), (existsb (same_signature a) l), (distinct_signatures l),
    (existsb (same_signature e) l); reflexivity.
Qed.

Lemma ordered_insert (src dst : N) (w : option E) (l : edge_list) :
  ordered l = true ->
  edge_exists l dst w = false ->
  ordered (sort_edges (l ++ [create_edge src dst w])) = true.
Proof.
  intros Hl Hex. unfold ordered in *. apply andb_true_iff in Hl. destruct Hl as [_ Hd].
  rewrite sort_edges_canonical, distinct_sort_edges, distinct_app_one, Hd.
  rewrite <- (edge_exists_same_signature src dst w l), Hex. reflexivity.
Qed.

Lemma well_ordered_modify (k : N) (f : edge_list -> edge_list) (g : graph) :
  well_ordered g = true ->
  (ordered (map_get k g) = true -> ordered (f (map_get k g)) = true) ->
  well_ordered (map_modify k f g) = true.
Proof.
  unfold well_ordered, map_get. induction g as [|[n l] g IH]; intros Hg Hf; [reflexivity|].
  simpl in *. apply andb_true_iff in Hg. destruct Hg as [Hl Hg].
  destruct (equal n k); simpl.
  - rewrite Hg, (Hf Hl). reflexivity.
  - rewrite Hl, (IH Hg Hf). reflexivity.
Qed.

Lemma well_ordered_all (f : edge_list -> edge_list) (g : graph) :
  (forall l, ordered l = true -> ordered (f l) = true) ->
  well_ordered g = true -> well_ordered (map_all f g) = true.
Proof.
  intros Hf. unfold well_ordered, map_all. induction g as [|[n l] g IH]; intros Hg; [reflexivity|].
  simpl in *. apply andb_true_iff in Hg. destruct Hg as [Hl Hg].
  rewrite (Hf _ Hl), (IH Hg). reflexivity.
Qed.

Lemma well_ordered_incl (g g' : graph) :
  (forall entry, In entry g' -> In entry g \/ snd entry = []) ->
  well_ordered g = true -> well_ordered g' = true.
Proof.
  unfold well_ordered. rewrite !forallb_forall. intros Hincl Hg entry Hin.
  destruct (Hincl _ Hin) as [H | H]; [apply Hg, H | rewrite H; reflexivity].
Qed.

Lemma well_ordered_erase (k : N) (g : graph) :
  well_ordered g = true -> well_ordered (map_erase k g) = true.
Proof.
  apply well_ordered_incl. intros entry Hin. left. eapply In_map_erase. exact Hin.
Qed.

Lemma well_ordered_emplace (k : N) (g : graph) :
  well_ordered g = true -> well_ordered (map_emplace k [] g) = true.
Proof.
  apply well_ordered_incl. intros entry Hin. apply In_map_emplace in Hin.
  destruct Hin as [-> | Hin]; [right; reflexivity | left; exact Hin].
Qed.

(** The graph a call of [erase_edge(iterator)] leaves, whatever it
    returns. *)
Lemma erase_edge_at_graph (i : iterator) (g g' : graph) (r : outcome iterator) :
  erase_edge_at i g = (r, g') ->
  g' = g \/ exists n k, g' = map_modify n (vector_erase k) g.
Proof.
  unfold erase_edge_at. rewrite bind_get.
  destruct (iterator_equal i (end_ g)); [intros [= _ <-]; left; reflexivity|].
  destruct (nth_error g (node_it_ i)) as [[n l]|]; [|intros [= _ <-]; left; reflexivity].
  destruct (edge_it_ i) as [k|]; [|intros [= _ <-]; left; reflexivity].
  destruct (k <? length l); [|intros [= _ <-]; left; reflexivity].
  rewrite bind_modify, bind_get. unfold bind, lift. intros H. right. exists n, k.
  destruct (index (map_modify n (vector_erase k) g) i) as [ix|e|];
    try (injection H as _ <-; reflexivity).
  destruct (k =? length (map_get n (map_modify n (vector_erase k) g)));
    [injection H as _ <-; reflexivity|].
  destruct (advance _ ix _); injection H as _ <-; reflexivity.
Qed.

Lemma erase_edge_at_well_ordered (i : iterator) (g g' : graph) (r : outcome iterator) :
  well_ordered g = true -> erase_edge_at i g = (r, g') -> well_ordered g' = true.
Proof.
  intros Hg H. destruct (erase_edge_at_graph _ _ _ _ H) as [-> | (n & k & ->)]; [exact Hg|].
  apply well_ordered_modify; [exact Hg | apply ordered_vector_erase].
Qed.

Lemma erase_range_loop_well_ordered (fuel : nat) :
  forall (i s : iterator) (g : graph) r g',
    well_ordered g = true -> erase_range_loop fuel i s g = Some (r, g') ->
    well_ordered g' = true.
Proof.
  induction fuel as [|fuel IH]; intros i s g r g' Hg; simpl; [discriminate|].
  destruct (negb (iterator_equal i (end_ g)) && negb (iterator_equal i s));
    [|intros [= _ <-]; exact Hg].
  destruct (erase_edge_at i g) as [[i1|e|] g1] eqn:He;
    pose proof (erase_edge_at_well_ordered _ _ _ _ Hg He) as Hg1;
    try (intros [= _ <-]; exact Hg1).
  destruct (incr g1 i1) as [i2|e|]; try (intros [= _ <-]; exact Hg1).
  apply IH. exact Hg1.
Qed.

Lemma returning_state {A} (f : A -> result N E) (c : M N E A) (g g' : graph)
      (r : outcome (result N E)) :
  returning f c g = (r, g') -> exists r', c g = (r', g').
Proof.
  unfold returning, bind. destruct (c g) as [[a|e|] g1]; intros [= _ <-]; eexists; reflexivity.
Qed.

(** X7.  Every call other than [replace_node] and [merge_replace_node]
    keeps the order invariant of the data model: if every vector was in
    canonical order and free of duplicate (destination, weight-signature)
    pairs before the call, every vector is so after it. *)
Theorem canonical_order_kept (c : call N E) (g g' : graph) (r : outcome (result N E)) :
  match c with
  | ReplaceNode _ _ | MergeReplaceNode _ _ => False
  | _ => True
  end ->
  map_ok g = true ->
  well_ordered g = true ->
  exec c g = (r, g') ->
  well_ordered g' = true.
Proof.
  intros Hc Hok Hg Hexec.
  destruct c; try contradiction; unfold exec in Hexec;
    apply returning_state in Hexec; destruct Hexec as [r' Hexec].
  - rewrite insert_node_state in Hexec. injection Hexec as _ <-.
    destruct (is_node value g); [exact Hg | apply well_ordered_emplace; exact Hg].
  - destruct (is_node src g) eqn:Hs; [destruct (is_node dst g) eqn:Hd|].
    + rewrite (insert_edge_state src dst w g Hok Hs Hd) in Hexec.
      destruct (edge_exists (map_get src g) dst w) eqn:Hex; injection Hexec as _ <-;
        [exact Hg|].
      apply well_ordered_modify; [exact Hg|]. intros Hl. apply ordered_insert; assumption.
    + unfold insert_edge in Hexec. rewrite bind_get, Hs, Hd in Hexec.
      injection Hexec as _ <-. exact Hg.
    + unfold insert_edge in Hexec. rewrite bind_get, Hs in Hexec.
      injection Hexec as _ <-. exact Hg.
  - unfold erase_node in Hexec. rewrite bind_get in Hexec.
    destruct (is_node value g); [|injection Hexec as _ <-; exact Hg].
    cbn [negb] in Hexec. rewrite !bind_modify in Hexec. injection Hexec as _ <-.
    apply well_ordered_erase, well_ordered_all; [apply ordered_filter | exact Hg].
  - unfold erase_edge in Hexec. rewrite bind_get in Hexec.
    destruct (negb (is_node src g) || negb (is_node dst g));
      [injection Hexec as _ <-; exact Hg|].
    rewrite bind_gets in Hexec. cbv zeta in Hexec.
    destruct (length _ =? length _); [injection Hexec as _ <-; exact Hg|].
    rewrite bind_modify in Hexec. injection Hexec as _ <-.
    apply well_ordered_modify; [exact Hg|]. apply ordered_filter.
  - eapply erase_edge_at_well_ordered; eauto.
  - unfold erase_edge_range in Hexec. rewrite bind_get in Hexec.
    destruct (iterator_equal i s && iterator_equal i (end_ g));
      [injection Hexec as _ <-; exact Hg|].
    unfold bind, lift in Hexec.
    destruct (index g i) as [ii|e|]; try (injection Hexec as _ <-; exact Hg).
    destruct (index g s) as [si|e|]; try (injection Hexec as _ <-; exact Hg).
    destruct (si <? ii); [injection Hexec as _ <-; exact Hg|].
    destruct (erase_range_loop (S (edge_count g)) i s g) as [[[u|e|] g1]|] eqn:Hl;
      injection Hexec as _ <-; try exact Hg;
      eapply erase_range_loop_well_ordered; eauto.
  - injection Hexec as _ <-. reflexivity.
  - rewrite bind_get in Hexec. injection Hexec as _ <-. exact Hg.
  - rewrite bind_get in Hexec. injection Hexec as _ <-. exact Hg.
  - rewrite bind_get in Hexec. injection Hexec as _ <-. exact Hg.
  - injection Hexec as _ <-. exact Hg.
Qed.

(** X8.  On a graph whose vectors are canonical and free of duplicates,
    [edges(src, dst)] returns edges that all lead to [dst], in canonical
    order (the unweighted one first, then ascending weights) and no two with
    the same weight-signature. *)
Theorem edges_canonical (src dst : N) (g : graph) (l : edge_list) :
  well_ordered g = true ->
  edges src dst g = Ok l ->
  is_canonical l = true
  /\ distinct_signatures l = true
  /\ (forall e, In e l -> snd (get_nodes e) = dst /\ In e (map_get src g)).
Proof.
  intros Hg. unfold edges.
  destruct (negb (is_node src g) || negb (is_node dst g)); [discriminate|].
  intros [= <-].
  assert (Hmap : forall l0 : edge_list, map copy_edge l0 = l0).
  { intros l0. induction l0 as [|e l0 IH]; simpl; [reflexivity|].
    rewrite copy_edge_id, IH. reflexivity. }
  rewrite Hmap.
  assert (Hsrc : ordered (map_get src g) = true).
  { unfold map_get. destruct (map_find src g) as [l0|] eqn:Hf; [|reflexivity].
    apply map_find_In in Hf. unfold well_ordered in Hg. rewrite forallb_forall in Hg.
    apply (Hg _ Hf). }
  pose proof (ordered_filter (fun e => equal (snd (get_nodes e)) dst) _ Hsrc) as Hf.
  unfold ordered in Hf. apply andb_true_iff in Hf. destruct Hf as [Hc Hd].
  split; [exact Hc|]. split; [exact Hd|].
  intros e He. apply filter_In in He. destruct He as [Hin Hto].
  apply equal_spec in Hto. split; assumption.
Qed.

(** ** Erasing by value *)

(** X9.  [erase_node] of a value that is no node returns [false] and
    changes nothing.  Of a node it returns [true]; afterwards the value is
    no node, no edge of the graph leads to it, and every other node keeps
    its edges to other destinations, in their order. *)
Theorem erase_node_result (v : N) (g : graph) :
  map_ok g = true ->
  (is_node v g = false -> erase_node v g = (Ok false, g))
  /\ (is_node v g = true ->
      exists g',
        erase_node v g = (Ok true, g')
        /\ is_node v g' = false
        /\ (forall n, equal n v = false ->
              map_find n g'
              = option_map (filter (fun e => negb (equal (snd (get_nodes e)) v))) (map_find n g))
        /\ (forall entry e, In entry g' -> In e (snd entry) -> snd (get_nodes e) <> v)).
Proof.
  intros Hok. unfold erase_node. rewrite bind_get. split; intros Hv; rewrite Hv; [reflexivity|].
  cbn [negb]. rewrite !bind_modify. eexists. split; [reflexivity|].
  set (f := filter (fun e : edge => negb (equal (snd (get_nodes e)) v))).
  pose proof (map_all_ok f g Hok) as Hok1.
  split; [|split].
  - unfold is_node. rewrite (map_find_erase v v _ Hok1), equal_refl. reflexivity.
  - intros n Hn. rewrite (map_find_erase v n _ Hok1), Hn. apply map_find_all.
  - intros entry e Hin He. apply In_map_erase in Hin. unfold map_all in Hin.
    apply in_map_iff in Hin. destruct Hin as ([n l] & <- & _). simpl in He.
    unfold f in He. apply filter_In in He. destruct He as [_ He].
    apply negb_true_iff, equal_false in He. exact He.
Qed.

Lemma length_filter_all {A} (p : A -> bool) (l : list A) :
  (length (filter (fun x => negb (p x)) l) =? length l) = negb (existsb p l).
Proof.
  induction l as [|x l IH]; simpl; [reflexivity|].
  destruct (p x); simpl.
  - pose proof (filter_length_le (fun x => negb (p x)) l).
    apply Nat.eqb_neq. lia.
  - exact IH.
Qed.

Lemma existsb_filter_negb {A} (p : A -> bool) (l : list A) :
  existsb p (filter (fun x => negb (p x)) l) = false.
Proof.
  induction l as [|x l IH]; simpl; [reflexivity|].
  destruct (p x) eqn:Hp; simpl; [exact IH|]. rewrite Hp, IH. reflexivity.
Qed.

Lemma find_edge_pred_erase (dst : N) (w : option E) (e : edge) :
  find_edge_pred dst w e = true -> erase_edge_pred dst w e = true.
Proof.
  unfold find_edge_pred, erase_edge_pred.
  destruct (equal (snd (get_nodes e)) dst); simpl; [|discriminate].
  destruct (is_weighted e); simpl; [|reflexivity].
  rewrite !orb_false_r. tauto.
Qed.

(** X10.  [erase_edge(src, dst, w)] on two nodes returns [true] exactly
    when [src] has an edge to [dst] that is unweighted or has weight [w].
    Afterwards [src] has no such edge, so none with the weight-signature
    asked for; the other nodes are as before, and a call that returns
    [false] changes nothing. *)
Theorem erase_edge_result (src dst : N) (w : option E) (g : graph) :
  is_node src g = true ->
  is_node dst g = true ->
  exists g',
    erase_edge src dst w g = (Ok (existsb (erase_edge_pred dst w) (map_get src g)), g')
    /\ map_get src g' = filter (fun e => negb (erase_edge_pred dst w e)) (map_get src g)
    /\ edge_exists (map_get src g') dst w = false
    /\ (forall n, equal n src = false -> map_find n g' = map_find n g)
    /\ (existsb (erase_edge_pred dst w) (map_get src g) = false -> g' = g).
Proof.
  intros Hs Hd. unfold erase_edge. rewrite bind_get, Hs, Hd. cbn [negb orb].
  rewrite bind_gets. cbv zeta. rewrite length_filter_all.
  assert (Hnone : forall l : edge_list,
            existsb (erase_edge_pred dst w) l = false -> edge_exists l dst w = false).
  { intros l Hl. unfold edge_exists. destruct (existsb (find_edge_pred dst w) l) eqn:Hex;
      [|reflexivity].
    apply existsb_exists in Hex. destruct Hex as (e & Hin & He).
    rewrite <- Hl. symmetry. apply existsb_exists. exists e. split; [exact Hin|].
    apply find_edge_pred_erase. exact He. }
  destruct (existsb (erase_edge_pred dst w) (map_get src g)) eqn:Hex; simpl.
  - rewrite bind_modify. eexists. split; [reflexivity|].
    rewrite (map_get_modify _ _ _ Hs).
    split; [reflexivity|]. split; [apply Hnone, existsb_filter_negb|].
    split; [|discriminate].
    intros n Hn. rewrite map_find_modify, Hn. reflexivity.
  - exists g. split; [reflexivity|].
    assert (Hsame : filter (fun e => negb (erase_edge_pred dst w e)) (map_get src g)
                    = map_get src g).
    { apply forallb_filter_id. apply forallb_forall. intros e He.
      destruct (erase_edge_pred dst w e) eqn:Hp; [|reflexivity].
      simpl. rewrite <- Hex. apply existsb_exists. exists e. split; assumption. }
    split; [symmetry; exact Hsame|]. split; [apply Hnone, Hex|]. split; auto.
Qed.

(** ** Merging a node into itself *)

Lemma spec_redirect_same (x : N) (e : edge) : spec_redirect x x e = e.
Proof.
  destruct e as [f t w|f t]; simpl; by_equal t x; reflexivity.
Qed.

(** X11.  [merge_replace_node(x, x)] on a node [x] returns, and erases
    [x]: afterwards [x] is no node, while every other node keeps its vector
    as it was, edges to [x] included. *)
Theorem merge_replace_node_same (x : N) (g : graph) :
  map_ok g = true ->
  is_node x g = true ->
  exists g',
    merge_replace_node x x g = (Ok tt, g')
    /\ is_node x g' = false
    /\ (forall n, equal n x = false -> map_find n g' = map_find n g).
Proof.
  intros Hok Hx. exists (merge_replace_node_spec x x g).
  split; [apply merge_replace_node_refines; assumption|].
  split; [apply merge_replace_node_spec_old|].
  intros n Hn. rewrite merge_replace_node_spec_find, Hn.
  destruct (map_find n g) as [l|]; [|reflexivity]. simpl. f_equal.
  apply map_fixes. intros e _. apply spec_redirect_same.
Qed.

(** ** When the member functions raise *)

Ltac no_throw_step :=
  lazymatch goal with
  | |- never_throws (ret _) => apply never_ret
  | |- never_throws undefined => apply never_undefined
  | |- never_throws (gets _) => apply never_gets
  | |- never_throws (modify _) => apply never_modify
  | |- never_throws (bind get _) => apply never_bind_get; intros ?
  | |- never_throws (bind _ _) => apply never_bind; [|intros ?]
  | |- never_throws (for_each _ _) => apply never_for_each; intros ?
  | |- never_throws (if ?b then _ else _) => destruct b
  | |- never_throws (let _ := _ in _) => cbv zeta
  end.

Ltac no_throw := repeat no_throw_step.

Lemma guarded_raises {A} (guard : graph -> bool) (x : exception) (body : M N E A)
      (g : graph) (e : exception) :
  never_throws body ->
  fst ((g0 <- get ;; if guard g0 then throw x else body) g) = Throw e
  <-> e = x /\ guard g = true.
Proof.
  intros Hbody. rewrite bind_get. destruct (guard g); simpl.
  - split; [intros [= ->]; auto | intros [-> _]; reflexivity].
  - split; [|intros [_ H]; discriminate].
    intros H. exfalso. destruct (body g) as [r g'] eqn:Hb. simpl in H. subst r.
    exact (Hbody _ _ _ Hb).
Qed.

Lemma absent_either (a b : bool) : negb a || negb b = true <-> a = false \/ b = false.
Proof. destruct a, b; simpl; intuition congruence. Qed.

(** X12.  The member functions that address nodes by value raise exactly
    when a node they name is absent, and then it is the node-not-found
    error: [insert_edge], [erase_edge] by value, [merge_replace_node],
    [is_connected] and [edges] when [src] or [dst] is no node,
    [replace_node] when the old value is no node (whatever the new one is),
    [connections] when [src] is no node. *)
Theorem node_not_found_exactly (src dst : N) (w : option E) (g : graph) (e : exception) :
  (fst (insert_edge src dst w g) = Throw e
   <-> e = NodeNotFound /\ (is_node src g = false \/ is_node dst g = false))
  /\ (fst (erase_edge src dst w g) = Throw e
      <-> e = NodeNotFound /\ (is_node src g = false \/ is_node dst g = false))
  /\ (fst (merge_replace_node (E:=E) src dst g) = Throw e
      <-> e = NodeNotFound /\ (is_node src g = false \/ is_node dst g = false))
  /\ (fst (replace_node (E:=E) src dst g) = Throw e
      <-> e = NodeNotFound /\ is_node src g = false)
  /\ (is_connected src dst g = Throw e
      <-> e = NodeNotFound /\ (is_node src g = false \/ is_node dst g = false))
  /\ (edges src dst g = Throw e
      <-> e = NodeNotFound /\ (is_node src g = false \/ is_node dst g = false))
  /\ (connections src g = Throw e <-> e = NodeNotFound /\ is_node src g = false).
Proof.
  assert (Hboth : forall {A} (body : M N E A), never_throws body ->
            fst ((g0 <- get ;;
                  if negb (is_node src g0) || negb (is_node dst g0)
                  then throw NodeNotFound else body) g) = Throw e
            <-> e = NodeNotFound /\ (is_node src g = false \/ is_node dst g = false)).
  { intros A body Hbody.
    etransitivity;
      [apply (guarded_raises (fun g0 => negb (is_node src g0) || negb (is_node dst g0)));
       exact Hbody|].
    rewrite absent_either. tauto. }
  split; [|split; [|split; [|split; [|split; [|split]]]]].
  - unfold insert_edge. apply Hboth. no_throw.
  - unfold erase_edge. apply Hboth. no_throw.
  - unfold merge_replace_node. apply Hboth. no_throw.
  - unfold replace_node.
    etransitivity;
      [apply (guarded_raises (fun g0 => negb (is_node src g0)));
       unfold replace_outgoing_edges, replace_incoming_edges; no_throw|].
    rewrite negb_true_iff. tauto.
  - unfold is_connected, edges. rewrite <- absent_either.
    destruct (negb (is_node src g) || negb (is_node dst g)).
    + split; [intros [= <-]; auto | intros [-> _]; reflexivity].
    + split; [discriminate | intros [_ H]; discriminate].
  - unfold edges. rewrite <- absent_either.
    destruct (negb (is_node src g) || negb (is_node dst g)).
    + split; [intros [= <-]; auto | intros [-> _]; reflexivity].
    + split; [discriminate | intros [_ H]; discriminate].
  - unfold connections. destruct (is_node src g); simpl.
    + split; [destruct (map_find src g); discriminate | intros [_ H]; discriminate].
    + split; [intros [= <-]; auto | intros [-> _]; reflexivity].
Qed.

Lemma points_at_edge_fields (g : graph) (it : iterator) :
  points_at_edge g it = true ->
  exists n l k,
    nth_error g (node_it_ it) = Some (n, l) /\ edge_it_ it = Some k /\ k < length l.
Proof.
  unfold points_at_edge.
  destruct (nth_error g (node_it_ it)) as [[n l]|]; [|discriminate].
  destruct (edge_it_ it) as [k|]; [|discriminate].
  intros H. apply Nat.ltb_lt in H. exists n, l, k. auto.
Qed.

Lemma points_at_edge_not_end (g : graph) (it other : iterator) :
  points_at_edge g it = true -> iterator_equal it (end_ g) = false.
Proof.
  intros H. destruct (points_at_edge_fields g it H) as (n & l & k & Hn & _ & _).
  rewrite end_fields. unfold iterator_equal. simpl.
  assert (node_it_ it < length g) by (apply nth_error_Some; congruence).
  destruct (node_it_ it =? length g) eqn:He; [apply Nat.eqb_eq in He; lia | reflexivity].
Qed.

(** X13.  For two iterators that point at edges, the two-iterator
    [erase_edge] raises exactly when the position of [i] inside its vector
    is greater than the position of [s] inside its own, and then it is the
    invalid-range error and the graph is unchanged. *)
Theorem invalid_range_exactly (i s : iterator) (g : graph) (e : exception) :
  points_at_edge g i = true ->
  points_at_edge g s = true ->
  (fst (erase_edge_range i s g) = Throw e
   <-> e = InvalidRange
       /\ exists ki ks, edge_it_ i = Some ki /\ edge_it_ s = Some ks /\ ks < ki)
  /\ (fst (erase_edge_range i s g) = Throw e -> snd (erase_edge_range i s g) = g).
Proof.
  intros Hi Hs.
  assert (Hthrow : fst (erase_edge_range i s g) = Throw e -> snd (erase_edge_range i s g) = g).
  { destruct (erase_edge_range i s g) as [r g'] eqn:H. simpl. intros ->.
    eapply erase_edge_range_throw. exact H. }
  split; [|exact Hthrow].
  pose proof (points_at_edge_not_end g i s Hi) as Hend.
  destruct (points_at_edge_fields g i Hi) as (ni & li & ki & Hni & Hki & _).
  destruct (points_at_edge_fields g s Hs) as (ns & ls & ks & Hns & Hks & _).
  unfold erase_edge_range. rewrite bind_get, Hend, andb_false_r.
  unfold index. rewrite Hni, Hki, Hns, Hks. unfold bind, lift. cbv beta iota.
  destruct (ks <? ki) eqn:Hlt; cbv beta.
  2: remember (erase_range_loop (S (edge_count g)) i s g) as loop eqn:Hl; symmetry in Hl.
  - apply Nat.ltb_lt in Hlt. split.
    + intros [= <-]. split; [reflexivity|]. exists ki, ks. auto.
    + intros [-> _]. reflexivity.
  - apply Nat.ltb_ge in Hlt. split.
    + destruct loop as [[[u|e1|] g1]|]; simpl; intros H; try discriminate H.
      exfalso. exact (erase_range_loop_no_throw _ _ _ _ _ _ Hl).
    + intros [_ (ki' & ks' & [= <-] & [= <-] & H)]. lia.
Qed.

(** ** [replace_node] *)

Lemma is_node_find (n : N) (g : graph) :
  is_node n g = match map_find n g with Some _ => true | None => false end.
Proof. reflexivity. Qed.

Lemma replace_outgoing_loop (new_data : N) (old_edges : edge_list) :
  forall g : graph,
    map_ok g = true ->
    is_node new_data g = true ->
    for_each old_edges (fun e =>
      modify (map_touch new_data) ;;
      modify (map_modify new_data
                (fun l => l ++ [create_edge new_data (snd (get_nodes e)) (get_weight e)]))) g
    = (Ok tt,
       map_modify new_data
         (fun l => l ++ map (fun e => create_edge new_data (snd (get_nodes e)) (get_weight e))
                            old_edges) g).
Proof.
  induction old_edges as [|e old_edges IH]; intros g Hok Hnew; simpl.
  - unfold ret. f_equal. rewrite <- (map_modify_id new_data g) at 1.
    apply map_modify_get. rewrite app_nil_r. reflexivity.
  - rewrite (bind_ok _ _ g
               (map_modify new_data
                  (fun l => l ++ [create_edge new_data (snd (get_nodes e)) (get_weight e)]) g)
               tt).
    + rewrite IH; [|apply map_modify_ok; exact Hok | rewrite is_node_modify; exact Hnew].
      f_equal. rewrite map_modify_compose. apply map_modify_get.
      rewrite <- app_assoc. reflexivity.
    + rewrite bind_modify, (map_touch_node _ _ Hok Hnew). reflexivity.
Qed.

Lemma rename_create (old_data new_data t : N) (w : option E) :
  equal new_data old_data = false ->
  rename_endpoints old_data new_data (create_edge new_data t w)
  = create_edge new_data (if equal t old_data then new_data else t) w.
Proof.
  intros Hne. unfold rename_endpoints. destruct w as [w0|]; simpl; rewrite Hne; simpl;
    destruct (equal t old_data); reflexivity.
Qed.

Lemma replace_node_lookup (old_data new_data : N) (g : graph) :
  map_ok g = true ->
  is_node old_data g = true ->
  (is_node new_data g = true -> replace_node old_data new_data g = (Ok false, g))
  /\ (is_node new_data g = false ->
      exists g',
        replace_node old_data new_data g = (Ok true, g')
        /\ forall n,
             map_find n g' =
             if equal n new_data then
               Some (sort_edges
                       (map (fun e =>
                               create_edge new_data
                                 (if equal (snd (get_nodes e)) old_data then new_data
                                  else snd (get_nodes e))
                                 (get_weight e))
                            (map_get old_data g)))
             else if equal n old_data then None
             else option_map (map (rename_endpoints old_data new_data)) (map_find n g)).
Proof.
  intros Hok Hold. unfold replace_node. rewrite bind_get, Hold. cbn [negb].
  split; intros Hnew; rewrite Hnew; [reflexivity|].
  assert (Hne : equal new_data old_data = false).
  { apply equal_false. intros ->. congruence. }
  assert (Hne' : equal old_data new_data = false) by (rewrite equal_sym; exact Hne).
  set (recreate := fun e : edge => create_edge new_data (snd (get_nodes e)) (get_weight e)).
  set (g1 := map_touch new_data g).
  set (g2 := map_modify new_data (fun _ => []) g1).
  assert (Hok1 : map_ok g1 = true) by (apply map_emplace_ok; exact Hok).
  assert (Hok2 : map_ok g2 = true) by (apply map_modify_ok; exact Hok1).
  assert (Hf1 : forall n, map_find n g1
                          = if equal n new_data then Some [] else map_find n g).
  { intros n. unfold g1, map_touch. rewrite (map_find_emplace new_data n [] g Hok).
    unfold is_node in Hnew. destruct (map_find new_data g); [discriminate | reflexivity]. }
  assert (Hf2 : forall n, map_find n g2
                          = if equal n new_data then Some [] else map_find n g).
  { intros n. unfold g2. rewrite map_find_modify, Hf1.
    destruct (equal n new_data); reflexivity. }
  assert (Hold2 : is_node old_data g2 = true).
  { rewrite is_node_find, Hf2, Hne'. exact Hold. }
  assert (Hnew2 : is_node new_data g2 = true).
  { rewrite is_node_find, Hf2, equal_refl. reflexivity. }
  assert (Hget : map_get old_data g2 = map_get old_data g).
  { unfold map_get. rewrite Hf2, Hne'. reflexivity. }
  set (g3 := map_modify new_data (fun l => l ++ map recreate (map_get old_data g)) g2).
  assert (Hout : replace_outgoing_edges old_data new_data g2 = (Ok tt, g3)).
  { assert (Hcount : (0 <? map_count old_data g2) = true).
    { unfold map_count. rewrite is_node_find in Hold2.
      destruct (map_find old_data g2); [reflexivity | discriminate]. }
    unfold replace_outgoing_edges. rewrite bind_get, Hcount.
    rewrite bind_modify, (map_touch_node _ _ Hok2 Hold2), bind_gets, Hget.
    apply (replace_outgoing_loop new_data (map_get old_data g) g2 Hok2 Hnew2). }
  set (g4 := map_all (map (rename_endpoints old_data new_data)) g3).
  set (g5 := map_erase old_data g4).
  assert (Hok3 : map_ok g3 = true) by (apply map_modify_ok; exact Hok2).
  assert (Hok4 : map_ok g4 = true) by (apply map_all_ok; exact Hok3).
  assert (Hok5 : map_ok g5 = true) by (apply map_erase_ok; exact Hok4).
  assert (Hf5 : forall n, map_find n g5 =
                  if equal n old_data then None
                  else if equal n new_data then
                         Some (map (rename_endpoints old_data new_data)
                                   (map recreate (map_get old_data g)))
                       else option_map (map (rename_endpoints old_data new_data))
                                       (map_find n g)).
  { intros n. unfold g5. rewrite (map_find_erase old_data n g4 Hok4).
    destruct (equal n old_data); [reflexivity|].
    unfold g4. rewrite map_find_all. unfold g3. rewrite map_find_modify, Hf2.
    destruct (equal n new_data); reflexivity. }
  assert (Hnew5 : is_node new_data g5 = true).
  { rewrite is_node_find, Hf5, Hne, equal_refl. reflexivity. }
  exists (map_modify new_data sort_edges g5). split.
  - rewrite bind_modify. fold g1. rewrite bind_modify. fold g2.
    rewrite (bind_ok _ _ g2 g3 tt Hout).
    unfold replace_incoming_edges. rewrite bind_modify. fold g4.
    rewrite bind_modify. fold g5.
    rewrite bind_modify, (map_touch_node _ _ Hok5 Hnew5), bind_modify. reflexivity.
  - intros n. rewrite map_find_modify, Hf5.
    by_equal n new_data.
    + rewrite Hne. simpl. do 2 f_equal. rewrite map_map. apply map_ext.
      intros e. unfold recreate. apply rename_create. exact Hne.
    + reflexivity.
Qed.

(** X14.  [replace_node(old, new)] on a node [old] returns [false] and
    changes nothing when [new] is a node.  Otherwise it returns [true];
    afterwards [old] is no node, [new] holds the edges [old] had, with [new]
    as source and every destination [old] turned into [new], sorted; and
    every other node holds its edges with the endpoints [old] renamed, in
    the order they had. *)
Theorem replace_node_result (old_data new_data : N) (g : graph) :
  map_ok g = true ->
  is_node old_data g = true ->
  (is_node new_data g = true -> replace_node old_data new_data g = (Ok false, g))
  /\ (is_node new_data g = false ->
      exists g',
        replace_node old_data new_data g = (Ok true, g')
        /\ forall n,
             map_find n g' =
             if equal n new_data then
               Some (sort_edges
                       (map (fun e =>
                               create_edge new_data
                                 (if equal (snd (get_nodes e)) old_data then new_data
                                  else snd (get_nodes e))
                                 (get_weight e))
                            (map_get old_data g)))
             else if equal n old_data then None
             else option_map (map (rename_endpoints old_data new_data)) (map_find n g)).
Proof. intros. apply replace_node_lookup; assumption. Qed.

(** ** Traversal *)

Lemma skipn_cons_inv {A} (l : list A) :
  forall (p : nat) (x : A) (rest : list A),
    skipn p l = x :: rest ->
    nth_error l p = Some x /\ skipn (S p) l = rest /\ p < length l.
Proof.
  induction l as [|y l IH]; intros [|p] x rest H; simpl in *; try discriminate.
  - injection H as -> ->. repeat split. lia.
  - destruct (IH p x rest H) as (H1 & H2 & H3). repeat split; auto. lia.
Qed.

Lemma skipn_nil_inv {A} (l : list A) : forall p, skipn p l = [] -> length l <= p.
Proof.
  induction l as [|y l IH]; intros [|p] H; simpl in *; try discriminate; try lia.
  specialize (IH p H). lia.
Qed.

(** Where the loop of the constructor and of [operator++] stops: on the
    same remaining sequence, at [end()] or at an edge. *)
Lemma skip_exhausted_rest (entries : graph) :
  forall (g : graph) (p k : nat),
    skipn p g = entries ->
    p <= length g ->
    match entries with (_, l) :: _ => k <= length l | [] => True end ->
    let r := skip_exhausted p (Some k) entries in
    rest_in (skipn (fst r) g) (snd r) = rest_in entries (Some k)
    /\ (fst r = length g
        \/ exists n l k', nth_error g (fst r) = Some (n, l) /\ snd r = Some k' /\ k' < length l).
Proof.
  induction entries as [|[n l] rest IH]; intros g p k Hs Hp Hk; simpl.
  - rewrite Hs. split; [reflexivity|]. left. apply skipn_nil_inv in Hs. lia.
  - destruct (skipn_cons_inv g p _ _ Hs) as (Hn & Hrest & Hlt).
    destruct (k =? length l) eqn:Hkl.
    + apply Nat.eqb_eq in Hkl. subst k.
      destruct rest as [|[n' l'] rest'].
      * cbn [skip_exhausted fst snd]. rewrite Hrest. cbn [rest_in].
        rewrite skipn_all. split; [reflexivity|].
        left. apply skipn_nil_inv in Hrest. lia.
      * destruct (IH g (S p) 0 Hrest Hlt (Nat.le_0_l _)) as [H1 H2].
        split; [|exact H2].
        rewrite H1. cbn [rest_in flatten flat_map fst snd]. rewrite skipn_all. reflexivity.
    + simpl. rewrite Hs. split; [reflexivity|]. right.
      apply Nat.eqb_neq in Hkl. exists n, l, k. repeat split; auto. lia.
Qed.

Lemma well_placed_cases (g : graph) (it : iterator) :
  well_placed g it = true ->
  node_end_ it = length g
  /\ (node_it_ it = length g
      \/ exists n l k,
           nth_error g (node_it_ it) = Some (n, l) /\ edge_it_ it = Some k /\ k < length l).
Proof.
  unfold well_placed. rewrite andb_true_iff, orb_true_iff, !Nat.eqb_eq.
  intros [He [H | H]]; split; auto. right. apply points_at_edge_fields. exact H.
Qed.

Lemma well_placed_intro (g : graph) (p : nat) (e : option nat) :
  (p = length g \/ exists n l k, nth_error g p = Some (n, l) /\ e = Some k /\ k < length l) ->
  well_placed g {| node_it_ := p; node_end_ := length g; edge_it_ := e |} = true.
Proof.
  intros H. unfold well_placed, points_at_edge. simpl. rewrite Nat.eqb_refl. simpl.
  destruct H as [-> | (n & l & k & Hn & -> & Hk)].
  - rewrite Nat.eqb_refl. reflexivity.
  - rewrite Hn. apply Nat.ltb_lt in Hk. rewrite Hk. apply orb_true_r.
Qed.

Lemma at_end_rest (g : graph) (it : iterator) :
  node_end_ it = length g ->
  node_it_ it = length g ->
  iterator_equal it (end_ g) = true /\ rest_from g it = [].
Proof.
  intros He Hn. rewrite end_fields. unfold iterator_equal, rest_from. simpl.
  rewrite Hn, He, Nat.eqb_refl, skipn_all. split; reflexivity.
Qed.

(** One step of a traversal from an iterator that points at an edge. *)
Lemma traversal_step (g : graph) (it : iterator) :
  well_placed g it = true ->
  node_it_ it <> length g ->
  exists v it',
    deref g it = Ok v /\ incr g it = Ok it'
    /\ rest_from g it = v :: rest_from g it'
    /\ well_placed g it' = true
    /\ iterator_equal it (end_ g) = false.
Proof.
  intros Hw Hne. destruct (well_placed_cases g it Hw) as [Hend [H | (n & l & k & Hn & Hk & Hlt)]];
    [contradiction|].
  destruct (nth_error_skipn g _ _ Hn) as [rest Hs].
  assert (Hp : node_it_ it < length g) by (apply nth_error_Some; congruence).
  destruct (nth_error l k) as [e|] eqn:He; [|apply nth_error_None in He; lia].
  pose proof (skip_exhausted_rest _ g (node_it_ it) (S k) Hs (Nat.lt_le_incl _ _ Hp)) as Hskip.
  specialize (Hskip Hlt). cbv zeta in Hskip.
  destruct Hskip as [Hrest Hplace].
  unfold deref, incr. rewrite Hn, Hk, He. apply Nat.ltb_lt in Hlt. rewrite Hlt, Hs.
  destruct (skip_exhausted (node_it_ it) (Some (S k)) ((n, l) :: rest)) as [p' e'] eqn:Hsk.
  cbn [fst snd rest_in] in Hrest, Hplace.
  eexists. eexists. split; [reflexivity|]. split; [reflexivity|].
  split; [|split].
  - unfold rest_from. cbn [node_it_ edge_it_]. rewrite Hrest, Hs, Hk. cbn [rest_in].
    destruct (nth_error_skipn l k _ He) as [tail Ht].
    assert (Ht' : skipn (S k) l = tail) by (apply (skipn_cons_inv l k _ _ Ht)).
    rewrite Ht, Ht'. reflexivity.
  - rewrite Hend. apply well_placed_intro. exact Hplace.
  - rewrite end_fields. unfold iterator_equal. simpl.
    destruct (node_it_ it =? length g) eqn:Hx; [apply Nat.eqb_eq in Hx; lia | reflexivity].
Qed.

Lemma begin_well_placed (g : graph) :
  well_placed g (begin g) = true /\ rest_from g (begin g) = flatten g.
Proof.
  unfold begin, make_iterator. destruct (0 =? length g) eqn:H0.
  - apply Nat.eqb_eq in H0. destruct g; [|discriminate]. split; reflexivity.
  - pose proof (skip_exhausted_rest g g 0 0 eq_refl (Nat.le_0_l _)) as Hskip.
    assert (Hk : match g with (_, l) :: _ => 0 <= length l | [] => True end)
      by (destruct g as [|[n l] g']; [exact I | lia]).
    specialize (Hskip Hk). cbv zeta in Hskip. destruct Hskip as [Hrest Hplace].
    cbn [skipn].
    destruct (skip_exhausted 0 (Some 0) g) as [p' e'] eqn:Hsk. cbn [fst snd] in *.
    split; [apply well_placed_intro; exact Hplace|].
    unfold rest_from. cbn [node_it_ edge_it_]. rewrite Hrest.
    destruct g as [|[n l] g']; reflexivity.
Qed.

Lemma length_flatten (g : graph) : length (flatten g) = edge_count g.
Proof.
  unfold flatten. induction g as [|[n l] g IH]; simpl; [reflexivity|].
  rewrite length_app, length_map, IH. reflexivity.
Qed.

Lemma iterate_loop_rest (fuel : nat) (g : graph) :
  forall it : iterator,
    well_placed g it = true ->
    length (rest_from g it) < fuel ->
    iterate_loop fuel g it = Some (Ok (rest_from g it)).
Proof.
  induction fuel as [|fuel IH]; intros it Hw Hfuel; [lia|].
  simpl. destruct (Nat.eq_dec (node_it_ it) (length g)) as [He | Hne].
  - destruct (well_placed_cases g it Hw) as [Hend _].
    destruct (at_end_rest g it Hend He) as [H1 H2]. rewrite H1, H2. reflexivity.
  - destruct (traversal_step g it Hw Hne) as (v & it' & Hd & Hi & Hr & Hw' & Hne').
    rewrite Hne', Hd, Hi. simpl. rewrite Hr in *. simpl in Hfuel.
    rewrite (IH it' Hw') by lia. reflexivity.
Qed.

(** X15.  The loop [for (auto it = g.begin(); it != g.end(); ++it)]
    visits the edges of the graph in the flattened order: node by node in
    ascending order, each node's edges in the order of its vector, nodes
    without edges skipped; it visits as many edges as the graph holds. *)
Theorem iterate_flatten (g : graph) :
  iterate g = Ok (flatten g) /\ length (flatten g) = edge_count g.
Proof.
  split; [|apply length_flatten].
  unfold iterate. destruct (begin_well_placed g) as [Hw Hr].
  rewrite (iterate_loop_rest (S (edge_count g)) g (begin g) Hw).
  - rewrite Hr. reflexivity.
  - rewrite Hr, length_flatten. lia.
Qed.

(** ** [operator==] and copies *)

Lemma value_equal_spec (a b : value_type) : value_equal a b = true <-> a = b.
Proof.
  unfold value_equal, value_differs. destruct a as [fa ta wa], b as [fb tb wb]. simpl.
  rewrite negb_true_iff, !orb_false_iff, !negb_false_iff.
  rewrite !equal_spec, optional_equal_spec.
  split; [intros [[-> ->] ->]; reflexivity | intros [= -> -> ->]; auto].
Qed.

Lemma values_equal_spec (l1 : list value_type) :
  forall l2, values_equal l1 l2 = true <-> l1 = l2.
Proof.
  induction l1 as [|a l1 IH]; intros [|b l2]; simpl; try (split; congruence).
  rewrite andb_true_iff, value_equal_spec, IH. split; [intros [-> ->]; reflexivity|].
  intros [= -> ->]. auto.
Qed.

Lemma equal_loop_rest (fuel : nat) (g1 g2 : graph) :
  forall it1 it2 : iterator,
    well_placed g1 it1 = true ->
    well_placed g2 it2 = true ->
    length (rest_from g1 it1) < fuel ->
    equal_loop fuel g1 g2 it1 it2
    = Some (Ok (values_equal (rest_from g1 it1) (rest_from g2 it2))).
Proof.
  induction fuel as [|fuel IH]; intros it1 it2 Hw1 Hw2 Hfuel; [lia|].
  simpl.
  destruct (Nat.eq_dec (node_it_ it1) (length g1)) as [He1 | Hne1];
    destruct (Nat.eq_dec (node_it_ it2) (length g2)) as [He2 | Hne2].
  - destruct (at_end_rest g1 it1 (proj1 (well_placed_cases _ _ Hw1)) He1) as [-> ->].
    destruct (at_end_rest g2 it2 (proj1 (well_placed_cases _ _ Hw2)) He2) as [-> ->].
    reflexivity.
  - destruct (at_end_rest g1 it1 (proj1 (well_placed_cases _ _ Hw1)) He1) as [-> ->].
    destruct (traversal_step g2 it2 Hw2 Hne2) as (v & it' & _ & _ & -> & _ & ->).
    reflexivity.
  - destruct (traversal_step g1 it1 Hw1 Hne1) as (v & it' & _ & _ & -> & _ & ->).
    destruct (at_end_rest g2 it2 (proj1 (well_placed_cases _ _ Hw2)) He2) as [-> ->].
    reflexivity.
  - destruct (traversal_step g1 it1 Hw1 Hne1) as (v1 & it1' & Hd1 & Hi1 & Hr1 & Hw1' & Hn1).
    destruct (traversal_step g2 it2 Hw2 Hne2) as (v2 & it2' & Hd2 & Hi2 & Hr2 & Hw2' & Hn2).
    rewrite Hn1, Hn2, Hd1, Hd2, Hi1, Hi2, Hr1, Hr2. simpl.
    unfold value_equal. destruct (value_differs v1 v2); [reflexivity|].
    simpl. apply IH; auto. rewrite Hr1 in Hfuel. simpl in Hfuel. lia.
Qed.

Lemma graph_equal_flatten (g1 g2 : graph) :
  graph_equal g1 g2
  = Ok ((length (nodes g1) =? length (nodes g2))
        && values_equal (flatten g1) (flatten g2))
  /\ (graph_equal g1 g2 = Ok true
      <-> length (nodes g1) = length (nodes g2) /\ flatten g1 = flatten g2).
Proof.
  assert (H : graph_equal g1 g2
              = Ok ((length (nodes g1) =? length (nodes g2))
                    && values_equal (flatten g1) (flatten g2))).
  { unfold graph_equal, nodes. rewrite !length_map.
    destruct (length g1 =? length g2); [|reflexivity]. cbn [negb andb].
    destruct (begin_well_placed g1) as [Hw1 Hr1].
    destruct (begin_well_placed g2) as [Hw2 Hr2].
    rewrite (equal_loop_rest (S (edge_count g1)) g1 g2 _ _ Hw1 Hw2).
    - rewrite Hr1, Hr2. reflexivity.
    - rewrite Hr1, length_flatten. lia. }
  split; [exact H|]. rewrite H.
  split.
  - intros [= Heq]. apply andb_true_iff in Heq. destruct Heq as [Hl Hv].
    apply Nat.eqb_eq in Hl. apply values_equal_spec in Hv. auto.
  - intros [Hl Hv]. rewrite Hl, Nat.eqb_refl, Hv.
    rewrite (proj2 (values_equal_spec (flatten g2) (flatten g2)) eq_refl). reflexivity.
Qed.

(** X16.  [operator==] returns [true] exactly when the two graphs have
    the same number of nodes and the same flattened edge sequence; the
    values of nodes without outgoing edges play no part. *)
Theorem graph_equal_exactly (g1 g2 : graph) :
  graph_equal g1 g2
  = Ok ((length (nodes g1) =? length (nodes g2))
        && values_equal (flatten g1) (flatten g2))
  /\ (graph_equal g1 g2 = Ok true
      <-> length (nodes g1) = length (nodes g2) /\ flatten g1 = flatten g2).
Proof. intros. apply graph_equal_flatten; assumption. Qed.

Lemma map_ok_app_less (acc rest : graph) (k : N) (l : edge_list) :
  map_ok (acc ++ (k, l) :: rest) = true ->
  forall entry, In entry acc -> less (fst entry) k = true.
Proof.
  induction acc as [|[n0 l0] acc IH]; intros Hok entry Hin; [destruct Hin|].
  simpl app in Hok. apply map_ok_cons in Hok. destruct Hok as [Hn0 Hok].
  destruct Hin as [<- | Hin]; [|apply IH; assumption].
  apply (Hn0 (k, l)). apply in_or_app. right. left. reflexivity.
Qed.

Lemma map_emplace_last (k : N) (v : edge_list) (acc : graph) :
  (forall entry, In entry acc -> less (fst entry) k = true) ->
  map_emplace k v acc = acc ++ [(k, v)].
Proof.
  induction acc as [|[n0 l0] acc IH]; intros H; simpl; [reflexivity|].
  pose proof (H (n0, l0) (or_introl eq_refl)) as Hn0. simpl in Hn0.
  rewrite (less_asym _ _ Hn0), Hn0. f_equal. apply IH. intros; apply H; right; assumption.
Qed.

Lemma map_modify_last (k : N) (v : edge_list) (f : edge_list -> edge_list) (acc : graph) :
  (forall entry, In entry acc -> less (fst entry) k = true) ->
  map_modify k f (acc ++ [(k, v)]) = acc ++ [(k, f v)].
Proof.
  induction acc as [|[n0 l0] acc IH]; intros H; simpl.
  - rewrite equal_refl. reflexivity.
  - pose proof (H (n0, l0) (or_introl eq_refl)) as Hn0. simpl in Hn0.
    rewrite (less_not_equal _ _ Hn0). f_equal. apply IH. intros; apply H; right; assumption.
Qed.

Lemma copy_graph_fold (rest : graph) :
  forall acc : graph,
    map_ok (acc ++ rest) = true ->
    fold_left
      (fun g entry =>
         map_modify (fst entry) (fun _ => map copy_edge (snd entry)) (map_touch (fst entry) g))
      rest acc
    = acc ++ rest.
Proof.
  induction rest as [|[k l] rest IH]; intros acc Hok; simpl.
  - rewrite app_nil_r. reflexivity.
  - pose proof (map_ok_app_less acc rest k l Hok) as Hless.
    unfold map_touch. rewrite (map_emplace_last k [] acc Hless).
    rewrite (map_modify_last k [] _ acc Hless).
    assert (Hcopy : map copy_edge l = l).
    { clear. induction l as [|e l IH]; simpl; [reflexivity|].
      rewrite copy_edge_id, IH. reflexivity. }
    rewrite Hcopy, IH; rewrite <- app_assoc; [reflexivity | exact Hok].
Qed.

(** X17.  The copy constructor reproduces the graph: the copy holds the
    same nodes with the same edges in the same order, and compares equal to
    the original under [operator==]. *)
Theorem copy_graph_equal (g : graph) :
  map_ok g = true ->
  copy_graph g = g /\ graph_equal (copy_graph g) g = Ok true.
Proof.
  intros Hok.
  assert (Hcopy : copy_graph g = g) by (apply (copy_graph_fold g []); exact Hok).
  split; [exact Hcopy|]. rewrite Hcopy.
  apply (proj2 (graph_equal_flatten g g)). split; reflexivity.
Qed.

(** ** Stepping back *)

Lemma step_back_unfold (g : graph) (node_end node_it : nat) (edge_it : option nat) :
  step_back g node_end node_it edge_it =
  if (node_it =? node_end) || vector_it_equal edge_it (Some 0) then
    match node_it with
    | 0 => Undefined
    | S node_it' =>
        match nth_error g node_it' with
        | Some (_, l) => step_back g node_end node_it' (Some (length l))
        | None => Undefined
        end
    end
  else match edge_it with Some k => Ok (node_it, k) | None => Undefined end.
Proof. destruct node_it; reflexivity. Qed.

(** Stepping back from [q] over entries without edges down to the entry at
    [p], which has edges. *)
Lemma step_back_through (g : graph) (p : nat) (n : N) (l : edge_list) :
  nth_error g p = Some (n, l) ->
  1 <= length l ->
  forall (q : nat) (e : option nat),
    p < q -> q <= length g ->
    (forall j n' l', p < j -> j < q -> nth_error g j = Some (n', l') -> l' = []) ->
    q = length g \/ e = Some 0 ->
    step_back g (length g) q e = Ok (p, length l).
Proof.
  intros Hn Hl. induction q as [|q IH]; intros e Hpq Hq Hempty Hcond; [lia|].
  rewrite step_back_unfold.
  assert (Hc : (S q =? length g) || vector_it_equal e (Some 0) = true).
  { destruct Hcond as [-> | ->]; [rewrite Nat.eqb_refl; reflexivity | apply orb_true_r]. }
  rewrite Hc.
  destruct (nth_error g q) as [[n' l']|] eqn:Hq'; [|apply nth_error_None in Hq'; lia].
  destruct (Nat.eq_dec q p) as [-> | Hne].
  - rewrite Hn in Hq'. injection Hq' as <- <-.
    rewrite step_back_unfold.
    assert (Hp : (p =? length g) = false) by (apply Nat.eqb_neq; lia).
    rewrite Hp. simpl. destruct (length l) eqn:Hlen; [lia | reflexivity].
  - assert (l' = []) by (apply (Hempty q n' l'); auto; lia). subst l'.
    apply IH; try lia; [|right; reflexivity].
    intros j n0 l0 H1 H2. apply Hempty; lia.
Qed.

(** The loop of [operator++] from the beginning of an entry: it passes
    over entries without edges only, and stops at [end()] or at the
    beginning of a vector. *)
Lemma skip_exhausted_empties (entries : graph) :
  forall (g : graph) (q0 : nat),
    skipn q0 g = entries ->
    q0 <= length g ->
    let r := skip_exhausted q0 (Some 0) entries in
    q0 <= fst r /\ fst r <= length g
    /\ (forall j n' l', q0 <= j -> j < fst r -> nth_error g j = Some (n', l') -> l' = [])
    /\ (fst r = length g \/ snd r = Some 0).
Proof.
  induction entries as [|[n l] rest IH]; intros g q0 Hs Hq0; cbn [skip_exhausted].
  - cbn [fst snd]. apply skipn_nil_inv in Hs.
    split; [lia|]. split; [lia|]. split; [intros; lia | left; lia].
  - destruct (skipn_cons_inv g q0 _ _ Hs) as (Hn & Hrest & Hlt).
    cbn [vector_it_equal]. destruct (0 =? length l) eqn:Hl.
    + assert (Hnext : skip_exhausted (S q0) (match rest with [] => Some 0 | _ :: _ => Some 0 end)
                        rest = skip_exhausted (S q0) (Some 0) rest)
        by (destruct rest; reflexivity).
      rewrite Hnext. destruct (IH g (S q0) Hrest Hlt) as (H1 & H2 & H3 & H4).
      split; [lia|]. split; [lia|]. split; [|exact H4].
      intros j n' l' Hj1 Hj2 Hj. destruct (Nat.eq_dec j q0) as [-> | Hne].
      * rewrite Hn in Hj. injection Hj as _ <-. apply Nat.eqb_eq in Hl.
        destruct l; [reflexivity | discriminate].
      * apply (H3 j n' l'); auto; lia.
    + cbn [fst snd]. split; [lia|]. split; [lia|]. split; [intros; lia | right; reflexivity].
Qed.

(** X18.  [operator--] undoes [operator++]: from an iterator that points
    at an edge, incrementing and then decrementing gives the iterator back,
    also when the increment passed over nodes without edges or reached
    [end()]. *)
Theorem incr_then_decr (g : graph) (it : iterator) :
  points_at_edge g it = true ->
  node_end_ it = length g ->
  exists it', incr g it = Ok it' /\ decr g it' = Ok it.
Proof.
  intros Hpt Hend.
  destruct (points_at_edge_fields g it Hpt) as (n & l & k & Hn & Hk & Hlt).
  destruct (nth_error_skipn g _ _ Hn) as [rest Hs].
  destruct (skipn_cons_inv g _ _ _ Hs) as (_ & Hrest & Hp).
  unfold incr. rewrite Hn, Hk. apply Nat.ltb_lt in Hlt. rewrite Hlt. apply Nat.ltb_lt in Hlt.
  rewrite Hs.
  assert (Hback : step_back g (length g)
                    (fst (skip_exhausted (node_it_ it) (Some (S k)) ((n, l) :: rest)))
                    (snd (skip_exhausted (node_it_ it) (Some (S k)) ((n, l) :: rest)))
                  = Ok (node_it_ it, S k)).
  { cbn [skip_exhausted vector_it_equal]. destruct (S k =? length l) eqn:Hkl.
    - apply Nat.eqb_eq in Hkl.
      destruct rest as [|entry rest'].
      + cbn [skip_exhausted fst snd]. rewrite Hkl.
        apply skipn_nil_inv in Hrest.
        apply (step_back_through g (node_it_ it) n l Hn);
          [lia | lia | lia | intros; lia | left; lia].
      + destruct (skip_exhausted_empties (entry :: rest') g (S (node_it_ it)) Hrest Hp)
          as (H1 & H2 & H3 & H4).
        rewrite Hkl.
        apply (step_back_through g (node_it_ it) n l Hn);
          [lia | lia | lia | intros j n' l' Hj1 Hj2; apply H3; lia | exact H4].
    - cbn [fst snd]. rewrite step_back_unfold.
      assert (Hpe : (node_it_ it =? length g) = false) by (apply Nat.eqb_neq; lia).
      rewrite Hpe. reflexivity. }
  destruct (skip_exhausted (node_it_ it) (Some (S k)) ((n, l) :: rest)) as [p' e'].
  cbn [fst snd] in Hback.
  eexists. split; [reflexivity|].
  unfold decr. cbn [node_it_ node_end_ edge_it_]. rewrite Hend, Hback.
  destruct it as [p ne e]. simpl in *. subst. reflexivity.
Qed.

(** ** Erasing by iterator *)

Lemma vector_erase_firstn_skipn (l : edge_list) :
  forall k, vector_erase k l = firstn k l ++ skipn (S k) l.
Proof.
  induction l as [|x l IH]; intros [|k]; simpl; try reflexivity.
  rewrite IH. reflexivity.
Qed.

Lemma map_modify_at (f : edge_list -> edge_list) (g : graph) :
  forall (p : nat) (n : N) (l : edge_list),
    map_ok g = true ->
    nth_error g p = Some (n, l) ->
    map_modify n f g = firstn p g ++ (n, f l) :: skipn (S p) g.
Proof.
  induction g as [|[n0 l0] g IH]; intros p n l Hok Hn; [destruct p; discriminate|].
  apply map_ok_cons in Hok. destruct Hok as [Hn0 Hok].
  destruct p as [|p]; simpl in *.
  - injection Hn as -> ->. rewrite equal_refl. reflexivity.
  - pose proof (Hn0 _ (nth_error_In _ _ Hn)) as Hlt. simpl in Hlt.
    rewrite (less_not_equal _ _ Hlt). f_equal. apply IH; assumption.
Qed.

Lemma flatten_app (g1 g2 : graph) : flatten (g1 ++ g2) = flatten g1 ++ flatten g2.
Proof. unfold flatten. apply flat_map_app. Qed.

Lemma end_well_placed (g : graph) : well_placed g (end_ g) = true.
Proof. rewrite end_fields. apply well_placed_intro. left. reflexivity. Qed.

Lemma advance_well_placed (g : graph) (index : nat) :
  forall it : iterator,
    well_placed g it = true ->
    exists it', advance g index it = Ok it' /\ well_placed g it' = true.
Proof.
  induction index as [|index IH]; intros it Hw; simpl; [exists it; auto|].
  destruct (Nat.eq_dec (node_it_ it) (length g)) as [He | Hne].
  - destruct (at_end_rest g it (proj1 (well_placed_cases _ _ Hw)) He) as [-> _].
    exists it. auto.
  - destruct (traversal_step g it Hw Hne) as (v & it' & _ & Hi & _ & Hw' & ->).
    simpl. rewrite Hi. apply IH. exact Hw'.
Qed.

(** X19.  [erase_edge(iterator)] on an iterator that points at an edge
    keeps the nodes and removes from the flattened sequence the edge the
    iterator pointed at and no other, whatever the call then yields; an
    iterator it returns is at an edge of the graph or at [end()]. *)
Theorem erase_edge_at_erases (i : iterator) (g g1 : graph) (r : outcome iterator) :
  map_ok g = true ->
  points_at_edge g i = true ->
  erase_edge_at i g = (r, g1) ->
  nodes g1 = nodes g
  /\ flatten g1
     = firstn (flat_position g i) (flatten g) ++ skipn (S (flat_position g i)) (flatten g)
  /\ (forall it', r = Ok it' -> well_placed g1 it' = true).
Proof.
  intros Hok Hpt Hcall.
  destruct (points_at_edge_fields g i Hpt) as (n & l & k & Hn & Hk & Hlt).
  pose proof (points_at_edge_not_end g i i Hpt) as Hend.
  set (g' := map_modify n (vector_erase k) g).
  assert (Hlen : length g' = length g).
  { assert (H : length (map fst g') = length (map fst g))
      by (unfold g'; rewrite map_modify_keys; reflexivity).
    rewrite !length_map in H. exact H. }
  assert (Hp : node_it_ i < length g) by (apply nth_error_Some; congruence).
  assert (Hgraph : g1 = g').
  { destruct (erase_edge_at_graph _ _ _ _ Hcall) as [Hsame | (n1 & k1 & Hmod)].
    - exfalso. revert Hcall. unfold erase_edge_at. rewrite bind_get, Hend, Hn, Hk.
      pose proof Hlt as Hlt'. apply Nat.ltb_lt in Hlt'. rewrite Hlt'.
      rewrite bind_modify, bind_get. fold g'. unfold bind, lift. intros Hcall.
      assert (Hg1 : g1 = g').
      { destruct (index g' i) as [ix|e|]; try (injection Hcall as _ <-; reflexivity).
        destruct (k =? length (map_get n g')); [injection Hcall as _ <-; reflexivity|].
        destruct (advance g' ix (begin g')); injection Hcall as _ <-; reflexivity. }
      pose proof (edge_count_map_modify n (vector_erase k) g l
                    (nth_error_map_find _ _ _ _ Hok Hn)) as Hc.
      pose proof (length_vector_erase l k Hlt) as Hl. fold g' in Hc.
      rewrite <- Hg1, Hsame in Hc. lia.
    - revert Hcall. unfold erase_edge_at. rewrite bind_get, Hend, Hn, Hk.
      pose proof Hlt as Hlt'. apply Nat.ltb_lt in Hlt'. rewrite Hlt'.
      rewrite bind_modify, bind_get. fold g'. unfold bind, lift. intros Hcall.
      destruct (index g' i) as [ix|e|]; try (injection Hcall as _ <-; reflexivity).
      destruct (k =? length (map_get n g')); [injection Hcall as _ <-; reflexivity|].
      destruct (advance g' ix (begin g')); injection Hcall as _ <-; reflexivity. }
  subst g1.
  assert (Hret : forall it', r = Ok it' -> well_placed g' it' = true).
  { intros it' ->. revert Hcall. unfold erase_edge_at. rewrite bind_get, Hend, Hn, Hk.
    pose proof Hlt as Hlt'. apply Nat.ltb_lt in Hlt'. rewrite Hlt'.
    rewrite bind_modify, bind_get. fold g'. unfold bind, lift.
    destruct (index g' i) as [ix|e|]; try discriminate.
    destruct (k =? length (map_get n g')).
    - intros [= <-]. apply end_well_placed.
    - destruct (advance_well_placed g' ix (begin g') (proj1 (begin_well_placed g')))
        as (it0 & Ha & Hw).
      rewrite Ha. intros [= <-]. exact Hw. }
  split; [|split; [|exact Hret]].
  2: {
  unfold g'. rewrite (map_modify_at (vector_erase k) g (node_it_ i) n l Hok Hn).
  assert (Hg : g = firstn (node_it_ i) g ++ (n, l) :: skipn (S (node_it_ i)) g).
  { destruct (nth_error_skipn g _ _ Hn) as [rest Hs].
    destruct (skipn_cons_inv g _ _ _ Hs) as (_ & Hrest & _).
    rewrite Hrest, <- Hs, firstn_skipn. reflexivity. }
  unfold flat_position. rewrite Hn, Hk.
  rewrite <- length_flatten.
  set (A := flatten (firstn (node_it_ i) g)).
  set (C := flatten (skipn (S (node_it_ i)) g)).
  assert (Hflat : flatten g = A ++ records n l ++ C).
  { rewrite Hg at 1. rewrite flatten_app. unfold flatten at 2. simpl. reflexivity. }
  rewrite Hflat, flatten_app. fold A. unfold flatten at 1. cbn [flat_map fst snd].
  fold (records n (vector_erase k l)). fold (flatten (skipn (S (node_it_ i)) g)). fold C.
  assert (Hlr : k < length (records n l)) by (unfold records; rewrite length_map; exact Hlt).
  rewrite firstn_app_2, firstn_app.
  replace (k - length (records n l)) with 0 by lia. rewrite firstn_O, app_nil_r.
  replace (S (length A + k)) with (length A + S k) by lia.
  rewrite skipn_app, skipn_all2 by lia.
  replace (length A + S k - length A) with (S k) by lia.
  rewrite skipn_app. replace (S k - length (records n l)) with 0 by lia.
  cbn [app]. rewrite skipn_O.
  rewrite vector_erase_firstn_skipn. unfold records.
  rewrite map_app, firstn_map, skipn_map, <- !app_assoc. reflexivity.
  }
  unfold nodes, g'. apply map_modify_keys.
Qed.

(** X20.  The two-iterator [erase_edge] on an empty range, [i == s] at an
    edge or at [end()], erases nothing and returns [s]. *)
Theorem erase_edge_range_empty (i : iterator) (g : graph) :
  well_placed g i = true ->
  erase_edge_range i i g = (Ok i, g).
Proof.
  intros Hw.
  assert (Hii : iterator_equal i i = true).
  { unfold iterator_equal. rewrite Nat.eqb_refl. simpl.
    destruct (edge_it_ i); simpl; rewrite ?Nat.eqb_refl; apply orb_true_r. }
  unfold erase_edge_range. rewrite bind_get, Hii.
  destruct (well_placed_cases g i Hw) as [Hend [He | (n & l & k & Hn & Hk & Hlt)]].
  - destruct (at_end_rest g i Hend He) as [-> _]. reflexivity.
  - assert (Hpt : points_at_edge g i = true).
    { unfold points_at_edge. rewrite Hn, Hk. apply Nat.ltb_lt. exact Hlt. }
    rewrite (points_at_edge_not_end g i i Hpt). cbn [andb].
    unfold index. rewrite Hn, Hk. unfold bind, lift. rewrite Nat.ltb_irrefl.
    cbn [erase_range_loop]. rewrite Hii, andb_false_r. reflexivity.
Qed.

(** ** Every edge is stored with its source *)

Lemma sources_ok_cons (n : N) (l : edge_list) (g : graph) :
  sources_ok ((n, l) :: g) = true <->
  forallb (fun e => equal (fst (get_nodes e)) n) l = true /\ sources_ok g = true.
Proof. unfold sources_ok. simpl. apply andb_true_iff. Qed.

Lemma forallb_incl {A} (p : A -> bool) (l l' : list A) :
  (forall x, In x l' -> In x l) -> forallb p l = true -> forallb p l' = true.
Proof. rewrite !forallb_forall. auto. Qed.

Lemma sources_modify (k : N) (f : edge_list -> edge_list) (g : graph) :
  sources_ok g = true ->
  (forallb (fun e => equal (fst (get_nodes e)) k) (map_get k g) = true ->
   forallb (fun e => equal (fst (get_nodes e)) k) (f (map_get k g)) = true) ->
  sources_ok (map_modify k f g) = true.
Proof.
  unfold map_get. induction g as [|[n l] g IH]; intros Hg Hf; [reflexivity|].
  apply sources_ok_cons in Hg. destruct Hg as [Hl Hg]. simpl in *.
  by_equal n k.
  - apply sources_ok_cons. split; [apply Hf; exact Hl | exact Hg].
  - apply sources_ok_cons. split; [exact Hl | apply IH; assumption].
Qed.

Lemma sources_all (f : edge_list -> edge_list) (g : graph) :
  (forall n l, forallb (fun e => equal (fst (get_nodes e)) n) l = true ->
               forallb (fun e => equal (fst (get_nodes e)) n) (f l) = true) ->
  sources_ok g = true -> sources_ok (map_all f g) = true.
Proof.
  intros Hf. induction g as [|[n l] g IH]; intros Hg; [reflexivity|].
  apply sources_ok_cons in Hg. destruct Hg as [Hl Hg].
  unfold map_all. simpl. apply sources_ok_cons. split; [apply Hf; exact Hl | apply IH; exact Hg].
Qed.

Lemma sources_incl (g g' : graph) :
  (forall entry, In entry g' -> In entry g \/ snd entry = []) ->
  sources_ok g = true -> sources_ok g' = true.
Proof.
  unfold sources_ok. rewrite !forallb_forall. intros Hincl Hg entry Hin.
  destruct (Hincl _ Hin) as [H | H]; [apply Hg, H|].
  destruct entry as [n l]. simpl in *. subst l. reflexivity.
Qed.

Lemma sources_find (n : N) (l : edge_list) (g : graph) :
  sources_ok g = true -> map_find n g = Some l ->
  forallb (fun e => equal (fst (get_nodes e)) n) l = true.
Proof.
  induction g as [|[n0 l0] g IH]; intros Hg; simpl; [discriminate|].
  apply sources_ok_cons in Hg. destruct Hg as [Hl Hg].
  by_equal n0 n; [intros [= <-]; exact Hl | apply IH; exact Hg].
Qed.

Lemma sources_of_finds (g : graph) :
  map_ok g = true ->
  (forall n l, map_find n g = Some l ->
               forallb (fun e => equal (fst (get_nodes e)) n) l = true) ->
  sources_ok g = true.
Proof.
  induction g as [|[n0 l0] g IH]; intros Hok H; [reflexivity|].
  apply map_ok_cons in Hok. destruct Hok as [Hn0 Hok].
  apply sources_ok_cons. split.
  - apply (H n0 l0). simpl. rewrite equal_refl. reflexivity.
  - apply IH; [exact Hok|]. intros n l Hf. apply (H n l). simpl.
    pose proof (Hn0 _ (map_find_In _ _ _ Hf)) as Hlt. simpl in Hlt.
    rewrite (less_not_equal _ _ Hlt). exact Hf.
Qed.

Lemma forallb_sort_edges (p : edge -> bool) (l : edge_list) :
  forallb p (sort_edges l) = forallb p l.
Proof.
  induction l as [|x l IH]; simpl; [reflexivity|].
  rewrite forallb_sort_insert, IH. reflexivity.
Qed.

Lemma source_create (src dst : N) (w : option E) :
  fst (get_nodes (create_edge src dst w)) = src.
Proof. destruct w; reflexivity. Qed.

Lemma In_dedup_first (l : edge_list) :
  forall (seen : edge_list) (e : edge), In e (dedup_first seen l) -> In e l.
Proof.
  induction l as [|x l IH]; intros seen e; simpl; [tauto|].
  destruct (existsb (same_signature x) seen); simpl.
  - intros H. right. eapply IH. exact H.
  - intros [-> | H]; [left; reflexivity | right; eapply IH; exact H].
Qed.

Lemma In_canonical_sort (l : edge_list) (e : edge) : In e (canonical_sort l) -> In e l.
Proof.
  rewrite <- sort_edges_canonical_sort. induction l as [|x l IH]; simpl; [tauto|].
  intros H. apply In_sort_insert in H. destruct H as [-> | H]; [left; reflexivity | right; auto].
Qed.

Lemma source_spec_redirect (o n : N) (e : edge) :
  fst (get_nodes (spec_redirect o n e)) = fst (get_nodes e).
Proof. destruct e; reflexivity. Qed.

Lemma sources_spec_add (new_data : N) (olds : edge_list) :
  forall news : edge_list,
    forallb (fun e => equal (fst (get_nodes e)) new_data) news = true ->
    forallb (fun e => equal (fst (get_nodes e)) new_data) (spec_add_outgoing new_data olds news)
    = true.
Proof.
  unfold spec_add_outgoing. induction olds as [|x olds IH]; intros news Hn; simpl; [exact Hn|].
  apply IH. destruct (existsb _ news); [exact Hn|].
  rewrite forallb_app, Hn. simpl. rewrite source_create, equal_refl. reflexivity.
Qed.

Lemma sources_merge_spec (o n : N) (g : graph) :
  sources_ok g = true -> sources_ok (merge_replace_node_spec o n g) = true.
Proof.
  unfold merge_replace_node_spec. generalize (map_get o g). intros olds Hg.
  induction g as [|[k l] g IH]; [reflexivity|].
  apply sources_ok_cons in Hg. destruct Hg as [Hl Hg]. specialize (IH Hg).
  simpl. destruct (negb (equal k o)); [|exact IH].
  apply sources_ok_cons. split; [|exact IH].
  assert (Hmap : forall l0 : edge_list,
            forallb (fun e => equal (fst (get_nodes e)) k) l0 = true ->
            forallb (fun e => equal (fst (get_nodes e)) k) (map (spec_redirect o n) l0) = true).
  { intros l0 H0. rewrite forallb_forall in *. intros e He. apply in_map_iff in He.
    destruct He as (e0 & <- & He0). rewrite source_spec_redirect. apply H0, He0. }
  by_equal k n; [|apply Hmap; exact Hl].
  eapply forallb_incl; [|apply Hmap, sources_spec_add; exact Hl].
  intros e He. apply In_dedup_first in He. apply In_canonical_sort in He. exact He.
Qed.

Lemma source_rename (o n : N) (e : edge) (k : N) :
  equal k o = false ->
  equal (fst (get_nodes e)) k = true ->
  equal (fst (get_nodes (rename_endpoints o n e))) k = true.
Proof.
  intros Hko He. apply equal_spec in He. unfold rename_endpoints. rewrite He, Hko.
  destruct e as [f t w|f t]; simpl in *; destruct (equal t o); simpl; subst;
    apply equal_refl.
Qed.

Lemma erase_range_loop_sources (fuel : nat) :
  forall (i s : iterator) (g : graph) r g',
    sources_ok g = true -> erase_range_loop fuel i s g = Some (r, g') ->
    sources_ok g' = true.
Proof.
  assert (Hat : forall (i : iterator) (g g' : graph) (r : outcome iterator),
            sources_ok g = true -> erase_edge_at i g = (r, g') -> sources_ok g' = true).
  { intros i g g' r Hg H. destruct (erase_edge_at_graph _ _ _ _ H) as [-> | (n & k & ->)];
      [exact Hg|].
    apply sources_modify; [exact Hg|]. apply forallb_incl. apply In_vector_erase. }
  induction fuel as [|fuel IH]; intros i s g r g' Hg; simpl; [discriminate|].
  destruct (negb (iterator_equal i (end_ g)) && negb (iterator_equal i s));
    [|intros [= _ <-]; exact Hg].
  destruct (erase_edge_at i g) as [[i1|e|] g1] eqn:He;
    pose proof (Hat _ _ _ _ Hg He) as Hg1; try (intros [= _ <-]; exact Hg1).
  destruct (incr g1 i1) as [i2|e|]; try (intros [= _ <-]; exact Hg1).
  apply IH. exact Hg1.
Qed.

Lemma exec_sources (c : call N E) (g g' : graph) (r : outcome (result N E)) :
  map_ok g = true ->
  sources_ok g = true ->
  exec c g = (r, g') ->
  sources_ok g' = true.
Proof.
  intros Hok Hg Hexec. pose proof (exec_ok c g r g' Hok Hexec) as Hok'.
  destruct c; unfold exec in Hexec;
    apply returning_state in Hexec; destruct Hexec as [r' Hexec].
  - rewrite insert_node_state in Hexec. injection Hexec as _ <-.
    destruct (is_node value g); [exact Hg|].
    eapply sources_incl; [|exact Hg]. intros entry Hin. apply In_map_emplace in Hin.
    destruct Hin as [-> | Hin]; [right; reflexivity | left; exact Hin].
  - destruct (is_node src g) eqn:Hs; [destruct (is_node dst g) eqn:Hd|].
    + rewrite (insert_edge_state src dst w g Hok Hs Hd) in Hexec.
      destruct (edge_exists (map_get src g) dst w); injection Hexec as _ <-; [exact Hg|].
      apply sources_modify; [exact Hg|]. intros Hl.
      rewrite forallb_sort_edges, forallb_app, Hl. simpl.
      rewrite source_create, equal_refl. reflexivity.
    + unfold insert_edge in Hexec. rewrite bind_get, Hs, Hd in Hexec.
      injection Hexec as _ <-. exact Hg.
    + unfold insert_edge in Hexec. rewrite bind_get, Hs in Hexec.
      injection Hexec as _ <-. exact Hg.
  - destruct (is_node old_data g) eqn:Hold.
    + destruct (replace_node_lookup old_data new_data g Hok Hold) as [Hsame Hnew].
      destruct (is_node new_data g) eqn:Hn.
      * rewrite (Hsame eq_refl) in Hexec. injection Hexec as _ <-. exact Hg.
      * destruct (Hnew eq_refl) as (g1 & Hrun & Hfind). rewrite Hrun in Hexec.
        injection Hexec as _ <-.
        apply sources_of_finds; [exact Hok'|].
        intros n l. rewrite Hfind. by_equal n new_data.
        -- intros [= <-]. rewrite forallb_sort_edges. apply forallb_forall.
           intros e He. apply in_map_iff in He. destruct He as (e0 & <- & _).
           rewrite source_create. apply equal_refl.
        -- by_equal n old_data; [discriminate|].
           destruct (map_find n g) as [l0|] eqn:Hf; [|discriminate].
           intros [= <-]. pose proof (sources_find n l0 g Hg Hf) as Hl0.
           rewrite forallb_forall in *. intros e He. apply in_map_iff in He.
           destruct He as (e0 & <- & He0). apply source_rename; auto.
    + unfold replace_node in Hexec. rewrite bind_get, Hold in Hexec.
      injection Hexec as _ <-. exact Hg.
  - destruct (is_node old_data g) eqn:Hold; [destruct (is_node new_data g) eqn:Hn|].
    + rewrite (merge_replace_node_refines old_data new_data g Hok Hold Hn) in Hexec.
      injection Hexec as _ <-. apply sources_merge_spec. exact Hg.
    + unfold merge_replace_node in Hexec. rewrite bind_get, Hold, Hn in Hexec.
      injection Hexec as _ <-. exact Hg.
    + unfold merge_replace_node in Hexec. rewrite bind_get, Hold in Hexec.
      injection Hexec as _ <-. exact Hg.
  - unfold erase_node in Hexec. rewrite bind_get in Hexec.
    destruct (is_node value g); [|injection Hexec as _ <-; exact Hg].
    cbn [negb] in Hexec. rewrite !bind_modify in Hexec. injection Hexec as _ <-.
    eapply sources_incl; [intros entry Hin; left; eapply In_map_erase; exact Hin|].
    apply sources_all; [|exact Hg]. intros n l. apply forallb_incl.
    intros e He. apply filter_In in He. tauto.
  - unfold erase_edge in Hexec. rewrite bind_get in Hexec.
    destruct (negb (is_node src g) || negb (is_node dst g));
      [injection Hexec as _ <-; exact Hg|].
    rewrite bind_gets in Hexec. cbv zeta in Hexec.
    destruct (length _ =? length _); [injection Hexec as _ <-; exact Hg|].
    rewrite bind_modify in Hexec. injection Hexec as _ <-.
    apply sources_modify; [exact Hg|]. apply forallb_incl.
    intros e He. apply filter_In in He. tauto.
  - destruct (erase_edge_at_graph _ _ _ _ Hexec) as [-> | (n & k & ->)]; [exact Hg|].
    apply sources_modify; [exact Hg|]. apply forallb_incl. apply In_vector_erase.
  - unfold erase_edge_range in Hexec. rewrite bind_get in Hexec.
    destruct (iterator_equal i s && iterator_equal i (end_ g));
      [injection Hexec as _ <-; exact Hg|].
    unfold bind, lift in Hexec.
    destruct (index g i) as [ii|e|]; try (injection Hexec as _ <-; exact Hg).
    destruct (index g s) as [si|e|]; try (injection Hexec as _ <-; exact Hg).
    destruct (si <? ii); [injection Hexec as _ <-; exact Hg|].
    destruct (erase_range_loop (S (edge_count g)) i s g) as [[[u|e|] g1]|] eqn:Hl;
      injection Hexec as _ <-; try exact Hg;
      eapply erase_range_loop_sources; eauto.
  - injection Hexec as _ <-. reflexivity.
  - rewrite bind_get in Hexec. injection Hexec as _ <-. exact Hg.
  - rewrite bind_get in Hexec. injection Hexec as _ <-. exact Hg.
  - rewrite bind_get in Hexec. injection Hexec as _ <-. exact Hg.
  - injection Hexec as _ <-. exact Hg.
Qed.

(** X21.  In every graph a program can build, each edge is stored in the
    vector of its own source, so the edges [edges(src, dst)] returns report
    [src] and [dst] as their nodes. *)
Theorem reachable_sources (g : graph) :
  reachable g ->
  sources_ok g = true
  /\ (forall src dst l e, edges src dst g = Ok l -> In e l -> get_nodes e = (src, dst)).
Proof.
  intros Hr.
  assert (Hs : sources_ok g = true).
  { induction Hr as [|c g r g' Hr IH Hexec]; [reflexivity|].
    eapply exec_sources; [apply reachable_map_ok; exact Hr | exact IH | exact Hexec]. }
  split; [exact Hs|].
  intros src dst l e. unfold edges.
  destruct (negb (is_node src g) || negb (is_node dst g)); [discriminate|].
  intros [= <-] He. apply in_map_iff in He. destruct He as (e0 & <- & He0).
  rewrite copy_edge_id. apply filter_In in He0. destruct He0 as [Hin Hto].
  apply equal_spec in Hto. unfold map_get in Hin.
  destruct (map_find src g) as [l0|] eqn:Hf; [|destruct Hin].
  pose proof (sources_find src l0 g Hs Hf) as Hl0. rewrite forallb_forall in Hl0.
  specialize (Hl0 _ Hin). apply equal_spec in Hl0.
  destruct (get_nodes e0) as [a b]. simpl in *. subst. reflexivity.
Qed.

(** X22.  On two nodes, [is_connected(src, dst)] is [true] exactly when
    [dst] is among the values [connections(src)] returns, which are the
    destinations of the edges of [src] in the order of its vector. *)
Theorem is_connected_connections (src dst : N) (g : graph) :
  is_node src g = true ->
  is_node dst g = true ->
  connections src g = Ok (map (fun e => snd (get_nodes e)) (map_get src g))
  /\ exists b,
       is_connected src dst g = Ok b
       /\ (b = true <-> In dst (map (fun e => snd (get_nodes e)) (map_get src g))).
Proof.
  intros Hs Hd. split.
  - unfold connections, map_get. rewrite Hs. simpl.
    destruct (map_find src g); reflexivity.
  - unfold is_connected, edges. rewrite Hs, Hd. cbn [negb orb].
    eexists. split; [reflexivity|].
    generalize (map_get src g). intros l.
    induction l as [|e l IH]; simpl; [split; [discriminate | tauto]|].
    by_equal (snd (get_nodes e)) dst; simpl.
    + split; auto.
    + rewrite IH. split; [auto | intros [? | ?]; [contradiction | assumption]].
Qed.

End MoreFacts.

(** ** The further properties on the graphs of the scenarios *)

Open Scope Z_scope.

Lemma triangle_reachable : reachable triangle.
Proof. unfold triangle, build. apply reachable_run; [constructor | reflexivity]. Qed.

Lemma nodes_ascending_and_exact_witness :
  ascending (nodes triangle) = true
  /\ (forall v, is_node v triangle = true <-> In v (nodes triangle)).
Proof.
  apply (nodes_ascending_and_exact triangle). exact triangle_reachable.
Defined.

Lemma insert_node_result_witness :
  map_ok triangle = true
  /\ exists g',
       insert_node 4 triangle = (Ok (negb (is_node 4 triangle)), g')
       /\ is_node 4 g' = true
       /\ (forall n, map_find n g' = if equal n 4 then Some (map_get 4 triangle)
                                     else map_find n triangle)
       /\ (is_node 4 triangle = true -> g' = triangle).
Proof. split; [reflexivity|]. apply (insert_node_result 4 triangle). reflexivity. Defined.

Lemma insert_edge_twice_witness :
  map_ok triangle = true /\ is_node 3 triangle = true /\ is_node 1 triangle = true
  /\ exists g1,
       insert_edge 3 1 None triangle
       = (Ok (negb (edge_exists (map_get 3 triangle) 1 None)), g1)
       /\ edge_exists (map_get 3 g1) 1 None = true
       /\ insert_edge 3 1 None g1 = (Ok false, g1).
Proof.
  split; [reflexivity|]. split; [reflexivity|]. split; [reflexivity|].
  apply (insert_edge_twice 3 1 None triangle); reflexivity.
Defined.

Lemma find_result_witness :
  is_node 1 triangle = true /\ is_node 3 triangle = true
  /\ deref triangle (find 1 3 (Some 2) triangle)
     = Ok {| from := 1; to := 3; weight := Some 2 |}
  /\ iterator_equal (find 1 3 (Some 2) triangle) (end_ triangle) = false.
Proof.
  split; [reflexivity|]. split; [reflexivity|].
  exact (find_result 1 3 (Some 2) triangle (eq_refl true) (eq_refl true)).
Defined.

Lemma insert_edge_then_find_witness :
  map_ok triangle = true
  /\ insert_edge 3 1 (Some 7) triangle
     = (Ok true, snd (insert_edge 3 1 (Some 7) triangle))
  /\ deref (snd (insert_edge 3 1 (Some 7) triangle))
           (find 3 1 (Some 7) (snd (insert_edge 3 1 (Some 7) triangle)))
     = Ok {| from := 3; to := 1; weight := Some 7 |}
  /\ iterator_equal (find 3 1 (Some 7) (snd (insert_edge 3 1 (Some 7) triangle)))
                    (end_ (snd (insert_edge 3 1 (Some 7) triangle))) = false
  /\ is_connected 3 1 (snd (insert_edge 3 1 (Some 7) triangle)) = Ok true.
Proof.
  split; [reflexivity|]. split; [reflexivity|].
  apply (insert_edge_then_find 3 1 (Some 7) triangle
           (snd (insert_edge 3 1 (Some 7) triangle)) true); reflexivity.
Defined.

Lemma canonical_order_kept_witness :
  map_ok triangle = true
  /\ well_ordered triangle = true
  /\ exec (InsertEdge 1 3 None) triangle
     = (Ok (RBool true), snd (exec (InsertEdge 1 3 None) triangle))
  /\ well_ordered (snd (exec (InsertEdge 1 3 None) triangle)) = true.
Proof.
  split; [reflexivity|]. split; [reflexivity|]. split; [reflexivity|].
  apply (canonical_order_kept (InsertEdge 1 3 None) triangle
           (snd (exec (InsertEdge 1 3 None) triangle)) (Ok (RBool true)) I);
    reflexivity.
Defined.

Lemma edges_canonical_witness :
  well_ordered mixed = true
  /\ edges 1 2 mixed = Ok [unweighted_edge 1 2; weighted_edge 1 2 5]
  /\ is_canonical [unweighted_edge 1 2; weighted_edge 1 2 5] = true
  /\ distinct_signatures [unweighted_edge 1 2; weighted_edge 1 2 5] = true
  /\ (forall e, In e [unweighted_edge 1 2; weighted_edge 1 2 5] ->
                snd (get_nodes e) = 2 /\ In e (map_get 1 mixed)).
Proof.
  split; [reflexivity|]. split; [reflexivity|].
  apply (edges_canonical 1 2 mixed); reflexivity.
Defined.

Lemma erase_node_result_witness :
  map_ok triangle = true
  /\ is_node 3 triangle = true
  /\ exists g',
       erase_node 3 triangle = (Ok true, g')
       /\ is_node 3 g' = false
       /\ (forall n, equal n 3 = false ->
             map_find n g'
             = option_map (filter (fun e => negb (equal (snd (get_nodes e)) 3)))
                          (map_find n triangle))
       /\ (forall entry e, In entry g' -> In e (snd entry) -> snd (get_nodes e) <> 3).
Proof.
  split; [reflexivity|]. split; [reflexivity|].
  destruct (erase_node_result 3 triangle) as [_ H]; [reflexivity|]. apply H. reflexivity.
Defined.

Lemma erase_edge_result_witness :
  is_node 1 mixed = true /\ is_node 2 mixed = true
  /\ exists g',
       erase_edge 1 2 (Some 5) mixed
       = (Ok (existsb (erase_edge_pred 2 (Some 5)) (map_get 1 mixed)), g')
       /\ map_get 1 g' = filter (fun e => negb (erase_edge_pred 2 (Some 5) e)) (map_get 1 mixed)
       /\ edge_exists (map_get 1 g') 2 (Some 5) = false
       /\ (forall n, equal n 1 = false -> map_find n g' = map_find n mixed)
       /\ (existsb (erase_edge_pred 2 (Some 5)) (map_get 1 mixed) = false -> g' = mixed).
Proof.
  split; [reflexivity|]. split; [reflexivity|].
  apply (erase_edge_result 1 2 (Some 5) mixed); reflexivity.
Defined.

Lemma merge_replace_node_same_witness :
  map_ok triangle = true /\ is_node 3 triangle = true
  /\ exists g',
       merge_replace_node 3 3 triangle = (Ok tt, g')
       /\ is_node 3 g' = false
       /\ (forall n, equal n 3 = false -> map_find n g' = map_find n triangle).
Proof.
  split; [reflexivity|]. split; [reflexivity|].
  apply (merge_replace_node_same 3 triangle); reflexivity.
Defined.

Lemma invalid_range_exactly_witness :
  points_at_edge square (find 1 2 None square) = true
  /\ points_at_edge square (find 2 1 None square) = true
  /\ fst (erase_edge_range (find 1 2 None square) (find 2 1 None square) square)
     = Throw InvalidRange
  /\ snd (erase_edge_range (find 1 2 None square) (find 2 1 None square) square) = square.
Proof.
  split; [reflexivity|]. split; [reflexivity|].
  destruct (invalid_range_exactly (find 1 2 None square) (find 2 1 None square) square
              InvalidRange) as [Hiff Hstate]; [reflexivity | reflexivity|].
  assert (H : fst (erase_edge_range (find 1 2 None square) (find 2 1 None square) square)
              = Throw InvalidRange).
  { apply Hiff. split; [reflexivity|]. exists 1%nat, 0%nat. repeat split. lia. }
  split; [exact H | exact (Hstate H)].
Defined.

Lemma replace_node_result_witness :
  map_ok triangle = true /\ is_node 1 triangle = true /\ is_node 0 triangle = false
  /\ exists g',
       replace_node 1 0 triangle = (Ok true, g')
       /\ forall n,
            map_find n g' =
            if equal n 0 then
              Some (sort_edges
                      (map (fun e =>
                              create_edge 0
                                (if equal (snd (get_nodes e)) 1 then 0 else snd (get_nodes e))
                                (get_weight e))
                           (map_get 1 triangle)))
            else if equal n 1 then None
            else option_map (map (rename_endpoints 1 0)) (map_find n triangle).
Proof.
  split; [reflexivity|]. split; [reflexivity|]. split; [reflexivity|].
  destruct (replace_node_result 1 0 triangle) as [_ H]; [reflexivity | reflexivity|].
  apply H. reflexivity.
Defined.

Lemma copy_graph_equal_witness :
  map_ok triangle = true
  /\ copy_graph triangle = triangle
  /\ graph_equal (copy_graph triangle) triangle = Ok true.
Proof. split; [reflexivity|]. apply (copy_graph_equal triangle). reflexivity. Defined.

Lemma incr_then_decr_witness :
  points_at_edge pair (begin pair) = true
  /\ node_end_ (begin pair) = length pair
  /\ exists it', incr pair (begin pair) = Ok it' /\ decr pair it' = Ok (begin pair).
Proof.
  split; [reflexivity|]. split; [reflexivity|].
  apply (incr_then_decr pair (begin pair)); reflexivity.
Defined.

Lemma erase_edge_at_erases_witness :
  map_ok later_node = true
  /\ points_at_edge later_node (find 2 1 (Some 1) later_node) = true
  /\ erase_edge_at (find 2 1 (Some 1) later_node) later_node
     = (fst (erase_edge_at (find 2 1 (Some 1) later_node) later_node),
        [(1, [unweighted_edge 1 1]); (2, [weighted_edge 2 1 2])])
  /\ nodes [(1, [unweighted_edge 1 1]); (2, [weighted_edge 2 1 2])] = nodes later_node
  /\ flatten [(1, [unweighted_edge 1 1]); (2, [weighted_edge 2 1 2])]
     = firstn (flat_position later_node (find 2 1 (Some 1) later_node)) (flatten later_node)
       ++ skipn (S (flat_position later_node (find 2 1 (Some 1) later_node)))
                (flatten later_node)
  /\ (forall it',
        fst (erase_edge_at (find 2 1 (Some 1) later_node) later_node) = Ok it' ->
        well_placed [(1, [unweighted_edge 1 1]); (2, [weighted_edge 2 1 2])] it' = true).
Proof.
  split; [reflexivity|]. split; [reflexivity|]. split; [reflexivity|].
  apply (erase_edge_at_erases (find 2 1 (Some 1) later_node) later_node
           [(1, [unweighted_edge 1 1]); (2, [weighted_edge 2 1 2])]
           (fst (erase_edge_at (find 2 1 (Some 1) later_node) later_node)));
    reflexivity.
Defined.

Lemma erase_edge_range_empty_witness :
  well_placed square (find 2 1 None square) = true
  /\ erase_edge_range (find 2 1 None square) (find 2 1 None square) square
     = (Ok (find 2 1 None square), square).
Proof.
  split; [reflexivity|].
  apply (erase_edge_range_empty (find 2 1 None square) square). reflexivity.
Defined.

Lemma reachable_sources_witness :
  sources_ok triangle = true
  /\ (forall src dst l e,
        edges src dst triangle = Ok l -> In e l -> get_nodes e = (src, dst)).
Proof.
  apply (reachable_sources triangle). exact triangle_reachable.
Defined.

Lemma is_connected_connections_witness :
  is_node 1 triangle = true /\ is_node 3 triangle = true
  /\ connections 1 triangle = Ok (map (fun e => snd (get_nodes e)) (map_get 1 triangle))
  /\ exists b,
       is_connected 1 3 triangle = Ok b
       /\ (b = true <-> In 3 (map (fun e => snd (get_nodes e)) (map_get 1 triangle))).
Proof.
  split; [reflexivity|]. split; [reflexivity|].
  apply (is_connected_connections 1 3 triangle); reflexivity.
Defined.
